(** * KohakuHub maintenance scripts: schema migration and JSON-schema export

    A shallow embedding of
      - [scripts/migrate_add_quota_and_ssh_keys.py]
        ([migrate], [migrate_postgres], [migrate_sqlite]) and
      - [scripts/generate_json_schema.py] ([move_defs_to_end]),
    followed by the properties of these programs.

    The migration script talks to three collaborators that live outside
    the script: the database handle [db] (connect, [execute_sql]), the
    configuration object [cfg] and the logger.  The database handle is a
    parameter of the embedding (a [Driver]); every call the script makes
    is recorded, in program order, as an [Event]. *)

From Stdlib Require Import ZArith Ascii String List Bool Lia.
From stdpp Require Import gmap strings list fin_maps.

Local Open Scope string_scope.
Local Open Scope list_scope.

(** ** SQL statements issued by the script *)

Module Sql.

(** Column types that occur in the script's DDL. *)
Inductive SqlType : Type :=
| SERIAL
| INTEGER
| BIGINT
| VARCHAR (n : nat)
| TEXT
| TIMESTAMP.

(** The expression after [DEFAULT]. *)
Inductive DefaultExpr : Type :=
| DNull
| DInt (z : Z)
| DCurrentTimestamp.

(** Column constraints, in the order they are written. *)
Inductive Constraint : Type :=
| PRIMARY_KEY
| AUTOINCREMENT
| NOT_NULL
| UNIQUE
| DEFAULT (d : DefaultExpr).

(** One column definition: [name TYPE constraint...]. *)
Record ColumnDef : Type := Col {
  col_name : string;
  col_type : SqlType;
  col_constraints : list Constraint
}.

(** The statements of the script.  [if_not_exists] records whether
    the statement text carries the [IF NOT EXISTS] guard. *)
Inductive Stmt : Type :=
| PRAGMA_table_info (table : string)
| ALTER_TABLE_ADD_COLUMN (if_not_exists : bool) (table : string) (c : ColumnDef)
| CREATE_TABLE (if_not_exists : bool) (table : string) (cols : list ColumnDef)
| CREATE_INDEX (unique if_not_exists : bool) (name table : string)
               (cols : list string).

#[global] Instance SqlType_eq_dec : EqDecision SqlType.
Proof. solve_decision. Defined.
#[global] Instance DefaultExpr_eq_dec : EqDecision DefaultExpr.
Proof. solve_decision. Defined.
#[global] Instance Constraint_eq_dec : EqDecision Constraint.
Proof. solve_decision. Defined.
#[global] Instance ColumnDef_eq_dec : EqDecision ColumnDef.
Proof. solve_decision. Defined.
#[global] Instance Stmt_eq_dec : EqDecision Stmt.
Proof. solve_decision. Defined.

(** What a column definition says about the column. *)
Definition is_primary_key (c : ColumnDef) : bool :=
  bool_decide (PRIMARY_KEY ∈ col_constraints c).

Definition is_unique (c : ColumnDef) : bool :=
  bool_decide (UNIQUE ∈ col_constraints c).

(** A column accepts NULL unless it is declared [NOT NULL] or is the
    primary key. *)
Definition is_nullable (c : ColumnDef) : bool :=
  negb (bool_decide (NOT_NULL ∈ col_constraints c)) && negb (is_primary_key c).

(** The key is generated by the backend: [SERIAL] on PostgreSQL,
    [INTEGER PRIMARY KEY AUTOINCREMENT] on SQLite. *)
Definition is_generated (c : ColumnDef) : bool :=
  bool_decide (col_type c = SERIAL)
  || bool_decide (AUTOINCREMENT ∈ col_constraints c).

Fixpoint first_default (cs : list Constraint) : option DefaultExpr :=
  match cs with
  | [] => None
  | DEFAULT d :: _ => Some d
  | _ :: cs' => first_default cs'
  end.

Definition default_of (c : ColumnDef) : option DefaultExpr :=
  first_default (col_constraints c).

Definition is_string_type (t : SqlType) : bool :=
  match t with VARCHAR _ | TEXT => true | _ => false end.

End Sql.
Import Sql.

(** ** Exceptions, cursors and the database handle *)

(** The class of a raised exception, as far as the properties below
    need to tell them apart. *)
Inductive ExnKind : Type :=
| DuplicateObject      (* "... already exists", "duplicate column name" *)
| UndefinedObject      (* "no such table", "relation does not exist" *)
| ConnectionFailure
| IndexError           (* [row[1]] on a row with fewer than two fields *)
| OtherFailure.        (* permissions, I/O, anything else *)

(** An instance of Python's [Exception]: what the database calls raise
    and what [except Exception as e] binds; [exn_text] is [str(e)].
    Signals outside [Exception] (a keyboard interrupt, an interpreter
    exit) do not come from the database calls and are not modelled. *)
Record Exn : Type := MkExn { exn_kind : ExnKind; exn_text : string }.

#[global] Instance ExnKind_eq_dec : EqDecision ExnKind.
Proof. solve_decision. Defined.
#[global] Instance Exn_eq_dec : EqDecision Exn.
Proof. solve_decision. Defined.

(** A result row is a tuple of fields, a cursor's [fetchall()] a list
    of rows. *)
Definition Row : Type := list string.
Definition Cursor : Type := list Row.

(** The database handle [db]: [db.connect(reuse_if_open=True)] and
    [db.execute_sql(stmt)], over an arbitrary database state.  Either
    call may raise; [execute_sql] may change the state even then. *)
Record Driver (DB : Type) : Type := {
  drv_connect : DB -> Exn + DB;
  drv_execute_sql : Stmt -> DB -> DB * (Exn + Cursor)
}.
Arguments drv_connect {DB} _ _.
Arguments drv_execute_sql {DB} _ _ _.

(** ** Events: the calls the script makes, in program order *)

Inductive Level : Type := Info | Success | Warning.

Inductive Event : Type :=
| EvConnect (r : option Exn)              (* db.connect(reuse_if_open=True) *)
| EvReadBackend (b : string)              (* cfg.app.db_backend *)
| EvLog (l : Level) (msg : string)        (* logger.info/success/warning *)
| EvSql (s : Stmt) (r : Exn + Cursor).    (* db.execute_sql(s) and its outcome *)

#[global] Instance Level_eq_dec : EqDecision Level.
Proof. solve_decision. Defined.
#[global] Instance Event_eq_dec : EqDecision Event.
Proof. solve_decision. Defined.

(** ** The script's effects: database state, exceptions, event output *)

(** Running a piece of the script from a database state yields the
    events it produced, the state it left and its result or the
    exception that ended it. *)
Record Outcome (DB A : Type) : Type := Out {
  out_events : list Event;
  out_db : DB;
  out_result : Exn + A
}.
Arguments Out {DB A} _ _ _.
Arguments out_events {DB A} _.
Arguments out_db {DB A} _.
Arguments out_result {DB A} _.

Definition M (DB A : Type) : Type := DB -> Outcome DB A.

Definition ret {DB A} (a : A) : M DB A := fun db => Out [] db (inr a).

Definition raise {DB A} (e : Exn) : M DB A := fun db => Out [] db (inl e).

Definition bind {DB A B} (m : M DB A) (k : A -> M DB B) : M DB B :=
  fun db =>
    match m db with
    | Out evs db1 (inl e) => Out evs db1 (inl e)
    | Out evs db1 (inr a) =>
        match k a db1 with
        | Out evs' db2 r => Out (evs ++ evs') db2 r
        end
    end.

(** [try: body except Exception as e: handler(e)] *)
Definition try_except {DB A} (body : M DB A) (handler : Exn -> M DB A) : M DB A :=
  fun db =>
    match body db with
    | Out evs db1 (inl e) =>
        match handler e db1 with
        | Out evs' db2 r => Out (evs ++ evs') db2 r
        end
    | Out evs db1 (inr a) => Out evs db1 (inr a)
    end.

Declare Scope script_scope.
Delimit Scope script_scope with script.
Notation "x <- c ;; k" := (bind c (fun x => k))
  (at level 100, c at next level, right associativity) : script_scope.
Notation "c ;; k" := (bind c (fun _ => k))
  (at level 100, right associativity) : script_scope.
Local Open Scope script_scope.

(** [{row[1] for row in cursor.fetchall()}]: indexing a row with fewer
    than two fields raises [IndexError]. *)
Definition row_names (rows : Cursor) : option (list string) :=
  mapM (fun row : Row => row !! 1%nat) rows.

Definition fetch_existing_columns {DB} (rows : Cursor) : M DB (gset string) :=
  match row_names rows with
  | Some names => ret (list_to_set names)
  | None => raise (MkExn IndexError "tuple index out of range")
  end.

(** ** The migration script *)

Section Script.

Context {DB : Type} (drv : Driver DB).

(** *** Calls to the collaborators *)

Definition connect : M DB unit :=
  fun db =>
    match drv_connect drv db with
    | inl e => Out [EvConnect (Some e)] db (inl e)
    | inr db' => Out [EvConnect None] db' (inr tt)
    end.

Definition execute_sql (s : Stmt) : M DB Cursor :=
  fun db =>
    let (db', r) := drv_execute_sql drv s db in
    Out [EvSql s r] db' r.

Definition logger (l : Level) (msg : string) : M DB unit :=
  fun db => Out [EvLog l msg] db (inr tt).

Definition read_db_backend (cfg_db_backend : string) : M DB string :=
  fun db => Out [EvReadBackend cfg_db_backend] db (inr cfg_db_backend).

(** *** [migrate_postgres] *)

(** One block of [migrate_postgres]:
<<
    try:
        db.execute_sql(stmt)
        logger.success(done)
    except Exception as e:
        logger.warning(f"{might}: {e}")
>> *)
Definition try_execute (stmt : Stmt) (done might : string) : M DB unit :=
  try_except
    (execute_sql stmt ;; logger Success done)
    (fun e => logger Warning (might +:+ ": " +:+ exn_text e)).

Definition pg_private_quota_bytes : ColumnDef :=
  Col "private_quota_bytes" BIGINT [DEFAULT DNull].
Definition pg_public_quota_bytes : ColumnDef :=
  Col "public_quota_bytes" BIGINT [DEFAULT DNull].
Definition pg_private_used_bytes : ColumnDef :=
  Col "private_used_bytes" BIGINT [DEFAULT (DInt 0)].
Definition pg_public_used_bytes : ColumnDef :=
  Col "public_used_bytes" BIGINT [DEFAULT (DInt 0)].

(** The column list of [CREATE TABLE IF NOT EXISTS sshkey (...)] in
    [migrate_postgres]. *)
Definition pg_sshkey_columns : list ColumnDef :=
  [ Col "id" SERIAL [PRIMARY_KEY];
    Col "user_id" INTEGER [NOT_NULL];
    Col "key_type" (VARCHAR 255) [NOT_NULL];
    Col "public_key" TEXT [NOT_NULL];
    Col "fingerprint" (VARCHAR 255) [NOT_NULL; UNIQUE];
    Col "title" (VARCHAR 255) [NOT_NULL];
    Col "last_used" TIMESTAMP [];
    Col "created_at" TIMESTAMP [NOT_NULL; DEFAULT DCurrentTimestamp] ].

Definition migrate_postgres : M DB unit :=
  (* 1. Add quota columns to User table *)
  logger Info "Adding quota columns to User table..." ;;
  try_execute (ALTER_TABLE_ADD_COLUMN true "user" pg_private_quota_bytes)
    "Added private_quota_bytes to User"
    "Column private_quota_bytes might already exist" ;;
  try_execute (ALTER_TABLE_ADD_COLUMN true "user" pg_public_quota_bytes)
    "Added public_quota_bytes to User"
    "Column public_quota_bytes might already exist" ;;
  try_execute (ALTER_TABLE_ADD_COLUMN true "user" pg_private_used_bytes)
    "Added private_used_bytes to User"
    "Column private_used_bytes might already exist" ;;
  try_execute (ALTER_TABLE_ADD_COLUMN true "user" pg_public_used_bytes)
    "Added public_used_bytes to User"
    "Column public_used_bytes might already exist" ;;
  (* 2. Add quota columns to Organization table *)
  logger Info "Adding quota columns to Organization table..." ;;
  try_execute (ALTER_TABLE_ADD_COLUMN true "organization" pg_private_quota_bytes)
    "Added private_quota_bytes to Organization"
    "Column private_quota_bytes might already exist" ;;
  try_execute (ALTER_TABLE_ADD_COLUMN true "organization" pg_public_quota_bytes)
    "Added public_quota_bytes to Organization"
    "Column public_quota_bytes might already exist" ;;
  try_execute (ALTER_TABLE_ADD_COLUMN true "organization" pg_private_used_bytes)
    "Added private_used_bytes to Organization"
    "Column private_used_bytes might already exist" ;;
  try_execute (ALTER_TABLE_ADD_COLUMN true "organization" pg_public_used_bytes)
    "Added public_used_bytes to Organization"
    "Column public_used_bytes might already exist" ;;
  (* 3. Create SSHKey table *)
  logger Info "Creating SSHKey table..." ;;
  try_execute (CREATE_TABLE true "sshkey" pg_sshkey_columns)
    "Created SSHKey table"
    "SSHKey table might already exist" ;;
  (* Create indexes *)
  try_execute (CREATE_INDEX false true "sshkey_user_id" "sshkey" ["user_id"])
    "Created index on sshkey.user_id"
    "Index might already exist" ;;
  try_execute (CREATE_INDEX false true "sshkey_fingerprint" "sshkey" ["fingerprint"])
    "Created index on sshkey.fingerprint"
    "Index might already exist" ;;
  try_execute
    (CREATE_INDEX true true "sshkey_user_fingerprint" "sshkey" ["user_id"; "fingerprint"])
    "Created unique index on sshkey(user_id, fingerprint)"
    "Index might already exist".

(** *** [migrate_sqlite] *)

(** One block of [migrate_sqlite]:
<<
    if "<column>" not in existing_columns:
        logger.info(adding)
        db.execute_sql("ALTER TABLE <table> ADD COLUMN <column def>")
        logger.success(added)
>> *)
Definition add_if_missing (existing_columns : gset string) (table : string)
    (c : ColumnDef) (adding added : string) : M DB unit :=
  if decide (col_name c ∉ existing_columns) then
    logger Info adding ;;
    _ <- execute_sql (ALTER_TABLE_ADD_COLUMN false table c) ;;
    logger Success added
  else ret tt.

Definition lite_private_quota_bytes : ColumnDef :=
  Col "private_quota_bytes" INTEGER [DEFAULT DNull].
Definition lite_public_quota_bytes : ColumnDef :=
  Col "public_quota_bytes" INTEGER [DEFAULT DNull].
Definition lite_private_used_bytes : ColumnDef :=
  Col "private_used_bytes" INTEGER [DEFAULT (DInt 0)].
Definition lite_public_used_bytes : ColumnDef :=
  Col "public_used_bytes" INTEGER [DEFAULT (DInt 0)].

(** The column list of [CREATE TABLE IF NOT EXISTS sshkey (...)] in
    [migrate_sqlite]. *)
Definition lite_sshkey_columns : list ColumnDef :=
  [ Col "id" INTEGER [PRIMARY_KEY; AUTOINCREMENT];
    Col "user_id" INTEGER [NOT_NULL];
    Col "key_type" (VARCHAR 255) [NOT_NULL];
    Col "public_key" TEXT [NOT_NULL];
    Col "fingerprint" (VARCHAR 255) [NOT_NULL; UNIQUE];
    Col "title" (VARCHAR 255) [NOT_NULL];
    Col "last_used" TIMESTAMP [];
    Col "created_at" TIMESTAMP [NOT_NULL; DEFAULT DCurrentTimestamp] ].

(** Section 1 of [migrate_sqlite]: check and add quota columns to the
    User table. *)
Definition migrate_sqlite_user : M DB unit :=
  logger Info "Checking User table schema..." ;;
  cursor <- execute_sql (PRAGMA_table_info "user") ;;
  existing_columns <- fetch_existing_columns cursor ;;
  add_if_missing existing_columns "user" lite_private_quota_bytes
    "Adding private_quota_bytes to User..." "Added private_quota_bytes" ;;
  add_if_missing existing_columns "user" lite_public_quota_bytes
    "Adding public_quota_bytes to User..." "Added public_quota_bytes" ;;
  add_if_missing existing_columns "user" lite_private_used_bytes
    "Adding private_used_bytes to User..." "Added private_used_bytes" ;;
  add_if_missing existing_columns "user" lite_public_used_bytes
    "Adding public_used_bytes to User..." "Added public_used_bytes".

(** Section 2: check and add quota columns to the Organization table. *)
Definition migrate_sqlite_organization : M DB unit :=
  logger Info "Checking Organization table schema..." ;;
  cursor <- execute_sql (PRAGMA_table_info "organization") ;;
  existing_columns <- fetch_existing_columns cursor ;;
  add_if_missing existing_columns "organization" lite_private_quota_bytes
    "Adding private_quota_bytes to Organization..." "Added private_quota_bytes" ;;
  add_if_missing existing_columns "organization" lite_public_quota_bytes
    "Adding public_quota_bytes to Organization..." "Added public_quota_bytes" ;;
  add_if_missing existing_columns "organization" lite_private_used_bytes
    "Adding private_used_bytes to Organization..." "Added private_used_bytes" ;;
  add_if_missing existing_columns "organization" lite_public_used_bytes
    "Adding public_used_bytes to Organization..." "Added public_used_bytes".

(** Section 3: create the SSHKey table and its indexes. *)
Definition migrate_sqlite_sshkey : M DB unit :=
  logger Info "Creating SSHKey table..." ;;
  _ <- execute_sql (CREATE_TABLE true "sshkey" lite_sshkey_columns) ;;
  logger Success "Created SSHKey table" ;;
  _ <- execute_sql (CREATE_INDEX false true "sshkey_user_id" "sshkey" ["user_id"]) ;;
  _ <- execute_sql (CREATE_INDEX false true "sshkey_fingerprint" "sshkey" ["fingerprint"]) ;;
  _ <- execute_sql
    (CREATE_INDEX true true "sshkey_user_fingerprint" "sshkey" ["user_id"; "fingerprint"]) ;;
  logger Success "Created indexes on SSHKey table".

Definition migrate_sqlite : M DB unit :=
  migrate_sqlite_user ;;
  migrate_sqlite_organization ;;
  migrate_sqlite_sshkey.

(** *** [migrate] *)

Definition migrate (cfg_db_backend : string) : M DB unit :=
  connect ;;
  logger Info "Starting database migration..." ;;
  (* Check database backend *)
  db_backend <- read_db_backend cfg_db_backend ;;
  (if String.eqb db_backend "postgres" then
     logger Info "Detected PostgreSQL database" ;;
     migrate_postgres
   else
     logger Info "Detected SQLite database" ;;
     migrate_sqlite) ;;
  logger Success "Migration completed successfully!".

End Script.

(** ** A reference database catalog

    Modelled from the spec: the database engine behind [db.execute_sql]
    is not part of the script.  [RefDb] is a catalog-level model of what
    the script's statements do to a schema (spec sections 3 and 4): the
    tables with their ordered column definitions and the named indexes.
    Column and index names are compared exactly, as PostgreSQL compares
    the names of the script, which are in lower case, with the names it
    has stored; SQLite compares names without regard to the case of
    letters, see [LiteDb] below.  Rows, privileges and transactions are
    outside the model. *)

Module RefDb.

Record IndexDef : Type := Idx {
  idx_table : string;
  idx_columns : list string;
  idx_unique : bool
}.

Record Schema : Type := Sch {
  tables : gmap string (list ColumnDef);
  indexes : gmap string IndexDef
}.

Definition has_column (name : string) (cols : list ColumnDef) : bool :=
  bool_decide (name ∈ col_name <$> cols).

Definition type_text (t : SqlType) : string :=
  match t with
  | SERIAL => "SERIAL"
  | INTEGER => "INTEGER"
  | BIGINT => "BIGINT"
  | VARCHAR _ => "VARCHAR"
  | TEXT => "TEXT"
  | TIMESTAMP => "TIMESTAMP"
  end.

Definition default_text (c : ColumnDef) : string :=
  match default_of c with
  | Some DNull => "NULL"
  | Some (DInt z) => if decide (z = 0%Z) then "0" else "?"
  | Some DCurrentTimestamp => "CURRENT_TIMESTAMP"
  | None => EmptyString
  end.

Definition flag_text (b : bool) : string := if b then "1" else "0".

(** One row of [PRAGMA table_info]: (cid, name, type, notnull,
    dflt_value, pk); the name is field 1.  The position [cid] is not
    used by the script and is left blank. *)
Definition table_info_row (c : ColumnDef) : Row :=
  [ EmptyString; col_name c; type_text (col_type c);
    flag_text (negb (is_nullable c)); default_text c;
    flag_text (is_primary_key c) ].

Definition table_info (cols : list ColumnDef) : Cursor :=
  table_info_row <$> cols.

Definition undefined (what : string) : Exn := MkExn UndefinedObject what.
Definition duplicate (what : string) : Exn := MkExn DuplicateObject what.

(** An object that is already there: silently accepted under
    [IF NOT EXISTS], an error otherwise. *)
Definition already (if_not_exists : bool) (what : string) : Exn + Cursor :=
  if if_not_exists then inr [] else inl (duplicate what).

(** Modelled from the spec: what one statement does to the catalog and
    what it returns.  An introspection of a missing table returns no
    rows; an addition needs its table and, without the guard, a fresh
    column name; a table or index that exists is accepted under the
    guard; an index needs its table and its member columns. *)
Definition execute (s : Stmt) (sch : Schema) : Schema * (Exn + Cursor) :=
  match s with
  | PRAGMA_table_info t =>
      (sch, inr (table_info (default [] (tables sch !! t))))
  | ALTER_TABLE_ADD_COLUMN ine t c =>
      match tables sch !! t with
      | None => (sch, inl (undefined ("no such table: " +:+ t)))
      | Some cols =>
          if has_column (col_name c) cols
          then (sch, already ine ("duplicate column name: " +:+ col_name c))
          else (Sch (<[t := cols ++ [c]]> (tables sch)) (indexes sch), inr [])
      end
  | CREATE_TABLE ine t cols =>
      match tables sch !! t with
      | Some _ => (sch, already ine ("table " +:+ t +:+ " already exists"))
      | None => (Sch (<[t := cols]> (tables sch)) (indexes sch), inr [])
      end
  | CREATE_INDEX uniq ine name t cols =>
      match tables sch !! t with
      | None => (sch, inl (undefined ("no such table: " +:+ t)))
      | Some tcols =>
          match indexes sch !! name with
          | Some _ => (sch, already ine ("index " +:+ name +:+ " already exists"))
          | None =>
              if forallb (fun c => has_column c tcols) cols
              then (Sch (tables sch) (<[name := Idx t cols uniq]> (indexes sch)), inr [])
              else (sch, inl (undefined ("no such column in table " +:+ t)))
          end
      end
  end.

Definition driver : Driver Schema :=
  {| drv_connect := fun sch => inr sch; drv_execute_sql := execute |}.

(** The schema left by one run of the script. *)
Definition run (cfg_db_backend : string) (sch : Schema) : Schema :=
  out_db (migrate driver cfg_db_backend sch).

(** The end-to-end starting point of the spec: tables [user] and
    [organization] without quota columns, no credential-key table. *)
Definition legacy : Schema :=
  Sch (<["user" := [Col "id" INTEGER [PRIMARY_KEY]; Col "username" TEXT [NOT_NULL]]]>
        (<["organization" := [Col "id" INTEGER [PRIMARY_KEY]; Col "name" TEXT [NOT_NULL]]]> ∅))
      ∅.

End RefDb.

(** ** The catalog of SQLite

    Modelled from the spec, as [RefDb] is, with the comparison of names
    that SQLite makes: the names of tables, indexes and columns are
    compared without regard to the case of ASCII letters, and tables
    and indexes share one name space.  The script's own test,
    ["<column>" not in existing_columns], compares the names that
    [PRAGMA table_info] returns exactly as they are spelled. *)

Definition lower_ascii (a : ascii) : ascii :=
  let n := nat_of_ascii a in
  if ((65 <=? n) && (n <=? 90))%nat then ascii_of_nat (n + 32) else a.

(** The name folded to lower case. *)
Fixpoint lower (s : string) : string :=
  match s with
  | EmptyString => EmptyString
  | String a s' => String (lower_ascii a) (lower s')
  end.

Module LiteDb.

Import RefDb.

(** The table has a column of this name, in whatever case. *)
Definition has_column (name : string) (cols : list ColumnDef) : bool :=
  bool_decide (lower name ∈ (fun c => lower (col_name c)) <$> cols).

(** What one statement does to the catalog and what it returns.  The
    tables and indexes of the schema are keyed by their folded names.
    An addition of a column that the table has, in whatever case, is
    refused as a duplicate; a table is not created under the name of an
    index, nor an index under the name of a table, whether or not the
    statement carries [IF NOT EXISTS]. *)
Definition execute (s : Stmt) (sch : Schema) : Schema * (Exn + Cursor) :=
  match s with
  | PRAGMA_table_info t =>
      (sch, inr (table_info (default [] (tables sch !! lower t))))
  | ALTER_TABLE_ADD_COLUMN ine t c =>
      match tables sch !! lower t with
      | None => (sch, inl (undefined ("no such table: " +:+ t)))
      | Some cols =>
          if has_column (col_name c) cols
          then (sch, already ine ("duplicate column name: " +:+ col_name c))
          else (Sch (<[lower t := cols ++ [c]]> (tables sch)) (indexes sch), inr [])
      end
  | CREATE_TABLE ine t cols =>
      match tables sch !! lower t with
      | Some _ => (sch, already ine ("table " +:+ t +:+ " already exists"))
      | None =>
          match indexes sch !! lower t with
          | Some _ => (sch, inl (duplicate ("there is already an index named " +:+ t)))
          | None => (Sch (<[lower t := cols]> (tables sch)) (indexes sch), inr [])
          end
      end
  | CREATE_INDEX uniq ine name t cols =>
      match tables sch !! lower t with
      | None => (sch, inl (undefined ("no such table: " +:+ t)))
      | Some tcols =>
          match tables sch !! lower name with
          | Some _ =>
              (sch, inl (duplicate ("there is already a table named " +:+ name)))
          | None =>
              match indexes sch !! lower name with
              | Some _ => (sch, already ine ("index " +:+ name +:+ " already exists"))
              | None =>
                  if forallb (fun c => has_column c tcols) cols
                  then (Sch (tables sch)
                          (<[lower name := Idx (lower t) cols uniq]> (indexes sch)),
                        inr [])
                  else (sch, inl (undefined ("no such column in table " +:+ t)))
              end
          end
      end
  end.

Definition driver : Driver Schema :=
  {| drv_connect := fun sch => inr sch; drv_execute_sql := execute |}.

(** The schema left by one run of the script. *)
Definition run (cfg_db_backend : string) (sch : Schema) : Schema :=
  out_db (migrate driver cfg_db_backend sch).

(** A [user] table on which a quota column was created elsewhere, in
    upper case. *)
Definition upper_case : Schema :=
  Sch (<["user" := [Col "id" INTEGER [PRIMARY_KEY];
                    Col "PRIVATE_QUOTA_BYTES" INTEGER [DEFAULT DNull]]]>
        (<["organization" := [Col "id" INTEGER [PRIMARY_KEY]]]> ∅))
      ∅.

End LiteDb.

(** The catalog behind a backend value: PostgreSQL for ["postgres"],
    SQLite for every other value. *)
Definition engine (cfg_db_backend : string) : Driver RefDb.Schema :=
  if String.eqb cfg_db_backend "postgres" then RefDb.driver else LiteDb.driver.

(** ** [move_defs_to_end] of the JSON-schema export script *)

Module JsonSchema.

Section Dict.

(** The values of the schema dictionary (JSON values) play no role
    in [move_defs_to_end]. *)
Context {V : Type}.

(** A Python [dict]: its items in insertion order.  The keys of a
    dictionary are pairwise distinct ([dict_wf]).  The script updates
    its argument in place and returns that same object; the functions
    below return the dictionary after the update. *)
Definition dict : Type := list (string * V).

Definition dict_wf (d : dict) : Prop := NoDup d.*1.

(** [k in d] *)
Definition contains (k : string) (d : dict) : bool :=
  bool_decide (k ∈ d.*1).

(** [d[k]], [None] for [KeyError] *)
Fixpoint getitem (k : string) (d : dict) : option V :=
  match d with
  | [] => None
  | (k', v) :: d' => if decide (k' = k) then Some v else getitem k d'
  end.

(** [d.pop(k)]: the value and the dictionary without the item;
    [None] for [KeyError]. *)
Fixpoint pop (k : string) (d : dict) : option (V * dict) :=
  match d with
  | [] => None
  | (k', v) :: d' =>
      if decide (k' = k) then Some (v, d')
      else '(x, d'') ← pop k d'; Some (x, (k', v) :: d'')
  end.

(** [d[k] = v]: an existing key keeps its position, a new key goes
    to the end. *)
Fixpoint setitem (k : string) (v : V) (d : dict) : dict :=
  match d with
  | [] => [(k, v)]
  | (k', v') :: d' =>
      if decide (k' = k) then (k, v) :: d' else (k', v') :: setitem k v d'
  end.

Definition move_defs_to_end (schema : dict) : option dict :=
  if contains "$defs" schema then
    '(defs, schema) ← pop "$defs" schema;
    Some (setitem "$defs" defs schema)
  else Some schema.

End Dict.

Arguments dict V : clear implicits.

End JsonSchema.

(** ** Misbehaving databases *)

(** A database on which every statement is refused. *)
Definition denied : Exn := MkExn OtherFailure "permission denied".

Definition hostile : Driver unit :=
  {| drv_connect := fun db => inr db;
     drv_execute_sql := fun _ db => (db, inl denied) |}.

(** The reference catalog, except that the statements selected by
    [bad] are refused. *)
Definition failing_on (bad : Stmt -> bool) : Driver RefDb.Schema :=
  {| drv_connect := fun sch => inr sch;
     drv_execute_sql := fun s sch =>
       if bad s then (sch, inl denied) else RefDb.execute s sch |}.

(** ** Observations on a run *)

(** The statements passed to [db.execute_sql], with their outcomes. *)
Definition sql_events (evs : list Event) : list (Stmt * (Exn + Cursor)) :=
  omap (fun ev => match ev with EvSql s r => Some (s, r) | _ => None end) evs.

Definition sql_trace (evs : list Event) : list Stmt := (sql_events evs).*1.

(** Executing statements one after the other, whatever their outcome. *)
Definition exec_all {DB} (drv : Driver DB) (stmts : list Stmt) (db : DB) : DB :=
  foldl (fun d s => (drv_execute_sql drv s d).1) db stmts.

(** The outcomes of [stmts] when executed one after the other. *)
Fixpoint exec_results {DB} (drv : Driver DB) (stmts : list Stmt) (db : DB)
    : list (Exn + Cursor) :=
  match stmts with
  | [] => []
  | s :: stmts' =>
      let (db', r) := drv_execute_sql drv s db in r :: exec_results drv stmts' db'
  end.

Definition is_introspection (s : Stmt) : bool :=
  match s with PRAGMA_table_info _ => true | _ => false end.

Definition is_create (s : Stmt) : bool :=
  match s with CREATE_TABLE _ _ _ | CREATE_INDEX _ _ _ _ _ => true | _ => false end.

(** The column definitions of the [ALTER TABLE table ADD COLUMN]
    statements in a statement list. *)
Definition columns_added (table : string) (stmts : list Stmt) : list ColumnDef :=
  omap (fun s => match s with
                 | ALTER_TABLE_ADD_COLUMN _ t c =>
                     if decide (t = table) then Some c else None
                 | _ => None
                 end) stmts.

(** The final event of a successful run of [migrate]. *)
Definition completed : Event := EvLog Success "Migration completed successfully!".

(** Every failed statement is directly followed by a warning that
    carries the text of its exception, every successful one by a
    success message. *)
Fixpoint logged (evs : list Event) : Prop :=
  match evs with
  | [] => True
  | ev :: evs' =>
      match ev with
      | EvSql _ (inl e) =>
          match evs' with
          | EvLog Warning msg :: _ => exists might, msg = might +:+ ": " +:+ exn_text e
          | _ => False
          end
      | EvSql _ (inr _) =>
          match evs' with
          | EvLog Success _ :: _ => True
          | _ => False
          end
      | _ => True
      end /\ logged evs'
  end.

(** ** The guarded strategy as a list of blocks *)

Inductive PgStep : Type :=
| PgInfo (msg : string)
| PgTry (stmt : Stmt) (done might : string).

Definition run_pg_step {DB} (drv : Driver DB) (s : PgStep) : M DB unit :=
  match s with
  | PgInfo msg => logger Info msg
  | PgTry stmt done might => try_execute drv stmt done might
  end.

Fixpoint run_pg_plan {DB} (drv : Driver DB) (plan : list PgStep) : M DB unit :=
  match plan with
  | [] => ret tt
  | s :: plan' => run_pg_step drv s ;; run_pg_plan drv plan'
  end.

Definition pg_stmts (plan : list PgStep) : list Stmt :=
  omap (fun s => match s with PgTry stmt _ _ => Some stmt | PgInfo _ => None end) plan.

(** The blocks of [migrate_postgres], in program order. *)
Definition pg_plan : list PgStep :=
  [ PgInfo "Adding quota columns to User table...";
    PgTry (ALTER_TABLE_ADD_COLUMN true "user" pg_private_quota_bytes)
      "Added private_quota_bytes to User"
      "Column private_quota_bytes might already exist";
    PgTry (ALTER_TABLE_ADD_COLUMN true "user" pg_public_quota_bytes)
      "Added public_quota_bytes to User"
      "Column public_quota_bytes might already exist";
    PgTry (ALTER_TABLE_ADD_COLUMN true "user" pg_private_used_bytes)
      "Added private_used_bytes to User"
      "Column private_used_bytes might already exist";
    PgTry (ALTER_TABLE_ADD_COLUMN true "user" pg_public_used_bytes)
      "Added public_used_bytes to User"
      "Column public_used_bytes might already exist";
    PgInfo "Adding quota columns to Organization table...";
    PgTry (ALTER_TABLE_ADD_COLUMN true "organization" pg_private_quota_bytes)
      "Added private_quota_bytes to Organization"
      "Column private_quota_bytes might already exist";
    PgTry (ALTER_TABLE_ADD_COLUMN true "organization" pg_public_quota_bytes)
      "Added public_quota_bytes to Organization"
      "Column public_quota_bytes might already exist";
    PgTry (ALTER_TABLE_ADD_COLUMN true "organization" pg_private_used_bytes)
      "Added private_used_bytes to Organization"
      "Column private_used_bytes might already exist";
    PgTry (ALTER_TABLE_ADD_COLUMN true "organization" pg_public_used_bytes)
      "Added public_used_bytes to Organization"
      "Column public_used_bytes might already exist";
    PgInfo "Creating SSHKey table...";
    PgTry (CREATE_TABLE true "sshkey" pg_sshkey_columns)
      "Created SSHKey table"
      "SSHKey table might already exist";
    PgTry (CREATE_INDEX false true "sshkey_user_id" "sshkey" ["user_id"])
      "Created index on sshkey.user_id"
      "Index might already exist";
    PgTry (CREATE_INDEX false true "sshkey_fingerprint" "sshkey" ["fingerprint"])
      "Created index on sshkey.fingerprint"
      "Index might already exist";
    PgTry (CREATE_INDEX true true "sshkey_user_fingerprint" "sshkey"
             ["user_id"; "fingerprint"])
      "Created unique index on sshkey(user_id, fingerprint)"
      "Index might already exist" ].

(** The events of a list of blocks, in closed form. *)
Fixpoint pg_plan_events {DB} (drv : Driver DB) (plan : list PgStep) (db : DB)
    : list Event :=
  match plan with
  | [] => []
  | PgInfo msg :: plan' => EvLog Info msg :: pg_plan_events drv plan' db
  | PgTry stmt ok_msg might :: plan' =>
      let (db', r) := drv_execute_sql drv stmt db in
      EvSql stmt r
      :: match r with
         | inl e => EvLog Warning (might +:+ ": " +:+ exn_text e)
         | inr _ => EvLog Success ok_msg
         end
      :: pg_plan_events drv plan' db'
  end.

(** ** The unguarded column sections as a list of blocks *)

Fixpoint add_all {DB} (drv : Driver DB) (existing_columns : gset string)
    (table : string) (adds : list (ColumnDef * string * string)) : M DB unit :=
  match adds with
  | [] => ret tt
  | (c, adding, added) :: adds' =>
      add_if_missing drv existing_columns table c adding added ;;
      add_all drv existing_columns table adds'
  end.

Definition check_and_add {DB} (drv : Driver DB) (checking table : string)
    (adds : list (ColumnDef * string * string)) : M DB unit :=
  logger Info checking ;;
  cursor <- execute_sql drv (PRAGMA_table_info table) ;;
  existing_columns <- fetch_existing_columns cursor ;;
  add_all drv existing_columns table adds.

(** The blocks of section 1 of [migrate_sqlite], in program order. *)
Definition lite_user_adds : list (ColumnDef * string * string) :=
  [ (lite_private_quota_bytes,
     "Adding private_quota_bytes to User...", "Added private_quota_bytes");
    (lite_public_quota_bytes,
     "Adding public_quota_bytes to User...", "Added public_quota_bytes");
    (lite_private_used_bytes,
     "Adding private_used_bytes to User...", "Added private_used_bytes");
    (lite_public_used_bytes,
     "Adding public_used_bytes to User...", "Added public_used_bytes") ].

(** The blocks of section 2 of [migrate_sqlite], in program order. *)
Definition lite_organization_adds : list (ColumnDef * string * string) :=
  [ (lite_private_quota_bytes,
     "Adding private_quota_bytes to Organization...", "Added private_quota_bytes");
    (lite_public_quota_bytes,
     "Adding public_quota_bytes to Organization...", "Added public_quota_bytes");
    (lite_private_used_bytes,
     "Adding private_used_bytes to Organization...", "Added private_used_bytes");
    (lite_public_used_bytes,
     "Adding public_used_bytes to Organization...", "Added public_used_bytes") ].

(** ** Properties of event lists *)

(** The exception a result carries, if any. *)
Definition raised {A} (r : Exn + A) : option Exn :=
  match r with inl e => Some e | inr _ => None end.

(** A failed statement ends the run: it is the last event and its
    exception is the run's. *)
Fixpoint strict (evs : list Event) (r : option Exn) : Prop :=
  match evs with
  | [] => True
  | EvSql _ (inl e) :: evs' => evs' = [] /\ r = Some e
  | _ :: evs' => strict evs' r
  end.

(** The events are a faithful account: from [db], each recorded call
    had the recorded outcome on the state its predecessors left, and
    [db'] is the state after the last of them. *)
Fixpoint consistent {DB} (drv : Driver DB) (db : DB) (evs : list Event) (db' : DB)
    : Prop :=
  match evs with
  | [] => db' = db
  | EvSql s r :: evs' =>
      exists db1, drv_execute_sql drv s db = (db1, r) /\ consistent drv db1 evs' db'
  | EvConnect None :: evs' =>
      exists db1, drv_connect drv db = inr db1 /\ consistent drv db1 evs' db'
  | EvConnect (Some e) :: evs' =>
      drv_connect drv db = inl e /\ consistent drv db evs' db'
  | _ :: evs' => consistent drv db evs' db'
  end.

(** Every column addition comes after a successful introspection of
    its table that did not report the column. *)
Definition checked_first (evs : list Event) : Prop :=
  forall pre ine t c r post,
    evs = pre ++ EvSql (ALTER_TABLE_ADD_COLUMN ine t c) r :: post ->
    exists pre1 rows names pre2,
      pre = pre1 ++ EvSql (PRAGMA_table_info t) (inr rows) :: pre2 /\
      row_names rows = Some names /\
      col_name c ∉ names.

(** No column addition occurs. *)
Definition columns_free (evs : list Event) : Prop :=
  Forall (fun ev => match ev with
                    | EvSql (ALTER_TABLE_ADD_COLUMN _ _ _) _ => False
                    | _ => True
                    end) evs.

(** The events a column block may produce for [table], given the
    introspected column set. *)
Definition add_event (existing_columns : gset string) (table : string)
    (specs : list ColumnDef) (ev : Event) : Prop :=
  match ev with
  | EvLog _ _ => True
  | EvSql (ALTER_TABLE_ADD_COLUMN ine t c) _ =>
      ine = false /\ t = table /\ c ∈ specs /\ col_name c ∉ existing_columns
  | _ => False
  end.

(** The column definitions of a list of column blocks. *)
Definition specs_of (adds : list (ColumnDef * string * string)) : list ColumnDef :=
  (fun a => a.1.1) <$> adds.

(** The events a column section for [table] may produce. *)
Definition section_event (table : string) (specs : list ColumnDef) (ev : Event)
    : Prop :=
  match ev with
  | EvLog _ _ => True
  | EvSql (PRAGMA_table_info t) _ => t = table
  | EvSql (ALTER_TABLE_ADD_COLUMN ine t c) _ => ine = false /\ t = table /\ c ∈ specs
  | _ => False
  end.

(** The quota columns of the unguarded strategy. *)
Definition lite_quota_columns : list ColumnDef :=
  [ lite_private_quota_bytes; lite_public_quota_bytes;
    lite_private_used_bytes; lite_public_used_bytes ].

(** The quota columns of the guarded strategy. *)
Definition pg_quota_columns : list ColumnDef :=
  [ pg_private_quota_bytes; pg_public_quota_bytes;
    pg_private_used_bytes; pg_public_used_bytes ].

(** The table and index statements of the two strategies. *)
Definition sshkey_indexes : list Stmt :=
  [ CREATE_INDEX false true "sshkey_user_id" "sshkey" ["user_id"];
    CREATE_INDEX false true "sshkey_fingerprint" "sshkey" ["fingerprint"];
    CREATE_INDEX true true "sshkey_user_fingerprint" "sshkey" ["user_id"; "fingerprint"] ].

(** ** The orchestrator's steps *)

Inductive Strategy : Type := Guarded | Unguarded.

Inductive Step : Type :=
| Connect
| ReadBackend
| Select (s : Strategy)
| Columns (table : string)
| TableAndIndexes
| Finish.

#[global] Instance Strategy_eq_dec : EqDecision Strategy.
Proof. solve_decision. Defined.
#[global] Instance Step_eq_dec : EqDecision Step.
Proof. solve_decision. Defined.

(** The step an event belongs to; the progress messages of the
    individual statements belong to none. *)
Definition step_of (ev : Event) : option Step :=
  match ev with
  | EvConnect _ => Some Connect
  | EvReadBackend _ => Some ReadBackend
  | EvLog Info msg =>
      if decide (msg = "Detected PostgreSQL database") then Some (Select Guarded)
      else if decide (msg = "Detected SQLite database") then Some (Select Unguarded)
      else None
  | EvLog Success msg =>
      if decide (msg = "Migration completed successfully!") then Some Finish else None
  | EvLog Warning _ => None
  | EvSql (PRAGMA_table_info t) _ => Some (Columns t)
  | EvSql (ALTER_TABLE_ADD_COLUMN _ t _) _ => Some (Columns t)
  | EvSql (CREATE_TABLE _ _ _) _ => Some TableAndIndexes
  | EvSql (CREATE_INDEX _ _ _ _ _) _ => Some TableAndIndexes
  end.

Definition steps (evs : list Event) : list Step := omap step_of evs.

(** Runs of equal neighbours collapsed to one. *)
Fixpoint squash (l : list Step) : list Step :=
  match l with
  | [] => []
  | x :: l' =>
      match l' with
      | y :: _ => if decide (x = y) then squash l' else x :: squash l'
      | [] => [x]
      end
  end.

Definition strategy_of (cfg_db_backend : string) : Strategy :=
  if String.eqb cfg_db_backend "postgres" then Guarded else Unguarded.

(** The steps of the orchestrator, in the order of spec section 4.4. *)
Definition orchestration (s : Strategy) : list Step :=
  [ Connect; ReadBackend; Select s;
    Columns "user"; Columns "organization"; TableAndIndexes; Finish ].

(** The messages of the blocks are progress messages only. *)
Definition plain_message (l : Level) (msg : string) : Prop :=
  step_of (EvLog l msg) = None.

Definition plain_adds (adds : list (ColumnDef * string * string)) : Prop :=
  Forall (fun a => plain_message Info a.1.2 /\ plain_message Success a.2) adds.

Definition plain_plan (plan : list PgStep) : Prop :=
  Forall (fun s => match s with
                   | PgInfo msg => plain_message Info msg
                   | PgTry _ ok_msg _ => plain_message Success ok_msg
                   end) plan.

(** The steps of the statements of a list of blocks. *)
Definition pg_steps (plan : list PgStep) : list Step :=
  omap (fun s => match s with
                 | PgTry stmt _ _ => step_of (EvSql stmt (inr []))
                 | PgInfo _ => None
                 end) plan.

(** A step list given as runs: [(s, k)] stands for [k + 1] times [s]. *)
Definition blocks (bs : list (Step * nat)) : list Step :=
  concat ((fun b => replicate (S b.2) b.1) <$> bs).

Fixpoint adjacent_distinct (l : list Step) : Prop :=
  match l with
  | x :: l' =>
      match l' with
      | y :: _ => x <> y /\ adjacent_distinct l'
      | [] => True
      end
  | [] => True
  end.

(** The twelve statements of [migrate_postgres], in program order. *)
Definition pg_statements : list Stmt :=
  [ ALTER_TABLE_ADD_COLUMN true "user" pg_private_quota_bytes;
    ALTER_TABLE_ADD_COLUMN true "user" pg_public_quota_bytes;
    ALTER_TABLE_ADD_COLUMN true "user" pg_private_used_bytes;
    ALTER_TABLE_ADD_COLUMN true "user" pg_public_used_bytes;
    ALTER_TABLE_ADD_COLUMN true "organization" pg_private_quota_bytes;
    ALTER_TABLE_ADD_COLUMN true "organization" pg_public_quota_bytes;
    ALTER_TABLE_ADD_COLUMN true "organization" pg_private_used_bytes;
    ALTER_TABLE_ADD_COLUMN true "organization" pg_public_used_bytes;
    CREATE_TABLE true "sshkey" pg_sshkey_columns;
    CREATE_INDEX false true "sshkey_user_id" "sshkey" ["user_id"];
    CREATE_INDEX false true "sshkey_fingerprint" "sshkey" ["fingerprint"];
    CREATE_INDEX true true "sshkey_user_fingerprint" "sshkey" ["user_id"; "fingerprint"] ].

(** The orchestrator with the unguarded strategy chosen. *)
Definition migrate_unguarded {DB} (drv : Driver DB) (cfg_db_backend : string)
    : M DB unit :=
  connect drv ;;
  logger Info "Starting database migration..." ;;
  _ <- read_db_backend cfg_db_backend ;;
  (logger Info "Detected SQLite database" ;;
   migrate_sqlite drv) ;;
  logger Success "Migration completed successfully!".

(** ** The shape of the credential-key table *)

(** The column list of the credential-key table as the spec describes
    it: a generated primary key, the owner reference, the key type, the
    full public key, the unique fingerprint, the title, the nullable
    last-used timestamp and the creation timestamp defaulting to the
    current time. *)
Definition sshkey_shape (cols : list ColumnDef) : bool :=
  match cols with
  | [id; user_id; key_type; public_key; fingerprint; title; last_used; created_at] =>
      (is_generated id && is_primary_key id)
      && (bool_decide (col_name user_id = "user_id")
          && bool_decide (col_type user_id = INTEGER) && negb (is_nullable user_id))
      && (bool_decide (col_name key_type = "key_type")
          && is_string_type (col_type key_type))
      && (bool_decide (col_name public_key = "public_key")
          && bool_decide (col_type public_key = TEXT))
      && (bool_decide (col_name fingerprint = "fingerprint")
          && is_string_type (col_type fingerprint) && is_unique fingerprint)
      && (bool_decide (col_name title = "title") && is_string_type (col_type title))
      && (bool_decide (col_name last_used = "last_used")
          && bool_decide (col_type last_used = TIMESTAMP) && is_nullable last_used)
      && (bool_decide (col_name created_at = "created_at")
          && bool_decide (col_type created_at = TIMESTAMP)
          && bool_decide (default_of created_at = Some DCurrentTimestamp))
  | _ => false
  end.

(** What an index statement ensures: uniqueness, table, member columns. *)
Definition index_spec (s : Stmt) : option (bool * string * list string) :=
  match s with
  | CREATE_INDEX unique _ _ table cols => Some (unique, table, cols)
  | _ => None
  end.

(** Name and default of a column specification. *)
Definition name_and_default (c : ColumnDef) : string * option DefaultExpr :=
  (col_name c, default_of c).

(** ** Statements on the reference catalog *)

(** The schema after one statement. *)
Definition step (s : Stmt) (sch : RefDb.Schema) : RefDb.Schema :=
  (RefDb.execute s sch).1.

(** The statement leaves the schema as it is. *)
Definition inert (s : Stmt) (sch : RefDb.Schema) : Prop := step s sch = sch.

(** The statement creates table [t]. *)
Definition creates (t : string) (s : Stmt) : bool :=
  match s with
  | CREATE_TABLE _ t' _ => bool_decide (t' = t)
  | _ => false
  end.

Definition is_index_stmt (s : Stmt) : bool :=
  match s with CREATE_INDEX _ _ _ _ _ => true | _ => false end.

(** What must hold of the statements [post] that follow [s] for [s] to
    be settled once they have all run: after an addition to [t] no
    statement creates [t], and after an index statement only index
    statements follow. *)
Definition settled_by (s : Stmt) (post : list Stmt) : Prop :=
  match s with
  | ALTER_TABLE_ADD_COLUMN _ t _ => Forall (fun s' => creates t s' = false) post
  | CREATE_INDEX _ _ _ _ _ => Forall is_index_stmt post
  | _ => True
  end.

Fixpoint ordered (l : list Stmt) : Prop :=
  match l with
  | [] => True
  | s :: post => settled_by s post /\ ordered post
  end.

(** The statement carries the [IF NOT EXISTS] guard (an introspection
    query needs none). *)
Definition guarded_stmt (s : Stmt) : bool :=
  match s with
  | PRAGMA_table_info _ => true
  | ALTER_TABLE_ADD_COLUMN ine _ _ => ine
  | CREATE_TABLE ine _ _ => ine
  | CREATE_INDEX _ ine _ _ _ => ine
  end.

Definition is_duplicate_error (r : Exn + Cursor) : Prop :=
  exists e, r = inl e /\ exn_kind e = DuplicateObject.

(** Every statement of the events, executed on [sch], has the recorded
    outcome, leaves [sch] unchanged and does not fail on an object that
    already exists. *)
Definition quiet (sch : RefDb.Schema) (evs : list Event) : Prop :=
  forall s r, (s, r) ∈ sql_events evs ->
    RefDb.execute s sch = (sch, r) /\ ~ is_duplicate_error r.

(** Executing statements one after the other up to the first failure:
    the statements executed, with their outcomes, and the final state. *)
Fixpoint strict_exec {DB} (drv : Driver DB) (stmts : list Stmt) (db : DB)
    : list (Stmt * (Exn + Cursor)) * DB :=
  match stmts with
  | [] => ([], db)
  | s :: stmts' =>
      let (db', r) := drv_execute_sql drv s db in
      match r with
      | inl _ => ([(s, r)], db')
      | inr _ =>
          let (tr, db'') := strict_exec drv stmts' db' in ((s, r) :: tr, db'')
      end
  end.

(** The statements of section 3 of [migrate_sqlite]. *)
Definition lite_sshkey_statements : list Stmt :=
  CREATE_TABLE true "sshkey" lite_sshkey_columns :: sshkey_indexes.

(** The columns among [specs] that a table with columns [cols] lacks. *)
Definition missing_columns (specs cols : list ColumnDef) : list ColumnDef :=
  filter (fun c => RefDb.has_column (col_name c) cols = false) specs.

(** ** Further databases, for examples *)

(** A database that cannot be reached. *)
Definition unreachable_exn : Exn := MkExn ConnectionFailure "could not connect".

Definition unreachable : Driver unit :=
  {| drv_connect := fun _ => inl unreachable_exn;
     drv_execute_sql := fun _ db => (db, inr []) |}.

(** A database whose cursors hold rows of a single field. *)
Definition short_rows : Driver unit :=
  {| drv_connect := fun db => inr db;
     drv_execute_sql := fun _ db => (db, inr [["0"]]) |}.

(** ** Further properties of event lists and schemas *)

(** The exception of [row[1]] on a row that is too short. *)
Definition index_error : Exn := MkExn IndexError "tuple index out of range".

(** A successful introspection whose rows cannot be indexed at 1 ends
    the run with [IndexError]. *)
Definition short_row_fatal (evs : list Event) (r : option Exn) : Prop :=
  forall pre t rows post,
    evs = pre ++ EvSql (PRAGMA_table_info t) (inr rows) :: post ->
    row_names rows = None ->
    post = [] /\ r = Some index_error.

(** No introspection occurs. *)
Definition introspection_free (evs : list Event) : Prop :=
  Forall (fun ev => match ev with
                    | EvSql (PRAGMA_table_info _) _ => False
                    | _ => True
                    end) evs.



(** The additions of the quota columns to one table, as statements. *)
Definition additions (ine : bool) (t : string) (specs : list ColumnDef) : list Stmt :=
  ALTER_TABLE_ADD_COLUMN ine t <$> specs.

(** ** Schemas on which the two comparisons of names agree *)

(** The column names that the statements of the script test for. *)
Definition script_names : list string :=
  (col_name <$> lite_quota_columns) ++ ["user_id"; "fingerprint"].

Definition sshkey_index_names : list string :=
  ["sshkey_user_id"; "sshkey_fingerprint"; "sshkey_user_fingerprint"].

(** No column of the schema differs from a column name of the script
    in the case of letters only. *)
Definition spelled (sch : RefDb.Schema) : Prop :=
  forall t cols c n,
    RefDb.tables sch !! t = Some cols -> c ∈ cols -> n ∈ script_names ->
    lower (col_name c) = n -> col_name c = n.

(** The names of the tables and indexes are in lower case, as
    PostgreSQL stores a name that was not quoted and as the catalog of
    SQLite keys its objects. *)
Definition lower_keys (sch : RefDb.Schema) : Prop :=
  (forall t, is_Some (RefDb.tables sch !! t) -> lower t = t) /\
  (forall n, is_Some (RefDb.indexes sch !! n) -> lower n = n).

(** A plain schema: its columns are [spelled], no index has the name
    of the table that the script creates, no table has the name of an
    index that the script creates, and the names of its tables and
    indexes are in lower case. *)
Definition plain (sch : RefDb.Schema) : Prop :=
  spelled sch /\
  RefDb.indexes sch !! "sshkey" = None /\
  (forall n, n ∈ sshkey_index_names -> RefDb.tables sch !! n = None) /\
  lower_keys sch.

(** [plain], as a test. *)
Definition spelled_cols (cols : list ColumnDef) : bool :=
  forallb (fun c =>
    forallb (fun n => implb (bool_decide (lower (col_name c) = n))
                            (bool_decide (col_name c = n)))
            script_names) cols.

Definition plain_check (sch : RefDb.Schema) : bool :=
  forallb (fun tc => spelled_cols tc.2) (map_to_list (RefDb.tables sch))
  && bool_decide (RefDb.indexes sch !! "sshkey" = None)
  && forallb (fun n => bool_decide (RefDb.tables sch !! n = None)) sshkey_index_names
  && forallb (fun tc => bool_decide (lower tc.1 = tc.1)) (map_to_list (RefDb.tables sch))
  && forallb (fun nd => bool_decide (lower nd.1 = nd.1))
       (map_to_list (RefDb.indexes sch)).

(** The statements the script can issue, by their shape: names in lower
    case, columns among [script_names], the table [sshkey] and its
    three indexes. *)
Definition scripted (s : Stmt) : bool :=
  match s with
  | PRAGMA_table_info t => bool_decide (t ∈ ["user"; "organization"])
  | ALTER_TABLE_ADD_COLUMN _ t c =>
      bool_decide (t ∈ ["user"; "organization"])
      && bool_decide (col_name c ∈ script_names)
  | CREATE_TABLE _ t cols =>
      bool_decide (t = "sshkey")
      && forallb (fun c => bool_decide (lower (col_name c) = col_name c)) cols
  | CREATE_INDEX _ _ n t cs =>
      bool_decide (n ∈ sshkey_index_names) && bool_decide (t = "sshkey")
      && forallb (fun c => bool_decide (c ∈ script_names)) cs
  end.

Definition scripted_event (ev : Event) : Prop :=
  match ev with
  | EvSql s _ => scripted s = true
  | _ => True
  end.

(** Two pieces of the script run alike from every state in [Inv]: same
    events, same final state, same result; the final state is in [Inv]
    again, and the statements executed are [scripted]. *)
Definition agree {DB A} (Inv : DB -> Prop) (m1 m2 : M DB A) : Prop :=
  forall db, Inv db ->
    m1 db = m2 db /\ Inv (out_db (m2 db)) /\
    Forall scripted_event (out_events (m2 db)).

(** [quiet] on any catalog. *)
Definition quiet_on (drv : Driver RefDb.Schema) (sch : RefDb.Schema)
    (evs : list Event) : Prop :=
  forall s r, (s, r) ∈ sql_events evs ->
    drv_execute_sql drv s sch = (sch, r) /\ ~ is_duplicate_error r.


(** The catalog without table [t]. *)
Definition drop_table (t : string) (sch : RefDb.Schema) : RefDb.Schema :=
  RefDb.Sch (delete t (RefDb.tables sch)) (RefDb.indexes sch).




(** The items of a dictionary other than the one of key [k], in order. *)
Definition others {V} (k : string) (d : list (string * V)) : list (string * V) :=
  filter (fun kv => kv.1 <> k) d.

(** ** Properties of pieces of the script *)

(** [holds drv phi m]: from every database state, the events, final
    state and raised exception of [m] are related by [phi]. *)
Definition holds {DB A}
    (phi : DB -> list Event -> DB -> option Exn -> Prop) (m : M DB A) : Prop :=
  forall db, phi db (out_events (m db)) (out_db (m db)) (raised (out_result (m db))).

(** [phi] is kept by running one piece after another. *)
Definition sequential {DB}
    (phi : DB -> list Event -> DB -> option Exn -> Prop) : Prop :=
  forall db evs1 db1 evs2 db2 r,
    phi db evs1 db1 None -> phi db1 evs2 db2 r -> phi db (evs1 ++ evs2) db2 r.

(** * Properties *)

(** ** The effect combinators *)

Section Combinators.

Context {DB : Type}.

(** [bind] through the projections of its first outcome. *)
Lemma bind_unfold {A B} (m : M DB A) (k : A -> M DB B) db :
  bind m k db =
    match out_result (m db) with
    | inl e => Out (out_events (m db)) (out_db (m db)) (inl e)
    | inr a =>
        let o' := k a (out_db (m db)) in
        Out (out_events (m db) ++ out_events o') (out_db o') (out_result o')
    end.
Proof.
  unfold bind. destruct (m db) as [evs db1 [e|a]]; simpl; [done|].
  by destruct (k a db1).
Qed.

Lemma bind_ext {A B} (m : M DB A) (k k' : A -> M DB B) db :
  (forall a db', k a db' = k' a db') -> bind m k db = bind m k' db.
Proof.
  intros Hk. unfold bind. destruct (m db) as [evs db1 [e|a]]; [done|].
  by rewrite Hk.
Qed.

Lemma bind_ret_r (m : M DB unit) db : bind m (fun _ => ret tt) db = m db.
Proof.
  unfold bind, ret. destruct (m db) as [evs db' [e|[]]]; simpl; [done|].
  by rewrite app_nil_r.
Qed.

Lemma sql_events_app evs evs' :
  sql_events (evs ++ evs') = sql_events evs ++ sql_events evs'.
Proof. apply omap_app. Qed.

Lemma sql_events_log l msg evs : sql_events (EvLog l msg :: evs) = sql_events evs.
Proof. done. Qed.

Lemma sql_events_sql s r evs : sql_events (EvSql s r :: evs) = (s, r) :: sql_events evs.
Proof. done. Qed.

Lemma sql_trace_app evs evs' :
  sql_trace (evs ++ evs') = sql_trace evs ++ sql_trace evs'.
Proof. unfold sql_trace. by rewrite sql_events_app, fmap_app. Qed.

End Combinators.

(** ** The guarded strategy *)

Section Guarded.

Context {DB : Type} (drv : Driver DB).

Lemma migrate_postgres_plan db :
  migrate_postgres drv db = run_pg_plan drv pg_plan db.
Proof.
  unfold migrate_postgres, pg_plan. cbn [run_pg_plan run_pg_step].
  repeat (apply bind_ext; intros ? ?).
  symmetry. apply bind_ret_r.
Qed.

(** What one [try]/[except] block does, in closed form. *)
Lemma try_execute_eq stmt done might db :
  try_execute drv stmt done might db =
    let (db', r) := drv_execute_sql drv stmt db in
    Out [EvSql stmt r;
         match r with
         | inl e => EvLog Warning (might +:+ ": " +:+ exn_text e)
         | inr _ => EvLog Success done
         end] db' (inr tt).
Proof.
  unfold try_execute, try_except, bind, execute_sql, logger.
  by destruct (drv_execute_sql drv stmt db) as [db' [e|c]].
Qed.

Lemma run_pg_plan_result plan db :
  out_result (run_pg_plan drv plan db) = inr tt.
Proof.
  revert db. induction plan as [|[msg|stmt ok_msg might] plan IH]; intros db;
    [done| |]; cbn [run_pg_plan run_pg_step]; rewrite bind_unfold.
  - simpl. apply IH.
  - rewrite try_execute_eq. destruct (drv_execute_sql drv stmt db). simpl. apply IH.
Qed.

Lemma run_pg_plan_eq plan db :
  run_pg_plan drv plan db =
    Out (pg_plan_events drv plan db) (exec_all drv (pg_stmts plan) db) (inr tt).
Proof.
  revert db. induction plan as [|[msg|stmt ok_msg might] plan IH]; intros db;
    [done| |]; cbn [run_pg_plan run_pg_step pg_plan_events pg_stmts omap];
    rewrite bind_unfold.
  - simpl. by rewrite IH.
  - rewrite try_execute_eq. unfold exec_all. cbn [foldl].
    destruct (drv_execute_sql drv stmt db) as [db' r] eqn:E.
    simpl. by rewrite IH, ?E.
Qed.

Lemma pg_plan_sql_events plan db :
  sql_events (pg_plan_events drv plan db) =
    zip (pg_stmts plan) (exec_results drv (pg_stmts plan) db).
Proof.
  revert db. induction plan as [|[msg|stmt ok_msg might] plan IH]; intros db;
    [done| |]; cbn [pg_plan_events pg_stmts omap exec_results].
  - apply IH.
  - destruct (drv_execute_sql drv stmt db) as [db' r] eqn:E.
    destruct r; simpl; rewrite E; simpl; f_equal; apply IH.
Qed.

Lemma pg_plan_logged plan db : logged (pg_plan_events drv plan db).
Proof.
  revert db. induction plan as [|[msg|stmt ok_msg might] plan IH]; intros db;
    [done| |]; cbn [pg_plan_events].
  - split; [done | apply IH].
  - destruct (drv_execute_sql drv stmt db) as [db' [e|c]].
    + split; [by exists might|]. split; [done | apply IH].
    + split; [done|]. split; [done | apply IH].
Qed.

Lemma exec_results_length stmts db :
  length (exec_results drv stmts db) = length stmts.
Proof.
  revert db. induction stmts as [|s stmts IH]; intros db; [done|].
  simpl. destruct (drv_execute_sql drv s db). simpl. by rewrite IH.
Qed.

Lemma pg_plan_sql_trace plan db :
  sql_trace (pg_plan_events drv plan db) = pg_stmts plan.
Proof.
  unfold sql_trace. rewrite pg_plan_sql_events.
  apply fst_zip. by rewrite exec_results_length.
Qed.

End Guarded.

(** ** The unguarded strategy *)

Lemma app_eq_mid {A} (l1 l2 pre post : list A) (x : A) :
  l1 ++ l2 = pre ++ x :: post ->
  (exists post1, l1 = pre ++ x :: post1 /\ post = post1 ++ l2) \/
  (exists pre2, pre = l1 ++ pre2 /\ l2 = pre2 ++ x :: post).
Proof.
  revert pre. induction l1 as [|y l1 IH]; intros pre H.
  - right. by exists pre.
  - destruct pre as [|z pre]; simpl in H; injection H as -> H.
    + left. by exists l1.
    + destruct (IH _ H) as [(post1 & -> & ->)|(pre2 & -> & ->)].
      * left. by exists post1.
      * right. by exists pre2.
Qed.

Section Pieces.

Context {DB : Type} (drv : Driver DB).

Lemma holds_bind {A B} phi (m : M DB A) (k : A -> M DB B) :
  sequential phi -> holds phi m -> (forall a, holds phi (k a)) ->
  holds phi (bind m k).
Proof.
  intros Hseq Hm Hk db. specialize (Hm db). rewrite bind_unfold.
  destruct (out_result (m db)) as [e|a] eqn:E; simpl in *; [done|].
  eapply Hseq; [done | apply Hk].
Qed.

Lemma strict_app evs1 evs2 r :
  strict evs1 None -> strict evs2 r -> strict (evs1 ++ evs2) r.
Proof.
  intros H1 H2. induction evs1 as [|ev evs1 IH]; [done|].
  destruct ev as [| | |s [e|c]]; simpl in *; auto.
  by destruct H1.
Qed.

Lemma strict_sequential : sequential (fun (_ : DB) evs _ r => strict evs r).
Proof. intros ? ? ? ? ? ?. apply strict_app. Qed.

Lemma consistent_app db evs1 db1 evs2 db2 :
  consistent drv db evs1 db1 -> consistent drv db1 evs2 db2 ->
  consistent drv db (evs1 ++ evs2) db2.
Proof.
  revert db. induction evs1 as [|ev evs1 IH]; intros db H1 H2.
  - simpl in H1. by subst.
  - destruct ev as [[e|]| | |s r]; simpl in *.
    + destruct H1. split; [done|]. by apply IH.
    + destruct H1 as (d & ? & ?). exists d. split; [done|]. by apply IH.
    + by apply IH.
    + by apply IH.
    + destruct H1 as (d & ? & ?). exists d. split; [done|]. by apply IH.
Qed.

Lemma consistent_sequential :
  sequential (fun db evs db' (_ : option Exn) => consistent drv db evs db').
Proof. intros ? ? ? ? ? ?. apply consistent_app. Qed.

Lemma checked_first_app evs1 evs2 :
  checked_first evs1 -> checked_first evs2 -> checked_first (evs1 ++ evs2).
Proof.
  intros H1 H2 pre ine t c r post Heq.
  apply app_eq_mid in Heq as [(post1 & Heq & _)|(pre2 & -> & Heq)].
  - by eapply H1.
  - destruct (H2 _ _ _ _ _ _ Heq) as (pre1 & rows & names & pre3 & -> & ? & ?).
    exists (evs1 ++ pre1), rows, names, pre3. by rewrite <- app_assoc.
Qed.

Lemma checked_first_sequential :
  sequential (fun (_ : DB) evs _ (_ : option Exn) => checked_first evs).
Proof. intros ? ? ? ? ? ? ?. by apply checked_first_app. Qed.

(** A list without column additions. *)
Lemma checked_first_none evs :
  columns_free evs -> checked_first evs.
Proof.
  intros Hfree pre ine t c r post ->.
  apply Forall_app in Hfree as [_ Hfree]. by inversion Hfree.
Qed.

End Pieces.

Section Unguarded.

Context {DB : Type} (drv : Driver DB).

(** What one [if ... not in existing_columns] block does, in closed
    form. *)
Lemma add_if_missing_eq E t c adding added db :
  add_if_missing drv E t c adding added db =
    if decide (col_name c ∉ E) then
      let (db', r) := drv_execute_sql drv (ALTER_TABLE_ADD_COLUMN false t c) db in
      match r with
      | inl e =>
          Out [EvLog Info adding; EvSql (ALTER_TABLE_ADD_COLUMN false t c) (inl e)]
            db' (inl e)
      | inr rows =>
          Out [EvLog Info adding; EvSql (ALTER_TABLE_ADD_COLUMN false t c) (inr rows);
               EvLog Success added] db' (inr tt)
      end
    else Out [] db (inr tt).
Proof.
  unfold add_if_missing. case_decide; [|done].
  unfold bind, execute_sql, logger. simpl.
  by destruct (drv_execute_sql drv _ db) as [db' [e|rows]].
Qed.

Lemma add_if_missing_strict E t c adding added :
  holds (fun _ evs _ r => strict evs r) (add_if_missing drv E t c adding added).
Proof.
  intros db. rewrite add_if_missing_eq. case_decide; [|done].
  by destruct (drv_execute_sql drv _ db) as [db' [e|rows]].
Qed.

Lemma add_if_missing_consistent E t c adding added :
  holds (fun db evs db' _ => consistent drv db evs db')
    (add_if_missing drv E t c adding added).
Proof.
  intros db. rewrite add_if_missing_eq. case_decide; [|done].
  destruct (drv_execute_sql drv _ db) as [db' [e|rows]] eqn:E'; simpl; eauto.
Qed.

Lemma add_all_strict E t adds :
  holds (fun _ evs _ r => strict evs r) (add_all drv E t adds).
Proof.
  induction adds as [|[[c adding] added] adds IH]; [done|].
  cbn [add_all]. apply holds_bind; auto using strict_sequential.
  apply add_if_missing_strict.
Qed.

Lemma add_all_consistent E t adds :
  holds (fun db evs db' _ => consistent drv db evs db') (add_all drv E t adds).
Proof.
  induction adds as [|[[c adding] added] adds IH]; [done|].
  cbn [add_all]. apply holds_bind; auto using consistent_sequential.
  apply add_if_missing_consistent.
Qed.

Lemma add_all_events E t adds db :
  Forall (add_event E t (specs_of adds)) (out_events (add_all drv E t adds db)).
Proof.
  revert db. induction adds as [|[[c adding] added] adds IH]; intros db;
    [by constructor|].
  assert (Hmono : forall evs, Forall (add_event E t (specs_of adds)) evs ->
                   Forall (add_event E t (specs_of ((c, adding, added) :: adds))) evs).
  { intros evs H. eapply Forall_impl; [exact H|].
    intros [| | |[] ?]; simpl; try done.
    intros (? & ? & ? & ?). repeat split; try done. by right. }
  cbn [add_all]. rewrite bind_unfold, add_if_missing_eq. case_decide as Hin.
  - destruct (drv_execute_sql drv _ db) as [db' [e|rows]]; simpl.
    + repeat constructor; simpl; done.
    + repeat constructor; simpl; try done. by apply Hmono.
  - simpl. by apply Hmono.
Qed.

Lemma columns_added_app t l1 l2 :
  columns_added t (l1 ++ l2) = columns_added t l1 ++ columns_added t l2.
Proof. apply omap_app. Qed.

(** A run of column blocks that raises nothing has added exactly the
    columns that the introspection did not report. *)
Lemma add_all_columns E t adds db :
  out_result (add_all drv E t adds db) = inr tt ->
  columns_added t (sql_trace (out_events (add_all drv E t adds db))) =
    filter (fun c => col_name c ∉ E) (specs_of adds).
Proof.
  revert db. induction adds as [|[[c adding] added] adds IH]; intros db; [done|].
  cbn [add_all specs_of fmap list_fmap].
  rewrite bind_unfold, add_if_missing_eq, filter_cons. simpl. case_decide as Hin.
  - destruct (drv_execute_sql drv _ db) as [db' [e|rows]]; simpl; [done|].
    intros Hok. unfold sql_trace, columns_added. simpl.
    rewrite decide_True by done. f_equal. by apply IH.
  - simpl. apply IH.
Qed.

Lemma steps_cons ev evs :
  steps (ev :: evs) =
    match step_of ev with Some s => s :: steps evs | None => steps evs end.
Proof. done. Qed.

Lemma steps_app evs evs' : steps (evs ++ evs') = steps evs ++ steps evs'.
Proof. apply omap_app. Qed.

Lemma add_all_steps E t adds db :
  plain_adds adds ->
  exists k, steps (out_events (add_all drv E t adds db)) = replicate k (Columns t).
Proof.
  revert db. induction adds as [|[[c adding] added] adds IH]; intros db Hplain.
  - by exists 0%nat.
  - apply Forall_cons in Hplain as [[Ha Hb] Hplain]. simpl in Ha, Hb.
    unfold plain_message in *.
    cbn [add_all]. rewrite bind_unfold, add_if_missing_eq. case_decide as Hin.
    + destruct (drv_execute_sql drv _ db) as [db' [e|rows]]; cbn -[steps step_of].
      * exists 1%nat. by rewrite !steps_cons, Ha.
      * destruct (IH db' Hplain) as [k Hk]. exists (S k).
        by rewrite !steps_cons, Ha, Hb, Hk.
    + simpl. by apply IH.
Qed.

(** *** One column section *)

Lemma check_and_add_eq checking t adds db :
  check_and_add drv checking t adds db =
    let (db1, r) := drv_execute_sql drv (PRAGMA_table_info t) db in
    match r with
    | inl e => Out [EvLog Info checking; EvSql (PRAGMA_table_info t) (inl e)] db1 (inl e)
    | inr rows =>
        match row_names rows with
        | None =>
            Out [EvLog Info checking; EvSql (PRAGMA_table_info t) (inr rows)] db1
              (inl (MkExn IndexError "tuple index out of range"))
        | Some names =>
            let o := add_all drv (list_to_set names) t adds db1 in
            Out (EvLog Info checking :: EvSql (PRAGMA_table_info t) (inr rows)
                 :: out_events o) (out_db o) (out_result o)
        end
    end.
Proof.
  unfold check_and_add, bind, execute_sql, logger, fetch_existing_columns.
  simpl. destruct (drv_execute_sql drv _ db) as [db1 [e|rows]]; simpl; [done|].
  destruct (row_names rows) as [names|]; simpl; [|done].
  by destruct (add_all _ _ _ _ _) as [evs db2 [e|[]]].
Qed.

Lemma check_and_add_strict checking t adds :
  holds (fun _ evs _ r => strict evs r) (check_and_add drv checking t adds).
Proof.
  intros db. rewrite check_and_add_eq.
  destruct (drv_execute_sql drv _ db) as [db1 [e|rows]]; [done|].
  destruct (row_names rows) as [names|]; [|done].
  apply (add_all_strict _ t adds db1).
Qed.

Lemma check_and_add_consistent checking t adds :
  holds (fun db evs db' _ => consistent drv db evs db')
    (check_and_add drv checking t adds).
Proof.
  intros db. rewrite check_and_add_eq.
  destruct (drv_execute_sql drv _ db) as [db1 [e|rows]] eqn:E; simpl; [eauto|].
  destruct (row_names rows) as [names|]; simpl; [|eauto].
  exists db1. split; [done|]. apply (add_all_consistent _ t adds db1).
Qed.

Lemma check_and_add_events checking t adds db :
  Forall (section_event t (specs_of adds))
    (out_events (check_and_add drv checking t adds db)).
Proof.
  rewrite check_and_add_eq.
  destruct (drv_execute_sql drv _ db) as [db1 [e|rows]]; simpl;
    [by repeat constructor|].
  destruct (row_names rows) as [names|]; simpl; [|by repeat constructor].
  do 2 (constructor; [done|]).
  eapply Forall_impl; [apply add_all_events|].
  intros [| | |[] ?]; simpl; try done. intros (? & ? & ? & ?). auto.
Qed.

Lemma check_and_add_checked checking t adds :
  holds (fun _ evs _ _ => checked_first evs) (check_and_add drv checking t adds).
Proof.
  intros db. rewrite check_and_add_eq.
  destruct (drv_execute_sql drv _ db) as [db1 [e|rows]]; simpl;
    [apply checked_first_none; by repeat constructor|].
  destruct (row_names rows) as [names|] eqn:Hnames; simpl;
    [|apply checked_first_none; by repeat constructor].
  intros pre ine t' c r post Heq.
  destruct pre as [|ev1 [|ev2 pre]]; [done|done|].
  injection Heq as <- <- Heq.
  pose proof (add_all_events (list_to_set names) t adds db1) as Hall.
  rewrite Heq in Hall. apply Forall_app in Hall as [_ Hall].
  apply Forall_cons in Hall as [(_ & -> & _ & Hin) _].
  exists [EvLog Info checking], rows, names, pre. split; [done|].
  split; [done|]. by rewrite elem_of_list_to_set in Hin.
Qed.

Lemma check_and_add_steps checking t adds db :
  plain_message Info checking -> plain_adds adds ->
  exists k, steps (out_events (check_and_add drv checking t adds db))
            = replicate (S k) (Columns t).
Proof.
  intros Hc Hadds. rewrite check_and_add_eq. unfold plain_message in Hc.
  destruct (drv_execute_sql drv _ db) as [db1 [e|rows]]; cbn -[steps step_of].
  { exists 0%nat. by rewrite !steps_cons, Hc. }
  destruct (row_names rows) as [names|]; cbn -[steps step_of].
  - destruct (add_all_steps (list_to_set names) t adds db1 Hadds) as [k Hk].
    exists k. by rewrite !steps_cons, Hc, Hk.
  - exists 0%nat. by rewrite !steps_cons, Hc.
Qed.

(** A column section that raises nothing has introspected its table
    and added exactly the columns the introspection did not report. *)
Lemma check_and_add_columns checking t adds db :
  out_result (check_and_add drv checking t adds db) = inr tt ->
  exists rows names,
    (PRAGMA_table_info t, inr rows)
      ∈ sql_events (out_events (check_and_add drv checking t adds db)) /\
    row_names rows = Some names /\
    columns_added t (sql_trace (out_events (check_and_add drv checking t adds db)))
      = filter (fun c => col_name c ∉ names) (specs_of adds).
Proof.
  rewrite check_and_add_eq.
  destruct (drv_execute_sql drv _ db) as [db1 [e|rows]]; simpl; [done|].
  destruct (row_names rows) as [names|] eqn:Hnames; simpl; [|done].
  intros Hok. exists rows, names. split; [by left|]. split; [done|].
  change (columns_added t (sql_trace (out_events
    (add_all drv (list_to_set names) t adds db1))) =
    filter (fun c => col_name c ∉ names) (specs_of adds)).
  rewrite add_all_columns by done.
  apply list_filter_iff. intros c. by rewrite elem_of_list_to_set.
Qed.

Lemma migrate_sqlite_user_eq db :
  migrate_sqlite_user drv db =
    check_and_add drv "Checking User table schema..." "user" lite_user_adds db.
Proof.
  unfold migrate_sqlite_user, check_and_add, lite_user_adds. cbn [add_all].
  repeat (apply bind_ext; intros ? ?).
  symmetry. apply bind_ret_r.
Qed.

Lemma migrate_sqlite_organization_eq db :
  migrate_sqlite_organization drv db =
    check_and_add drv "Checking Organization table schema..." "organization"
      lite_organization_adds db.
Proof.
  unfold migrate_sqlite_organization, check_and_add, lite_organization_adds.
  cbn [add_all].
  repeat (apply bind_ext; intros ? ?).
  symmetry. apply bind_ret_r.
Qed.

(** *** The table and index section *)

Ltac run_sql :=
  match goal with
  | |- context [drv_execute_sql drv ?s ?db] =>
      destruct (drv_execute_sql drv s db) as [? [?|?]] eqn:?
  end.

Lemma migrate_sqlite_sshkey_strict :
  holds (fun _ evs _ r => strict evs r) (migrate_sqlite_sshkey drv).
Proof.
  intros db. unfold migrate_sqlite_sshkey, bind, execute_sql, logger. simpl.
  repeat (run_sql; simpl; try done).
Qed.

Lemma migrate_sqlite_sshkey_consistent :
  holds (fun db evs db' _ => consistent drv db evs db') (migrate_sqlite_sshkey drv).
Proof.
  intros db. unfold migrate_sqlite_sshkey, bind, execute_sql, logger. simpl.
  repeat (run_sql; simpl; eauto 10).
Qed.

Lemma migrate_sqlite_sshkey_free db :
  columns_free (out_events (migrate_sqlite_sshkey drv db)).
Proof.
  unfold migrate_sqlite_sshkey, bind, execute_sql, logger. simpl.
  repeat (run_sql; simpl; try by repeat constructor).
Qed.

Lemma migrate_sqlite_sshkey_steps db :
  exists k, steps (out_events (migrate_sqlite_sshkey drv db))
            = replicate (S k) TableAndIndexes.
Proof.
  unfold migrate_sqlite_sshkey, bind, execute_sql, logger. simpl.
  run_sql; simpl; [by exists 0%nat|].
  run_sql; simpl; [by exists 1%nat|].
  run_sql; simpl; [by exists 2%nat|].
  run_sql; simpl; by exists 3%nat.
Qed.

(** The statements of the table and index section: all four when
    nothing is raised, otherwise those up to the failed one. *)
Lemma migrate_sqlite_sshkey_trace db :
  let o := migrate_sqlite_sshkey drv db in
  sql_trace (out_events o) `prefix_of`
    CREATE_TABLE true "sshkey" lite_sshkey_columns :: sshkey_indexes /\
  (out_result o = inr tt ->
   sql_trace (out_events o) =
     CREATE_TABLE true "sshkey" lite_sshkey_columns :: sshkey_indexes).
Proof.
  unfold migrate_sqlite_sshkey, bind, execute_sql, logger. simpl.
  repeat (run_sql; simpl;
          try (split; [by eexists | done])).
Qed.

(** *** [migrate_sqlite] *)

Lemma migrate_sqlite_strict :
  holds (fun _ evs _ r => strict evs r) (migrate_sqlite drv).
Proof.
  unfold migrate_sqlite.
  apply (holds_bind _ (migrate_sqlite_user drv)); [apply strict_sequential| |intros _].
  2: apply (holds_bind _ (migrate_sqlite_organization drv));
    [apply strict_sequential| |intros _].
  - intros db. rewrite migrate_sqlite_user_eq. apply check_and_add_strict.
  - intros db. rewrite migrate_sqlite_organization_eq. apply check_and_add_strict.
  - apply migrate_sqlite_sshkey_strict.
Qed.

Lemma migrate_sqlite_consistent :
  holds (fun db evs db' _ => consistent drv db evs db') (migrate_sqlite drv).
Proof.
  unfold migrate_sqlite.
  apply (holds_bind _ (migrate_sqlite_user drv)); [apply consistent_sequential| |intros _].
  2: apply (holds_bind _ (migrate_sqlite_organization drv));
    [apply consistent_sequential| |intros _].
  - intros db. rewrite migrate_sqlite_user_eq. apply check_and_add_consistent.
  - intros db. rewrite migrate_sqlite_organization_eq.
    apply check_and_add_consistent.
  - apply migrate_sqlite_sshkey_consistent.
Qed.

Lemma migrate_sqlite_checked :
  holds (fun _ evs _ _ => checked_first evs) (migrate_sqlite drv).
Proof.
  unfold migrate_sqlite.
  apply (holds_bind _ (migrate_sqlite_user drv)); [apply checked_first_sequential| |intros _].
  2: apply (holds_bind _ (migrate_sqlite_organization drv));
    [apply checked_first_sequential| |intros _].
  - intros db. rewrite migrate_sqlite_user_eq. apply check_and_add_checked.
  - intros db. rewrite migrate_sqlite_organization_eq.
    apply check_and_add_checked.
  - intros db. apply checked_first_none, migrate_sqlite_sshkey_free.
Qed.

Lemma migrate_sqlite_unfold db :
  migrate_sqlite drv db =
    let o1 := check_and_add drv "Checking User table schema..." "user"
                lite_user_adds db in
    match out_result o1 with
    | inl e => Out (out_events o1) (out_db o1) (inl e)
    | inr _ =>
        let o2 := check_and_add drv "Checking Organization table schema..."
                    "organization" lite_organization_adds (out_db o1) in
        match out_result o2 with
        | inl e => Out (out_events o1 ++ out_events o2) (out_db o2) (inl e)
        | inr _ =>
            let o3 := migrate_sqlite_sshkey drv (out_db o2) in
            Out (out_events o1 ++ out_events o2 ++ out_events o3)
              (out_db o3) (out_result o3)
        end
    end.
Proof.
  unfold migrate_sqlite. rewrite bind_unfold, migrate_sqlite_user_eq.
  destruct (check_and_add _ _ _ _ db) as [evs1 db1 [e|[]]]; simpl; [done|].
  rewrite bind_unfold, migrate_sqlite_organization_eq.
  by destruct (check_and_add _ _ _ _ db1) as [evs2 db2 [e|[]]].
Qed.

Lemma section_no_additions t t' specs evs :
  Forall (section_event t' specs) evs -> t' <> t ->
  columns_added t (sql_trace evs) = [].
Proof.
  intros Hall Hne. induction Hall as [|ev evs Hev _ IH]; [done|].
  destruct ev as [| | |[] r]; try done; simpl in Hev.
  unfold sql_trace, columns_added in *. simpl.
  destruct Hev as (_ & -> & _). by rewrite decide_False.
Qed.

Lemma section_no_creates t specs evs :
  Forall (section_event t specs) evs -> filter is_create (sql_trace evs) = [].
Proof.
  intros Hall. induction Hall as [|ev evs Hev _ IH]; [done|].
  by destruct ev as [| | |[] r].
Qed.

Lemma free_no_additions t evs :
  columns_free evs -> columns_added t (sql_trace evs) = [].
Proof.
  intros Hall. induction Hall as [|ev evs Hev _ IH]; [done|].
  by destruct ev as [| | |[] r].
Qed.

Lemma plain_lite_user_adds : plain_adds lite_user_adds.
Proof. by repeat constructor. Qed.

Lemma plain_lite_organization_adds : plain_adds lite_organization_adds.
Proof. by repeat constructor. Qed.

Lemma squash_replicate x k l :
  squash (replicate (S k) x ++ l) = squash (x :: l).
Proof.
  induction k as [|k IH]; [done|].
  change (replicate (S (S k)) x ++ l) with (x :: (replicate (S k) x ++ l)).
  rewrite <- IH. cbn [squash replicate app]. by rewrite decide_True.
Qed.

Lemma squash_replicate_end x k : squash (replicate (S k) x) = [x].
Proof.
  rewrite <- (app_nil_r (replicate (S k) x)). by rewrite squash_replicate.
Qed.

Lemma squash_cons_ne x y l : x <> y -> squash (x :: y :: l) = x :: squash (y :: l).
Proof. intros Hne. cbn [squash]. by rewrite decide_False. Qed.

Lemma squash_blocks bs :
  adjacent_distinct bs.*1 -> squash (blocks bs) = bs.*1.
Proof.
  induction bs as [|[x k] bs IH]; [done|]. intros Hadj.
  change (blocks ((x, k) :: bs)) with (replicate (S k) x ++ blocks bs).
  rewrite squash_replicate. destruct bs as [|[y k'] bs]; [done|].
  destruct Hadj as [Hne Hadj].
  change (blocks ((y, k') :: bs)) with (y :: (replicate k' y ++ blocks bs)).
  rewrite squash_cons_ne by done.
  change (y :: (replicate k' y ++ blocks bs)) with (blocks ((y, k') :: bs)).
  by rewrite IH.
Qed.

Lemma blocks_app bs bs' : blocks (bs ++ bs') = blocks bs ++ blocks bs'.
Proof. unfold blocks. by rewrite fmap_app, concat_app. Qed.

Lemma elem_of_blocks x bs : x ∈ blocks bs -> x ∈ bs.*1.
Proof.
  induction bs as [|[y k] bs IH]; [done|].
  change (blocks ((y, k) :: bs)) with (replicate (S k) y ++ blocks bs).
  rewrite elem_of_app. intros [Hin|Hin].
  - apply elem_of_replicate in Hin as [-> _]. by left.
  - right. by apply IH.
Qed.

(** The sections of [migrate_sqlite] come in order; all three are
    reached when nothing is raised. *)
Lemma migrate_sqlite_steps db :
  exists bs n,
    steps (out_events (migrate_sqlite drv db)) = blocks bs /\
    bs.*1 = take n [Columns "user"; Columns "organization"; TableAndIndexes] /\
    (1 <= n <= 3)%nat /\
    (out_result (migrate_sqlite drv db) = inr tt -> n = 3%nat).
Proof.
  rewrite migrate_sqlite_unfold.
  destruct (check_and_add_steps "Checking User table schema..." "user"
    lite_user_adds db eq_refl plain_lite_user_adds) as [k1 H1].
  destruct (check_and_add _ _ _ _ db) as [evs1 db1 [e|[]]];
    cbn [out_events out_result out_db] in *.
  { exists [(Columns "user", k1)], 1%nat. rewrite H1.
    split; [by rewrite <- (app_nil_r (replicate _ _))|]. repeat split; [lia..|done]. }
  destruct (check_and_add_steps "Checking Organization table schema..."
    "organization" lite_organization_adds db1 eq_refl
    plain_lite_organization_adds) as [k2 H2].
  destruct (check_and_add _ _ _ _ db1) as [evs2 db2 [e|[]]];
    cbn [out_events out_result out_db] in *.
  { exists [(Columns "user", k1); (Columns "organization", k2)], 2%nat.
    rewrite steps_app, H1, H2.
    split; [by rewrite <- (app_nil_r (replicate (S k2) _))|].
    repeat split; [lia..|done]. }
  destruct (migrate_sqlite_sshkey_steps db2) as [k3 H3].
  exists [(Columns "user", k1); (Columns "organization", k2);
          (TableAndIndexes, k3)], 3%nat.
  rewrite !steps_app, H1, H2, H3.
  split; [by rewrite <- (app_nil_r (replicate (S k3) _))|].
  repeat split; lia.
Qed.

End Unguarded.

(** ** The orchestrator *)

Section Orchestrator.

Context {DB : Type} (drv : Driver DB).

Lemma pg_stmts_pg_plan : pg_stmts pg_plan = pg_statements.
Proof. done. Qed.

Lemma migrate_postgres_eq db :
  migrate_postgres drv db =
    Out (pg_plan_events drv pg_plan db) (exec_all drv pg_statements db) (inr tt).
Proof. by rewrite migrate_postgres_plan, run_pg_plan_eq. Qed.

Lemma pg_plan_consistent plan db :
  consistent drv db (pg_plan_events drv plan db) (exec_all drv (pg_stmts plan) db).
Proof.
  revert db. induction plan as [|[msg|stmt ok_msg might] plan IH]; intros db;
    [done|apply IH|].
  cbn [pg_plan_events].
  change (exec_all drv (pg_stmts (PgTry stmt ok_msg might :: plan)) db)
    with (exec_all drv (pg_stmts plan) (drv_execute_sql drv stmt db).1).
  destruct (drv_execute_sql drv stmt db) as [db' r] eqn:E.
  exists db'. split; [done|]. destruct r; apply IH.
Qed.

Lemma pg_plan_steps plan db :
  plain_plan plan -> steps (pg_plan_events drv plan db) = pg_steps plan.
Proof.
  intros Hplain. revert db.
  induction Hplain as [|[msg|stmt ok_msg might] plan Hmsg _ IH]; intros db; [done| |].
  - cbn [pg_plan_events]. rewrite steps_cons. unfold plain_message in Hmsg.
    rewrite Hmsg. apply IH.
  - cbn [pg_plan_events]. unfold plain_message in Hmsg.
    destruct (drv_execute_sql drv stmt db) as [db' r].
    rewrite !steps_cons, IH. unfold pg_steps at 2. cbn [omap].
    destruct r as [e|c]; [|rewrite Hmsg]; by destruct stmt.
Qed.

Lemma plain_pg_plan : plain_plan pg_plan.
Proof. by repeat constructor. Qed.

(** [migrate] in terms of the outcome of the chosen strategy. *)
Lemma migrate_unfold b db :
  migrate drv b db =
    match drv_connect drv db with
    | inl e => Out [EvConnect (Some e)] db (inl e)
    | inr db1 =>
        let o := if String.eqb b "postgres" then migrate_postgres drv db1
                 else migrate_sqlite drv db1 in
        Out ([EvConnect None; EvLog Info "Starting database migration...";
              EvReadBackend b;
              EvLog Info (if String.eqb b "postgres"
                          then "Detected PostgreSQL database"
                          else "Detected SQLite database")]
             ++ out_events o
             ++ match out_result o with inr _ => [completed] | inl _ => [] end)
          (out_db o) (out_result o)
    end.
Proof.
  unfold migrate, connect. rewrite bind_unfold.
  destruct (drv_connect drv db) as [e|db1]; [done|].
  cbn [out_result out_events out_db]. rewrite bind_unfold.
  cbn [logger out_result out_events out_db]. rewrite bind_unfold.
  cbn [read_db_backend out_result out_events out_db]. rewrite bind_unfold.
  destruct (String.eqb b "postgres"); rewrite bind_unfold;
    cbn [logger out_result out_events out_db].
  - destruct (migrate_postgres drv db1) as [evs db2 [e|[]]];
      cbn [out_result out_events out_db app]; by rewrite ?app_nil_r.
  - destruct (migrate_sqlite drv db1) as [evs db2 [e|[]]];
      cbn [out_result out_events out_db app]; by rewrite ?app_nil_r.
Qed.

Lemma migrate_consistent b :
  holds (fun db evs db' _ => consistent drv db evs db') (migrate drv b).
Proof.
  intros db. rewrite migrate_unfold.
  destruct (drv_connect drv db) as [e|db1] eqn:Hc; [done|].
  cbn [out_events out_db]. exists db1. split; [done|].
  cbn [consistent app]. apply consistent_app with
    (db1 := out_db (if String.eqb b "postgres" then migrate_postgres drv db1
                    else migrate_sqlite drv db1)).
  - destruct (String.eqb b "postgres").
    + rewrite migrate_postgres_eq. apply pg_plan_consistent.
    + apply migrate_sqlite_consistent.
  - by destruct (out_result _).
Qed.

Lemma strict_split pre s e post r :
  strict (pre ++ EvSql s (inl e) :: post) r -> post = [] /\ r = Some e.
Proof.
  induction pre as [|ev pre IH]; [done|].
  destruct ev as [| | |s' [e'|c]]; simpl; auto.
  intros [Hnil _]. by destruct pre.
Qed.

Lemma migrate_unguarded_strict b :
  String.eqb b "postgres" = false ->
  holds (fun _ evs _ r => strict evs r) (migrate drv b).
Proof.
  intros Hb db. rewrite migrate_unfold, Hb.
  destruct (drv_connect drv db) as [e|db1]; [done|].
  cbn [out_events out_result app strict].
  pose proof (migrate_sqlite_strict drv db1) as Hs. simpl in Hs.
  destruct (out_result (migrate_sqlite drv db1)) as [e|[]]; simpl in *.
  - by rewrite app_nil_r.
  - by apply strict_app.
Qed.

Lemma migrate_unguarded_checked b :
  String.eqb b "postgres" = false ->
  holds (fun _ evs _ _ => checked_first evs) (migrate drv b).
Proof.
  intros Hb db. rewrite migrate_unfold, Hb.
  destruct (drv_connect drv db) as [e|db1];
    [apply checked_first_none; by repeat constructor|].
  cbn [out_events].
  apply checked_first_app; [apply checked_first_none; by repeat constructor|].
  apply checked_first_app; [apply migrate_sqlite_checked|].
  apply checked_first_none. destruct (out_result _); by repeat constructor.
Qed.

End Orchestrator.

(** * The claims *)

(** ** Guarded strategy: failures stay local *)

(** C5: under the guarded strategy a failing statement is caught for
    that statement alone and logged as a warning, and the run goes on.
    Whatever the database does, [migrate_postgres] executes all twelve
    statements in program order, each on the state its predecessors
    left (so an earlier addition has taken effect when a later one
    fails, and the later ones still run), every failed statement is
    directly followed by a warning carrying its text, and nothing is
    raised. *)
Theorem guarded_failure_is_local {DB} (drv : Driver DB) (db : DB) :
  let o := migrate_postgres drv db in
  sql_events (out_events o) = zip pg_statements (exec_results drv pg_statements db) /\
  out_db o = exec_all drv pg_statements db /\
  logged (out_events o) /\
  out_result o = inr tt.
Proof.
  cbv zeta. rewrite migrate_postgres_eq. cbn [out_events out_db out_result].
  split; [apply pg_plan_sql_events|]. split; [done|].
  split; [apply pg_plan_logged | done].
Qed.

(** The scenario of the spec: the second of the four additions to
    [user] is refused.  The first addition is in the schema, the
    warning is logged, and the other two columns are added as well. *)
Example guarded_second_addition_fails :
  let drv := failing_on (fun s =>
    bool_decide (s = ALTER_TABLE_ADD_COLUMN true "user" pg_public_quota_bytes)) in
  let o := migrate drv "postgres" RefDb.legacy in
  out_result o = inr tt /\
  sql_trace (out_events o) = pg_statements /\
  EvLog Warning "Column public_quota_bytes might already exist: permission denied"
    ∈ out_events o /\
  col_name <$> default [] (RefDb.tables (out_db o) !! "user") =
    ["id"; "username"; "private_quota_bytes"; "private_used_bytes";
     "public_used_bytes"].
Proof.
  cbv zeta. split; [by vm_compute|]. split; [by vm_compute|].
  split; [|by vm_compute].
  apply (bool_decide_unpack _). by vm_compute.
Qed.

(** The claim of C8 with its count of eleven statements does not hold:
    [migrate_postgres] has twelve [try] blocks, eight column additions,
    the table and three indexes, and a guarded run executes a statement
    in each of them. *)
Lemma guarded_eleven_statements_counterexample :
  ~ (forall b,
       b = "postgres" ->
       length (sql_trace (out_events (migrate hostile b tt))) = 11%nat).
Proof. intros H. specialize (H "postgres" eq_refl). by vm_compute in H. Qed.

(** C8 (amended): under the guarded strategy every one of the twelve
    statements sits in its own handler for [Exception], so for every
    behaviour of the database, once the connection is acquired, no
    exception of a statement leaves [migrate]: it raises nothing,
    executes all twelve statements, follows every failed one, whatever
    its kind, with a warning, and ends with the final success event.
    Exceptions are instances of [Exception] ([Exn]). *)
Theorem guarded_run_always_completes {DB} (drv : Driver DB) (db db1 : DB) :
  drv_connect drv db = inr db1 ->
  let o := migrate drv "postgres" db in
  out_result o = inr tt /\
  last (out_events o) = Some completed /\
  sql_trace (out_events o) = pg_statements /\
  length (sql_trace (out_events o)) = 12%nat /\
  logged (out_events (migrate_postgres drv db1)).
Proof.
  intros Hc. cbv zeta. rewrite migrate_unfold, Hc.
  change (String.eqb "postgres" "postgres") with true. cbv iota zeta.
  rewrite migrate_postgres_eq. cbn [out_events out_db out_result].
  assert (sql_trace
            ([EvConnect None; EvLog Info "Starting database migration...";
              EvReadBackend "postgres"; EvLog Info "Detected PostgreSQL database"]
             ++ pg_plan_events drv pg_plan db1 ++ [completed]) = pg_statements) as Htrace.
  { rewrite !sql_trace_app, pg_plan_sql_trace. by rewrite app_nil_r. }
  split; [done|]. split; [by rewrite !app_assoc, last_snoc|].
  split; [done|]. split; [by rewrite Htrace|]. apply pg_plan_logged.
Qed.

(** A database that refuses every statement: the guarded run still
    completes, after twelve failed statements. *)
Lemma guarded_run_always_completes_witness :
  let o := migrate hostile "postgres" tt in
  out_result o = inr tt /\
  last (out_events o) = Some completed /\
  sql_trace (out_events o) = pg_statements /\
  length (sql_trace (out_events o)) = 12%nat /\
  logged (out_events (migrate_postgres hostile tt)).
Proof. apply (guarded_run_always_completes hostile tt tt). reflexivity. Defined.

(** ** Introspection and the dialect *)

Lemma checked_first_split evs pre ine t c r post :
checked_first evs ->
evs = pre ++ EvSql (ALTER_TABLE_ADD_COLUMN ine t c) r :: post ->
exists pre1 rows names pre2,
  pre = pre1 ++ EvSql (PRAGMA_table_info t) (inr rows) :: pre2 /\
  row_names rows = Some names /\
  col_name c ∉ names.
Proof. intros H Heq. by eapply H. Qed.

Lemma eqb_postgres_false b : b <> "postgres" -> String.eqb b "postgres" = false.
Proof. by intros ?%String.eqb_neq. Qed.

(** C3: a run configured with the guarded dialect issues no
    introspection query; in a run configured with the unguarded
    dialect every column-addition statement is preceded by a successful
    introspection of the column metadata of its table. *)
Theorem introspection_only_when_unguarded {DB} (drv : Driver DB) (db : DB)
  (b : string) :
  (b = "postgres" ->
   forall s, s ∈ sql_trace (out_events (migrate drv b db)) -> is_introspection s = false) /\
  (b <> "postgres" ->
   forall pre ine t c r post,
     out_events (migrate drv b db)
       = pre ++ EvSql (ALTER_TABLE_ADD_COLUMN ine t c) r :: post ->
     exists pre1 rows pre2,
       pre = pre1 ++ EvSql (PRAGMA_table_info t) (inr rows) :: pre2).
Proof.
  split.
  - intros -> s. rewrite migrate_unfold.
    destruct (drv_connect drv db) as [e|db1]; [by intros ?%elem_of_nil|].
    change (String.eqb "postgres" "postgres") with true. cbv iota zeta.
    rewrite migrate_postgres_eq. cbn [out_events out_result].
    rewrite !sql_trace_app, pg_plan_sql_trace, app_nil_r.
    change (sql_trace _ ++ pg_stmts pg_plan) with pg_statements.
    intros Hin. apply list_elem_of_In in Hin. simpl in Hin.
    repeat (destruct Hin as [<-|Hin]; [done|]). done.
  - intros Hb%eqb_postgres_false pre ine t c r post Heq.
    destruct (checked_first_split _ _ _ _ _ _ _
      (migrate_unguarded_checked drv b Hb db) Heq)
      as (pre1 & rows & names & pre2 & -> & _ & _).
    by exists pre1, rows, pre2.
Qed.

(** On the reference catalog: the guarded run has no introspection,
    and the first addition of the unguarded run (the eighth event)
    comes after the introspection of [user]. *)
Lemma introspection_only_when_unguarded_witness :
  is_introspection (CREATE_TABLE true "sshkey" pg_sshkey_columns) = false /\
  exists pre1 rows pre2,
    take 7 (out_events (migrate RefDb.driver "sqlite" RefDb.legacy))
      = pre1 ++ EvSql (PRAGMA_table_info "user") (inr rows) :: pre2.
Proof.
  split.
  - apply (proj1 (introspection_only_when_unguarded
                    RefDb.driver RefDb.legacy "postgres") eq_refl).
    apply (bool_decide_unpack _). by vm_compute.
  - apply (proj2 (introspection_only_when_unguarded
                    RefDb.driver RefDb.legacy "sqlite") ltac:(done)
             _ false "user" lite_private_quota_bytes (inr [])
             (drop 8 (out_events (migrate RefDb.driver "sqlite" RefDb.legacy)))).
    by vm_compute.
Defined.

(** ** Unguarded strategy: a failed addition is fatal *)

Lemma completed_step evs : completed ∈ evs -> Finish ∈ steps evs.
Proof.
  intros Hin. unfold steps. apply list_elem_of_omap. by exists completed.
Qed.

Lemma migrate_sqlite_not_completed {DB} (drv : Driver DB) db :
  completed ∉ out_events (migrate_sqlite drv db).
Proof.
  intros Hin%completed_step.
  destruct (migrate_sqlite_steps drv db) as (bs & n & Hsteps & Hbs & _ & _).
  rewrite Hsteps in Hin. apply elem_of_blocks in Hin. rewrite Hbs in Hin.
  apply subseteq_take, list_elem_of_In in Hin. simpl in Hin.
  by repeat destruct Hin as [?|Hin].
Qed.

(** C4: under the unguarded strategy a column addition that fails
    although the check before it reported the column absent is fatal:
    the exception is the run's result, the failed statement is the last
    event (no later step runs, the success event is not emitted), and
    the final database state is the one the recorded calls up to and
    including the failed statement left (nothing is rolled back). *)
Theorem unguarded_failure_is_fatal {DB} (drv : Driver DB) (db : DB) (b : string)
  (pre post : list Event) (ine : bool) (t : string) (c : ColumnDef) (e : Exn) :
  b <> "postgres" ->
  out_events (migrate drv b db)
    = pre ++ EvSql (ALTER_TABLE_ADD_COLUMN ine t c) (inl e) :: post ->
  let o := migrate drv b db in
  post = [] /\
  out_result o = inl e /\
  (completed ∉ out_events o) /\
  consistent drv db (pre ++ [EvSql (ALTER_TABLE_ADD_COLUMN ine t c) (inl e)]) (out_db o) /\
  exists pre1 rows names pre2,
    pre = pre1 ++ EvSql (PRAGMA_table_info t) (inr rows) :: pre2 /\
    row_names rows = Some names /\
    col_name c ∉ names.
Proof.
  intros Hb%eqb_postgres_false Heq. cbv zeta.
  pose proof (migrate_unguarded_strict drv b Hb db) as Hstrict.
  cbv beta in Hstrict. rewrite Heq in Hstrict.
  apply strict_split in Hstrict as [-> Hres].
  assert (out_result (migrate drv b db) = inl e) as Hr.
  { destruct (out_result (migrate drv b db)); by simplify_eq/=. }
  split; [done|]. split; [done|]. split; [|split].
  - revert Hr. rewrite migrate_unfold, Hb.
    destruct (drv_connect drv db) as [e'|db1]; cbn [out_events out_result].
    { intros _ Hin. apply list_elem_of_In in Hin. simpl in Hin. by destruct Hin. }
    intros ->. rewrite app_nil_r, elem_of_app. intros [Hin|Hin].
    + apply list_elem_of_In in Hin. simpl in Hin.
      by repeat destruct Hin as [?|Hin].
    + by apply migrate_sqlite_not_completed in Hin.
  - rewrite <- Heq. apply migrate_consistent.
  - eapply checked_first_split; [|done]. by apply migrate_unguarded_checked.
Qed.

(** The reference catalog, refusing the addition of
    [public_quota_bytes] to [user]: the run stops there, and the column
    added before it stays. *)
Lemma unguarded_failure_is_fatal_witness :
  let drv := failing_on (fun s =>
    bool_decide (s = ALTER_TABLE_ADD_COLUMN false "user" lite_public_quota_bytes)) in
  let o := migrate drv "sqlite" RefDb.legacy in
  out_result o = inl denied /\
  (completed ∉ out_events o) /\
  col_name <$> default [] (RefDb.tables (out_db o) !! "user")
    = ["id"; "username"; "private_quota_bytes"].
Proof.
  cbv zeta.
  destruct (unguarded_failure_is_fatal
    (failing_on (fun s =>
       bool_decide (s = ALTER_TABLE_ADD_COLUMN false "user" lite_public_quota_bytes)))
    RefDb.legacy "sqlite"
    (take 10 (out_events (migrate (failing_on (fun s =>
       bool_decide (s = ALTER_TABLE_ADD_COLUMN false "user" lite_public_quota_bytes)))
       "sqlite" RefDb.legacy)))
    [] false "user" lite_public_quota_bytes denied)
    as (_ & Hres & Hnot & _); [done | by vm_compute |].
  split; [exact Hres|]. split; [exact Hnot|]. by vm_compute.
Defined.

(** ** Dialect selection *)

Lemma check_and_add_head {DB} (drv : Driver DB) checking t adds db :
  head (sql_trace (out_events (check_and_add drv checking t adds db)))
    = Some (PRAGMA_table_info t).
Proof.
  rewrite check_and_add_eq.
  destruct (drv_execute_sql drv _ db) as [db1 [e|rows]]; [done|].
  by destruct (row_names rows).
Qed.

(** C9: the dialect selection defaults to the unguarded strategy.  For
    every configured backend value other than the exact string
    ["postgres"] -- empty, misspelled or unknown -- [migrate] is the
    orchestrator with the SQLite strategy: it raises nothing on account
    of the value, reports the SQLite dialect and begins with the
    introspection of [user]. *)
Theorem unrecognized_backend_is_unguarded {DB} (drv : Driver DB) (db : DB)
  (b : string) :
  b <> "postgres" ->
  migrate drv b db = migrate_unguarded drv b db /\
  strategy_of b = Unguarded /\
  forall db1, drv_connect drv db = inr db1 ->
    EvLog Info "Detected SQLite database" ∈ out_events (migrate drv b db) /\
    head (sql_trace (out_events (migrate drv b db))) = Some (PRAGMA_table_info "user").
Proof.
  intros Hb%eqb_postgres_false. split; [|split].
  - unfold migrate, migrate_unguarded.
    apply bind_ext; intros _ db1. apply bind_ext; intros _ db2.
    unfold bind at 1 3, read_db_backend. by rewrite Hb.
  - unfold strategy_of. by rewrite Hb.
  - intros db1 Hc. rewrite migrate_unfold, Hc, Hb. cbn [out_events]. split.
    + apply elem_of_app. left. apply (bool_decide_unpack _).
      destruct b; by vm_compute.
    + rewrite sql_trace_app.
      change (sql_trace [_; _; _; _]) with (@nil Stmt). cbn [app].
      rewrite sql_trace_app, migrate_sqlite_unfold.
      pose proof (check_and_add_head drv "Checking User table schema..." "user"
        lite_user_adds db1) as Hhd.
      destruct (check_and_add _ _ _ _ db1) as [evs1 db2 [e|[]]];
        cbn [out_events out_result out_db] in *.
      * by destruct (sql_trace evs1).
      * destruct (out_result _); cbn [out_events];
          rewrite !sql_trace_app; by destruct (sql_trace evs1).
Qed.

(** Three unrecognized values on the reference catalog: the empty
    string, a misspelling and another engine. *)
Lemma unrecognized_backend_is_unguarded_witness :
  migrate RefDb.driver EmptyString RefDb.legacy
    = migrate_unguarded RefDb.driver EmptyString RefDb.legacy /\
  strategy_of "Postgres" = Unguarded /\
  head (sql_trace (out_events (migrate RefDb.driver "mysql" RefDb.legacy)))
    = Some (PRAGMA_table_info "user").
Proof.
  split; [|split].
  - apply (unrecognized_backend_is_unguarded RefDb.driver RefDb.legacy EmptyString).
    done.
  - apply (unrecognized_backend_is_unguarded RefDb.driver RefDb.legacy "Postgres"). done.
  - destruct (unrecognized_backend_is_unguarded RefDb.driver RefDb.legacy "mysql")
      as (_ & _ & H); [done|].
    apply (H RefDb.legacy). reflexivity.
Defined.

(** ** The order of the orchestrator's steps *)

Lemma last_completed (evs evs' : list Event) :
  last (evs ++ evs' ++ [completed]) = Some completed.
Proof. by rewrite !app_assoc, last_snoc. Qed.

Lemma not_completed_prefix b msg :
  msg <> "Migration completed successfully!" ->
  completed ∉ [EvConnect None; EvLog Info "Starting database migration...";
               EvReadBackend b; EvLog Info msg].
Proof.
  intros Hne Hin. apply list_elem_of_In in Hin. simpl in Hin.
  by repeat destruct Hin as [?|Hin].
Qed.

Lemma migrate_sqlite_events_ok {DB} (drv : Driver DB) db :
  out_result (migrate_sqlite drv db) = inr tt ->
  exists o1 o2 o3,
    o1 = check_and_add drv "Checking User table schema..." "user" lite_user_adds db /\
    o2 = check_and_add drv "Checking Organization table schema..." "organization"
           lite_organization_adds (out_db o1) /\
    o3 = migrate_sqlite_sshkey drv (out_db o2) /\
    out_result o1 = inr tt /\ out_result o2 = inr tt /\ out_result o3 = inr tt /\
    out_events (migrate_sqlite drv db) = out_events o1 ++ out_events o2 ++ out_events o3.
Proof.
  rewrite migrate_sqlite_unfold. cbv zeta.
  set (o1 := check_and_add drv _ "user" _ db).
  destruct (out_result o1) as [e|[]] eqn:H1; [done|].
  set (o2 := check_and_add drv _ "organization" _ (out_db o1)).
  destruct (out_result o2) as [e|[]] eqn:H2; [done|].
  cbn [out_result out_events]. intros H3.
  by exists o1, o2, (migrate_sqlite_sshkey drv (out_db o2)).
Qed.

(** The statements of a run of column blocks that raises nothing: one
    addition for every column the introspection did not report, in
    program order. *)
Lemma add_all_trace {DB} (drv : Driver DB) E t adds db :
  out_result (add_all drv E t adds db) = inr tt ->
  sql_trace (out_events (add_all drv E t adds db))
    = additions false t (filter (fun c => col_name c ∉ E) (specs_of adds)).
Proof.
  revert db. induction adds as [|[[c adding] added] adds IH]; intros db; [done|].
  cbn [add_all specs_of fmap list_fmap].
  rewrite bind_unfold, add_if_missing_eq, filter_cons. simpl. case_decide as Hin.
  - destruct (drv_execute_sql drv _ db) as [db' [e|rows]]; simpl; [done|].
    intros Hok. unfold sql_trace, additions. simpl. f_equal. by apply IH.
  - simpl. apply IH.
Qed.

Lemma check_and_add_trace {DB} (drv : Driver DB) checking t adds db :
  out_result (check_and_add drv checking t adds db) = inr tt ->
  exists rows names,
    (PRAGMA_table_info t, inr rows)
      ∈ sql_events (out_events (check_and_add drv checking t adds db)) /\
    row_names rows = Some names /\
    sql_trace (out_events (check_and_add drv checking t adds db))
      = PRAGMA_table_info t
        :: additions false t (filter (fun c => col_name c ∉ names) (specs_of adds)).
Proof.
  rewrite check_and_add_eq.
  destruct (drv_execute_sql drv _ db) as [db1 [e|rows]]; simpl; [done|].
  destruct (row_names rows) as [names|] eqn:Hnames; simpl; [|done].
  intros Hok. exists rows, names. split; [by left|]. split; [done|].
  change (PRAGMA_table_info t
            :: sql_trace (out_events (add_all drv (list_to_set names) t adds db1))
          = PRAGMA_table_info t
            :: additions false t (filter (fun c => col_name c ∉ names) (specs_of adds))).
  rewrite add_all_trace by done. do 2 f_equal.
  apply list_filter_iff. intros c. by rewrite elem_of_list_to_set.
Qed.

(** The statements of an unguarded run that raises nothing. *)
Lemma migrate_unguarded_trace {DB} (drv : Driver DB) (db : DB) (b : string) :
  strategy_of b = Unguarded ->
  out_result (migrate drv b db) = inr tt ->
  exists rows_u names_u rows_o names_o,
    (PRAGMA_table_info "user", inr rows_u)
      ∈ sql_events (out_events (migrate drv b db)) /\
    row_names rows_u = Some names_u /\
    (PRAGMA_table_info "organization", inr rows_o)
      ∈ sql_events (out_events (migrate drv b db)) /\
    row_names rows_o = Some names_o /\
    sql_trace (out_events (migrate drv b db))
      = PRAGMA_table_info "user"
        :: additions false "user"
             (filter (fun c => col_name c ∉ names_u) lite_quota_columns)
        ++ PRAGMA_table_info "organization"
        :: additions false "organization"
             (filter (fun c => col_name c ∉ names_o) lite_quota_columns)
        ++ lite_sshkey_statements.
Proof.
  unfold strategy_of. rewrite migrate_unfold.
  destruct (drv_connect drv db) as [e|db1]; [done|].
  destruct (String.eqb b "postgres"); [done|]. intros _. cbv zeta.
  cbn [out_result out_events]. intros Hok. rewrite Hok.
  destruct (migrate_sqlite_events_ok drv db1 Hok)
    as (o1 & o2 & o3 & E1 & E2 & E3 & H1 & H2 & H3 & ->).
  subst o1. destruct (check_and_add_trace drv _ _ _ _ H1) as (ru & nu & Iu & Nu & Tu).
  subst o2. destruct (check_and_add_trace drv _ _ _ _ H2) as (ro & no & Io & No & To).
  subst o3. destruct (migrate_sqlite_sshkey_trace drv
    (out_db (check_and_add drv "Checking Organization table schema..." "organization"
       lite_organization_adds
       (out_db (check_and_add drv "Checking User table schema..." "user"
                  lite_user_adds db1))))) as [_ Tk].
  cbv zeta in Tk. specialize (Tk H3).
  exists ru, nu, ro, no. split; [|split; [done|split; [|split; [done|]]]].
  - rewrite !sql_events_app, !elem_of_app. tauto.
  - rewrite !sql_events_app, !elem_of_app. tauto.
  - rewrite !sql_trace_app, Tu, To, Tk. cbn [app].
    change (sql_trace [completed]) with (@nil Stmt). rewrite app_nil_r.
    reflexivity.
Qed.

(** The steps of every run, in order. *)
Lemma orchestration_steps {DB} (drv : Driver DB) (db : DB) (b : string) :
  let o := migrate drv b db in
  (exists n,
     squash (steps (out_events o)) = take n (orchestration (strategy_of b)) /\
     (1 <= n)%nat /\
     (n = 7%nat <-> out_result o = inr tt)) /\
  (completed ∈ out_events o <-> out_result o = inr tt) /\
  (out_result o = inr tt -> last (out_events o) = Some completed) /\
  (strategy_of b = Guarded ->
   forall db1, drv_connect drv db = inr db1 ->
     steps (out_events o) =
       [Connect; ReadBackend; Select Guarded]
       ++ replicate 4 (Columns "user") ++ replicate 4 (Columns "organization")
       ++ replicate 4 TableAndIndexes ++ [Finish]).
Proof.
  cbv zeta. rewrite migrate_unfold. unfold strategy_of.
  destruct (drv_connect drv db) as [e|db1].
  { cbn [out_events out_result]. split; [|split; [|split]]; try done.
    - exists 1%nat. split; [by destruct (String.eqb _ _)|]. split; [lia|].
      split; [lia | done].
    - split; [|done]. intros Hin. apply list_elem_of_In in Hin. simpl in Hin.
      by destruct Hin. }
  destruct (String.eqb b "postgres") eqn:Hb; cbv zeta.
  - rewrite migrate_postgres_eq. cbn [out_events out_result].
    assert (steps ([EvConnect None; EvLog Info "Starting database migration...";
                    EvReadBackend b; EvLog Info "Detected PostgreSQL database"]
                   ++ pg_plan_events drv pg_plan db1 ++ [completed])
            = [Connect; ReadBackend; Select Guarded]
              ++ replicate 4 (Columns "user") ++ replicate 4 (Columns "organization")
              ++ replicate 4 TableAndIndexes ++ [Finish]) as Hsteps.
    { rewrite !steps_app, pg_plan_steps by apply plain_pg_plan. done. }
    split; [|split; [|split]].
    + exists 7%nat. rewrite Hsteps. split; [done|]. split; [lia | done].
    + split; [done|]. intros _. rewrite !elem_of_app. right. right. by left.
    + intros _. apply last_completed.
    + intros _ db2 [= <-]. exact Hsteps.
  - destruct (migrate_sqlite_steps drv db1) as (bs & n & Hsteps & Hbs & Hn & Hok).
    pose proof (migrate_sqlite_not_completed drv db1) as Hnot.
    assert (steps [EvConnect None; EvLog Info "Starting database migration...";
                   EvReadBackend b; EvLog Info "Detected SQLite database"]
            = blocks [(Connect, 0%nat); (ReadBackend, 0%nat);
                      (Select Unguarded, 0%nat)]) as Hpre by done.
    destruct (out_result (migrate_sqlite drv db1)) as [e|[]] eqn:Hres;
      cbn [out_events out_result].
    + split; [|split; [|split]]; try done.
      * exists (3 + n)%nat.
        rewrite app_nil_r, steps_app, Hpre, Hsteps, <- blocks_app, squash_blocks.
        -- rewrite fmap_app, Hbs.
           destruct n as [|[|[|[|n]]]]; try lia;
             (split; [done|]; split; [lia|]; split; [lia | done]).
        -- rewrite fmap_app, Hbs.
           destruct n as [|[|[|[|n]]]]; try lia; simpl; by repeat split.
      * split; [|done]. rewrite app_nil_r, elem_of_app. intros [Hin|Hin]; [|done].
        by apply not_completed_prefix in Hin.
    + rewrite (Hok eq_refl) in Hbs. split; [|split; [|split]]; try done.
      * exists 7%nat.
        rewrite !steps_app, Hpre, Hsteps.
        change (steps [completed]) with (blocks [(Finish, 0%nat)]).
        rewrite <- !blocks_app, squash_blocks.
        -- rewrite !fmap_app, Hbs. split; [done|]. split; [lia | done].
        -- rewrite !fmap_app, Hbs. simpl. by repeat split.
      * split; [done|]. intros _. rewrite !elem_of_app. right. right. by left.
      * intros _. apply last_completed.
Qed.

(** C7: on every run the orchestrator's steps come in this order:
    connect, read the backend kind, select the strategy, the column
    additions for [user], those for [organization], the table and index
    migration, the final success event.  A run stops early exactly when
    an exception is raised: all seven steps are taken, and the success
    event is emitted (as the last event), if and only if nothing was
    raised.  Under the guarded strategy each of the two tables gets its
    four additions and the table and index step its four statements.
    Under the unguarded strategy a run that raises nothing has executed,
    for each of the two tables in turn, the introspection of the table
    followed by one addition for each of the four column specifications
    that the introspection did not report, in program order, and then
    the table statement and the three index statements. *)
Theorem orchestration_order {DB} (drv : Driver DB) (db : DB) (b : string) :
  let o := migrate drv b db in
  (exists n,
     squash (steps (out_events o)) = take n (orchestration (strategy_of b)) /\
     (1 <= n)%nat /\
     (n = 7%nat <-> out_result o = inr tt)) /\
  (completed ∈ out_events o <-> out_result o = inr tt) /\
  (out_result o = inr tt -> last (out_events o) = Some completed) /\
  (strategy_of b = Guarded ->
   forall db1, drv_connect drv db = inr db1 ->
     steps (out_events o) =
       [Connect; ReadBackend; Select Guarded]
       ++ replicate 4 (Columns "user") ++ replicate 4 (Columns "organization")
       ++ replicate 4 TableAndIndexes ++ [Finish]) /\
  (strategy_of b = Unguarded -> out_result o = inr tt ->
   exists rows_u names_u rows_o names_o,
     (PRAGMA_table_info "user", inr rows_u) ∈ sql_events (out_events o) /\
     row_names rows_u = Some names_u /\
     (PRAGMA_table_info "organization", inr rows_o) ∈ sql_events (out_events o) /\
     row_names rows_o = Some names_o /\
     sql_trace (out_events o)
       = PRAGMA_table_info "user"
         :: additions false "user"
              (filter (fun c => col_name c ∉ names_u) lite_quota_columns)
         ++ PRAGMA_table_info "organization"
         :: additions false "organization"
              (filter (fun c => col_name c ∉ names_o) lite_quota_columns)
         ++ lite_sshkey_statements) /\
  length lite_quota_columns = 4%nat.
Proof.
  cbv zeta. destruct (orchestration_steps drv db b) as (H1 & H2 & H3 & H4).
  split; [exact H1|]. split; [exact H2|]. split; [exact H3|]. split; [exact H4|].
  split; [apply migrate_unguarded_trace | done].
Qed.

(** On the reference catalog the unguarded run takes all seven steps,
    its success event is the last event, and each of the two tables,
    whose introspection reports none of the quota columns, gets all
    four additions. *)
Lemma orchestration_order_witness :
  last (out_events (migrate RefDb.driver "sqlite" RefDb.legacy)) = Some completed /\
  completed ∈ out_events (migrate RefDb.driver "sqlite" RefDb.legacy) /\
  exists rows_u names_u rows_o names_o,
    (PRAGMA_table_info "user", inr rows_u)
      ∈ sql_events (out_events (migrate RefDb.driver "sqlite" RefDb.legacy)) /\
    row_names rows_u = Some names_u /\
    (PRAGMA_table_info "organization", inr rows_o)
      ∈ sql_events (out_events (migrate RefDb.driver "sqlite" RefDb.legacy)) /\
    row_names rows_o = Some names_o /\
    sql_trace (out_events (migrate RefDb.driver "sqlite" RefDb.legacy))
      = PRAGMA_table_info "user"
        :: additions false "user"
             (filter (fun c => col_name c ∉ names_u) lite_quota_columns)
        ++ PRAGMA_table_info "organization"
        :: additions false "organization"
             (filter (fun c => col_name c ∉ names_o) lite_quota_columns)
        ++ lite_sshkey_statements.
Proof.
  destruct (orchestration_order RefDb.driver RefDb.legacy "sqlite")
    as (_ & Hiff & Hlast & _ & Htrace & _).
  split; [apply Hlast; by vm_compute|].
  split; [apply Hiff; by vm_compute|].
  apply Htrace; by vm_compute.
Defined.

(** The statements of the unguarded run on the end-to-end schema of the
    spec: four additions for each table. *)
Example unguarded_run_statements :
  sql_trace (out_events (migrate RefDb.driver "sqlite" RefDb.legacy))
    = PRAGMA_table_info "user" :: additions false "user" lite_quota_columns
      ++ PRAGMA_table_info "organization"
      :: additions false "organization" lite_quota_columns
      ++ lite_sshkey_statements.
Proof. by vm_compute. Qed.

(** ** The quota columns *)

Lemma migrate_sqlite_events_cases {DB} (drv : Driver DB) db :
  let o1 := check_and_add drv "Checking User table schema..." "user"
              lite_user_adds db in
  let o2 := check_and_add drv "Checking Organization table schema..." "organization"
              lite_organization_adds (out_db o1) in
  let o3 := migrate_sqlite_sshkey drv (out_db o2) in
  out_events (migrate_sqlite drv db) = out_events o1 \/
  out_events (migrate_sqlite drv db) = out_events o1 ++ out_events o2 \/
  out_events (migrate_sqlite drv db) = out_events o1 ++ out_events o2 ++ out_events o3.
Proof.
  cbv zeta. rewrite migrate_sqlite_unfold. cbv zeta.
  destruct (out_result (check_and_add drv _ "user" _ db)) as [e|[]]; [by left|].
  destruct (out_result (check_and_add drv _ "organization" _ _)) as [e|[]];
    [right; by left|]. right. by right.
Qed.

(** C6: both quota-bearing tables receive the identical four column
    specifications.  Under the guarded strategy the additions issued
    for [user] and for [organization] are the same four, on every run.
    Under the unguarded strategy every addition is one of the same four
    for either table, and a run that raises nothing has added to each
    table exactly those of the four that its introspection did not
    report.  In both dialects the two capacity limits default to NULL
    and the two consumed amounts to zero. *)
Theorem quota_columns_identical {DB} (drv : Driver DB) (db : DB) :
  (forall t, t ∈ ["user"; "organization"] ->
     columns_added t (sql_trace (out_events (migrate_postgres drv db)))
       = pg_quota_columns) /\
  (forall t, t ∈ ["user"; "organization"] ->
     out_result (migrate_sqlite drv db) = inr tt ->
     exists rows names,
       (PRAGMA_table_info t, inr rows)
         ∈ sql_events (out_events (migrate_sqlite drv db)) /\
       row_names rows = Some names /\
       columns_added t (sql_trace (out_events (migrate_sqlite drv db)))
         = filter (fun c => col_name c ∉ names) lite_quota_columns) /\
  (forall ine t c r,
     EvSql (ALTER_TABLE_ADD_COLUMN ine t c) r ∈ out_events (migrate_sqlite drv db) ->
     t ∈ ["user"; "organization"] /\ c ∈ lite_quota_columns) /\
  name_and_default <$> pg_quota_columns
    = [ ("private_quota_bytes", Some DNull); ("public_quota_bytes", Some DNull);
        ("private_used_bytes", Some (DInt 0)); ("public_used_bytes", Some (DInt 0)) ] /\
  name_and_default <$> lite_quota_columns = name_and_default <$> pg_quota_columns.
Proof.
  split; [|split; [|split; [|split]]]; try done.
  - intros t Ht. rewrite migrate_postgres_eq. cbn [out_events].
    rewrite pg_plan_sql_trace.
    apply list_elem_of_In in Ht. simpl in Ht.
    by destruct Ht as [<-|[<-|[]]].
  - intros t Ht Hok.
    destruct (migrate_sqlite_events_ok drv db Hok)
      as (o1 & o2 & o3 & E1 & E2 & E3 & H1 & H2 & H3 & ->).
    rewrite !sql_events_app, !sql_trace_app, !columns_added_app.
    pose proof (check_and_add_events drv "Checking User table schema..." "user"
      lite_user_adds db) as Hev1. rewrite <- E1 in Hev1.
    pose proof (check_and_add_events drv "Checking Organization table schema..."
      "organization" lite_organization_adds (out_db o1)) as Hev2.
    rewrite <- E2 in Hev2.
    pose proof (migrate_sqlite_sshkey_free drv (out_db o2)) as Hev3.
    rewrite <- E3 in Hev3.
    apply list_elem_of_In in Ht. simpl in Ht. destruct Ht as [<-|[<-|[]]].
    + rewrite E1 in H1.
      destruct (check_and_add_columns drv _ _ _ _ H1) as (rows & names & Hin & Hn & Hc).
      rewrite <- E1 in Hin, Hc. exists rows, names.
      split; [rewrite elem_of_app; by left|]. split; [done|].
      rewrite Hc, (section_no_additions _ _ _ _ Hev2), (free_no_additions _ _ Hev3)
        by done.
      by rewrite !app_nil_r.
    + rewrite E2 in H2.
      destruct (check_and_add_columns drv _ _ _ _ H2) as (rows & names & Hin & Hn & Hc).
      rewrite <- E2 in Hin, Hc. exists rows, names.
      split; [rewrite !elem_of_app; right; by left|]. split; [done|].
      rewrite Hc, (section_no_additions _ _ _ _ Hev1), (free_no_additions _ _ Hev3)
        by done.
      by rewrite !app_nil_r.
  - intros ine t c r Hin.
    pose proof (check_and_add_events drv "Checking User table schema..." "user"
      lite_user_adds db) as Hev1.
    pose proof (check_and_add_events drv "Checking Organization table schema..."
      "organization" lite_organization_adds
      (out_db (check_and_add drv "Checking User table schema..." "user"
                 lite_user_adds db))) as Hev2.
    pose proof (migrate_sqlite_sshkey_free drv
      (out_db (check_and_add drv "Checking Organization table schema..."
                 "organization" lite_organization_adds
                 (out_db (check_and_add drv "Checking User table schema..." "user"
                            lite_user_adds db))))) as Hev3.
    unfold columns_free in Hev3. rewrite Forall_forall in Hev1, Hev2, Hev3.
    assert (EvSql (ALTER_TABLE_ADD_COLUMN ine t c) r
              ∈ out_events (check_and_add drv "Checking User table schema..." "user"
                              lite_user_adds db) ->
            t ∈ ["user"; "organization"] /\ c ∈ lite_quota_columns) as Huser.
    { intros [_ [-> ?]]%Hev1. split; [by left | done]. }
    assert (EvSql (ALTER_TABLE_ADD_COLUMN ine t c) r
              ∈ out_events (check_and_add drv "Checking Organization table schema..."
                  "organization" lite_organization_adds
                  (out_db (check_and_add drv "Checking User table schema..." "user"
                             lite_user_adds db))) ->
            t ∈ ["user"; "organization"] /\ c ∈ lite_quota_columns) as Horg.
    { intros [_ [-> ?]]%Hev2. split; [right; by left | done]. }
    destruct (migrate_sqlite_events_cases drv db) as [E|[E|E]];
      rewrite E in Hin; clear E; rewrite ?elem_of_app in Hin.
    + auto.
    + destruct Hin; auto.
    + destruct Hin as [?|[?|Hin]]; auto. by apply Hev3 in Hin.
Qed.

(** On the reference catalog, where neither table has a quota column,
    the unguarded run adds all four to [organization]. *)
Lemma quota_columns_identical_witness :
  exists rows names,
    (PRAGMA_table_info "organization", inr rows)
      ∈ sql_events (out_events (migrate_sqlite RefDb.driver RefDb.legacy)) /\
    row_names rows = Some names /\
    columns_added "organization"
      (sql_trace (out_events (migrate_sqlite RefDb.driver RefDb.legacy)))
      = filter (fun c => col_name c ∉ names) lite_quota_columns.
Proof.
  apply (proj1 (proj2 (quota_columns_identical RefDb.driver RefDb.legacy))).
  - apply (bool_decide_unpack _). by vm_compute.
  - by vm_compute.
Defined.

(** ** The credential-key table and its indexes *)

Lemma filter_is_create_app (l l' : list Stmt) :
  filter is_create (l ++ l') = filter is_create l ++ filter is_create l'.
Proof. apply filter_app. Qed.

Lemma filter_is_create_all (l : list Stmt) :
  Forall is_create l -> filter is_create l = l.
Proof.
  induction 1 as [|s l Hs _ IH]; [done|].
  rewrite filter_cons, decide_True by done. by rewrite IH.
Qed.

Lemma free_sshkey_creates {DB} (drv : Driver DB) db :
  filter is_create (sql_trace (out_events (migrate_sqlite_sshkey drv db)))
    = sql_trace (out_events (migrate_sqlite_sshkey drv db)).
Proof.
  destruct (migrate_sqlite_sshkey_trace drv db) as [[rest Hpre] _].
  assert (Forall is_create (CREATE_TABLE true "sshkey" lite_sshkey_columns
                            :: sshkey_indexes)) as Hall
    by (by repeat constructor).
  rewrite Hpre in Hall. apply Forall_app in Hall as [Hall _].
  by apply filter_is_create_all.
Qed.

(** The claim of C2 with its count of seven columns does not hold: on
    the reference catalog the table that either strategy creates has
    eight columns. *)
Lemma sshkey_seven_columns_counterexample :
  ~ (forall b,
       length <$> (RefDb.tables (RefDb.run b RefDb.legacy) !! "sshkey") = Some 7%nat).
Proof. intros H. specialize (H "sqlite"). by vm_compute in H. Qed.

(** C2 (amended): under both strategies the credential-key table has
    exactly eight columns -- generated primary key, owner reference,
    key type, public key, globally unique fingerprint, title, nullable
    last-used timestamp, creation timestamp defaulting to the current
    time -- and three indexes are ensured: a lookup index on the owner
    reference, a lookup index on the fingerprint and a unique index on
    (owner reference, fingerprint).  The guarded run always issues the
    table statement and the three index statements; the unguarded run
    issues them in the same order, all of them when nothing is raised. *)
Theorem sshkey_table_and_indexes {DB} (drv : Driver DB) (db : DB) :
  filter is_create (sql_trace (out_events (migrate_postgres drv db)))
    = CREATE_TABLE true "sshkey" pg_sshkey_columns :: sshkey_indexes /\
  filter is_create (sql_trace (out_events (migrate_sqlite drv db)))
    `prefix_of` CREATE_TABLE true "sshkey" lite_sshkey_columns :: sshkey_indexes /\
  (out_result (migrate_sqlite drv db) = inr tt ->
   filter is_create (sql_trace (out_events (migrate_sqlite drv db)))
     = CREATE_TABLE true "sshkey" lite_sshkey_columns :: sshkey_indexes) /\
  (length pg_sshkey_columns = 8%nat /\ sshkey_shape pg_sshkey_columns = true) /\
  (length lite_sshkey_columns = 8%nat /\ sshkey_shape lite_sshkey_columns = true) /\
  index_spec <$> sshkey_indexes
    = [ Some (false, "sshkey", ["user_id"]);
        Some (false, "sshkey", ["fingerprint"]);
        Some (true, "sshkey", ["user_id"; "fingerprint"]) ].
Proof.
  split; [|split; [|split]]; [| | |by vm_compute].
  - rewrite migrate_postgres_eq. cbn [out_events]. by rewrite pg_plan_sql_trace.
  - pose proof (check_and_add_events drv "Checking User table schema..." "user"
      lite_user_adds db) as Hev1.
    pose proof (check_and_add_events drv "Checking Organization table schema..."
      "organization" lite_organization_adds
      (out_db (check_and_add drv "Checking User table schema..." "user"
                 lite_user_adds db))) as Hev2.
    destruct (migrate_sqlite_events_cases drv db) as [E|[E|E]]; rewrite E;
      rewrite ?sql_trace_app, ?filter_is_create_app,
        (section_no_creates _ _ _ Hev1), ?(section_no_creates _ _ _ Hev2);
      cbn [app]; try apply prefix_nil.
    rewrite free_sshkey_creates. apply migrate_sqlite_sshkey_trace.
  - intros Hok.
    destruct (migrate_sqlite_events_ok drv db Hok)
      as (o1 & o2 & o3 & E1 & E2 & E3 & H1 & H2 & H3 & ->).
    pose proof (check_and_add_events drv "Checking User table schema..." "user"
      lite_user_adds db) as Hev1. rewrite <- E1 in Hev1.
    pose proof (check_and_add_events drv "Checking Organization table schema..."
      "organization" lite_organization_adds (out_db o1)) as Hev2.
    rewrite <- E2 in Hev2.
    rewrite !sql_trace_app, !filter_is_create_app,
      (section_no_creates _ _ _ Hev1), (section_no_creates _ _ _ Hev2).
    cbn [app]. subst o3. rewrite free_sshkey_creates.
    by apply migrate_sqlite_sshkey_trace.
Qed.

(** On the reference catalog the unguarded run raises nothing and
    issues the table statement and the three index statements. *)
Lemma sshkey_table_and_indexes_witness :
  filter is_create (sql_trace (out_events (migrate_sqlite RefDb.driver RefDb.legacy)))
    = CREATE_TABLE true "sshkey" lite_sshkey_columns :: sshkey_indexes.
Proof.
  apply (proj1 (proj2 (proj2 (sshkey_table_and_indexes RefDb.driver RefDb.legacy)))).
  by vm_compute.
Defined.

(** ** [move_defs_to_end] *)

Section MoveDefs.

Import JsonSchema.

Context {V : Type}.

Implicit Types (d : dict V) (k : string) (v : V).

Lemma setitem_fresh k v d : k ∉ d.*1 -> setitem k v d = d ++ [(k, v)].
Proof.
  induction d as [|[k' v'] d IH]; [done|]. cbn [fmap list_fmap fst].
  rewrite not_elem_of_cons. intros [Hne Hnin]. cbn [setitem].
  rewrite decide_False by done. by rewrite IH.
Qed.

Lemma pop_first k v d1 d2 :
  k ∉ d1.*1 -> pop k (d1 ++ (k, v) :: d2) = Some (v, d1 ++ d2).
Proof.
  induction d1 as [|[k' v'] d1 IH]; cbn [fmap list_fmap fst app pop].
  - intros _. by rewrite decide_True.
  - rewrite not_elem_of_cons. intros [Hne Hnin].
    rewrite decide_False by done. by rewrite IH.
Qed.

Lemma getitem_first k v d1 d2 :
  k ∉ d1.*1 -> getitem k (d1 ++ (k, v) :: d2) = Some v.
Proof.
  induction d1 as [|[k' v'] d1 IH]; cbn [fmap list_fmap fst app getitem].
  - intros _. by rewrite decide_True.
  - rewrite not_elem_of_cons. intros [Hne Hnin].
    rewrite decide_False by done. by apply IH.
Qed.

Lemma getitem_skip k k' v d1 d2 :
  k' <> k -> getitem k (d1 ++ (k', v) :: d2) = getitem k (d1 ++ d2).
Proof.
  intros Hne. induction d1 as [|[k'' v''] d1 IH]; cbn [app getitem].
  - by rewrite decide_False.
  - by rewrite IH.
Qed.

Lemma getitem_app_fresh k d1 d2 :
  k ∉ d1.*1 -> getitem k (d1 ++ d2) = getitem k d2.
Proof.
  induction d1 as [|[k' v'] d1 IH]; [done|]. cbn [fmap list_fmap fst app getitem].
  rewrite not_elem_of_cons. intros [Hne Hnin].
  rewrite decide_False by done. by apply IH.
Qed.

(** A well-formed dictionary that contains [k] splits at its item. *)
Lemma dict_split k d :
  dict_wf d -> k ∈ d.*1 ->
  exists d1 v d2, d = d1 ++ (k, v) :: d2 /\ (k ∉ d1.*1) /\ (k ∉ d2.*1).
Proof.
  unfold dict_wf. intros Hwf Hin.
  apply list_elem_of_fmap in Hin as ([k' v] & -> & Hin).
  apply list_elem_of_split in Hin as (d1 & d2 & ->).
  rewrite fmap_app, fmap_cons in Hwf. cbn [fst] in Hwf.
  apply NoDup_app in Hwf as (_ & Hd1 & Hd2).
  apply NoDup_cons in Hd2 as [Hd2 _].
  exists d1, v, d2. split; [done|]. split; [|done].
  intros Hin. apply (Hd1 _ Hin). by left.
Qed.

(** What [move_defs_to_end] returns. *)
Lemma move_defs_to_end_eq (schema : dict V) :
  dict_wf schema ->
  (("$defs" ∉ schema.*1) /\ move_defs_to_end schema = Some schema) \/
  (exists d1 defs d2,
     schema = d1 ++ ("$defs", defs) :: d2 /\
     ("$defs" ∉ (d1 ++ d2).*1) /\
     move_defs_to_end schema = Some ((d1 ++ d2) ++ [("$defs", defs)])).
Proof.
  intros Hwf. unfold move_defs_to_end, contains. case_bool_decide as Hin.
  - right. destruct (dict_split _ _ Hwf Hin) as (d1 & defs & d2 & -> & H1 & H2).
    assert ("$defs" ∉ (d1 ++ d2).*1) as Hnin.
    { rewrite fmap_app, elem_of_app. by intros [?|?]. }
    exists d1, defs, d2. split; [done|]. split; [done|].
    rewrite pop_first by done. cbn. by rewrite setitem_fresh.
  - by left.
Qed.

End MoveDefs.

(** C10: [move_defs_to_end] returns a dictionary with exactly the key
    and value pairs of its input: it is the input itself when ["$defs"]
    is absent, and otherwise the input with the ["$defs"] item moved to
    the end.  Applying it to its own result changes nothing. *)
Theorem move_defs_to_end_keeps_items {V} (schema : JsonSchema.dict V) :
  JsonSchema.dict_wf schema ->
  exists schema',
    JsonSchema.move_defs_to_end schema = Some schema' /\
    schema' ≡ₚ schema /\
    (forall k, JsonSchema.getitem k schema' = JsonSchema.getitem k schema) /\
    ("$defs" ∉ schema.*1 -> schema' = schema) /\
    (forall defs, JsonSchema.getitem "$defs" schema = Some defs ->
                  last schema' = Some ("$defs", defs)) /\
    JsonSchema.move_defs_to_end schema' = Some schema'.
Proof.
  intros Hwf.
  destruct (move_defs_to_end_eq schema Hwf)
    as [[Hnin Heq]|(d1 & defs & d2 & -> & Hnin & Heq)].
  - exists schema. repeat split; try done.
    intros defs Hget. exfalso. apply Hnin. clear -Hget.
    induction schema as [|[k v] d IH]; [done|]. cbn in *.
    case_decide; [subst; by left | right; auto].
  - exists ((d1 ++ d2) ++ [("$defs", defs)]).
    assert (("$defs" ∉ d1.*1) /\ ("$defs" ∉ d2.*1)) as [H1 H2].
    { rewrite fmap_app, elem_of_app in Hnin. split; intros ?; apply Hnin; auto. }
    split; [done|]. split; [|split; [|split; [|split]]].
    + rewrite <- app_assoc. apply Permutation_app_head.
      by rewrite <- Permutation_cons_append.
    + intros k. destruct (decide (k = "$defs")) as [->|Hne].
      * by rewrite !getitem_first.
      * rewrite (getitem_skip k "$defs" defs d1 d2) by done.
        rewrite (getitem_skip k "$defs" defs (d1 ++ d2) []) by done.
        by rewrite app_nil_r.
    + intros Habs. exfalso. apply Habs.
      rewrite fmap_app, elem_of_app. right. by left.
    + intros defs'. rewrite getitem_first by done. intros [= <-].
      by rewrite last_snoc.
    + unfold JsonSchema.move_defs_to_end, JsonSchema.contains.
      rewrite bool_decide_eq_true_2.
      * rewrite pop_first by done. cbn. rewrite app_nil_r.
        by rewrite setitem_fresh.
      * rewrite fmap_app, elem_of_app. right. by left.
Qed.

(** A schema with ["$defs"] in front. *)
Lemma move_defs_to_end_keeps_items_witness :
  exists schema',
    JsonSchema.move_defs_to_end
      [("$defs", 1%nat); ("properties", 2%nat); ("title", 3%nat)] = Some schema' /\
    schema' ≡ₚ [("$defs", 1%nat); ("properties", 2%nat); ("title", 3%nat)] /\
    (forall k, JsonSchema.getitem k schema'
               = JsonSchema.getitem k
                   [("$defs", 1%nat); ("properties", 2%nat); ("title", 3%nat)]) /\
    ("$defs" ∉ [("$defs", 1%nat); ("properties", 2%nat); ("title", 3%nat)].*1 ->
     schema' = [("$defs", 1%nat); ("properties", 2%nat); ("title", 3%nat)]) /\
    (forall defs,
       JsonSchema.getitem "$defs"
         [("$defs", 1%nat); ("properties", 2%nat); ("title", 3%nat)] = Some defs ->
       last schema' = Some ("$defs", defs)) /\
    JsonSchema.move_defs_to_end schema' = Some schema'.
Proof.
  apply (move_defs_to_end_keeps_items
           [("$defs", 1%nat); ("properties", 2%nat); ("title", 3%nat)]).
  unfold JsonSchema.dict_wf. apply (bool_decide_unpack _). by vm_compute.
Defined.

Example move_defs_to_end_example :
  JsonSchema.move_defs_to_end
    [("$defs", 1%nat); ("properties", 2%nat); ("title", 3%nat)]
  = Some [("properties", 2%nat); ("title", 3%nat); ("$defs", 1%nat)].
Proof. reflexivity. Qed.

(** ** Statements on the reference catalog *)

Section Catalog.

Import RefDb.

Implicit Types (sch : Schema) (s : Stmt) (cols : list ColumnDef).

Lemma has_column_app n cols cols' :
  has_column n (cols ++ cols') = has_column n cols || has_column n cols'.
Proof.
  unfold has_column. rewrite fmap_app.
  apply eq_true_iff_eq. rewrite orb_true_iff, !bool_decide_eq_true.
  apply elem_of_app.
Qed.

Lemma has_column_self c cols : has_column (col_name c) (cols ++ [c]) = true.
Proof.
  rewrite has_column_app. apply orb_true_iff. right.
  apply bool_decide_eq_true. by left.
Qed.

(** *** What a statement keeps *)

Lemma step_present s sch t :
  is_Some (tables sch !! t) -> is_Some (tables (step s sch) !! t).
Proof.
  intros Ht. unfold step. destruct s as [t'|ine t' c|ine t' cs|u ine n t' cs]; simpl.
  - done.
  - destruct (tables sch !! t') as [cols|] eqn:E; [|done].
    destruct (has_column _ _); [done|]. simpl.
    destruct (decide (t' = t)) as [->|]; [by rewrite lookup_insert_eq|].
    by rewrite lookup_insert_ne.
  - destruct (tables sch !! t') as [cols|] eqn:E; [done|]. simpl.
    destruct (decide (t' = t)) as [->|]; [by rewrite lookup_insert_eq|].
    by rewrite lookup_insert_ne.
  - destruct (tables sch !! t'); [|done]. destruct (indexes sch !! n); [done|].
    by destruct (forallb _ _).
Qed.

(** A statement other than the creation of [t] leaves the columns of
    [t] in place, up to additions at the end. *)
Lemma step_columns s sch t :
  creates t s = false ->
  match tables sch !! t with
  | None => tables (step s sch) !! t = None
  | Some cols => exists more, tables (step s sch) !! t = Some (cols ++ more)
  end.
Proof.
  intros Hs. unfold step.
  assert (match tables sch !! t with
          | None => tables sch !! t = None
          | Some cols => exists more, tables sch !! t = Some (cols ++ more)
          end) as Hsame.
  { destruct (tables sch !! t) as [cols|]; [|done]. exists []. by rewrite app_nil_r. }
  destruct s as [t'|ine t' c|ine t' cs|u ine n t' cs]; simpl.
  - done.
  - destruct (tables sch !! t') as [cols'|] eqn:E; [|done].
    destruct (has_column _ _); [done|]. simpl.
    destruct (decide (t' = t)) as [->|].
    + rewrite E, lookup_insert_eq. by exists [c].
    + by rewrite lookup_insert_ne.
  - destruct (tables sch !! t') as [cols'|] eqn:E; [done|]. simpl.
    simpl in Hs. apply bool_decide_eq_false in Hs.
    by rewrite lookup_insert_ne.
  - destruct (tables sch !! t'); [|done]. destruct (indexes sch !! n); [done|].
    by destruct (forallb _ _).
Qed.

Lemma step_index s sch n d :
  indexes sch !! n = Some d -> indexes (step s sch) !! n = Some d.
Proof.
  intros Hn. unfold step. destruct s as [t'|ine t' c|ine t' cs|u ine n' t' cs]; simpl.
  - done.
  - destruct (tables sch !! t'); [|done]. by destruct (has_column _ _).
  - by destruct (tables sch !! t').
  - destruct (tables sch !! t'); [|done].
    destruct (indexes sch !! n') eqn:E; [done|].
    destruct (forallb _ _); [|done]. simpl.
    rewrite lookup_insert_ne; [done|]. by intros ->; simplify_eq.
Qed.

(** An index statement does not touch the tables. *)
Lemma step_index_tables u ine n t cs sch :
  tables (step (CREATE_INDEX u ine n t cs) sch) = tables sch.
Proof.
  unfold step. simpl. destruct (tables sch !! t); [|done].
  destruct (indexes sch !! n); [done|]. by destruct (forallb _ _).
Qed.

(** A failed statement changes nothing. *)
Lemma execute_failed s sch e : (execute s sch).2 = inl e -> step s sch = sch.
Proof.
  unfold step. destruct s as [t'|ine t' c|ine t' cs|u ine n t' cs]; simpl.
  - done.
  - destruct (tables sch !! t'); [|done]. by destruct (has_column _ _).
  - by destruct (tables sch !! t').
  - destruct (tables sch !! t'); [|done]. destruct (indexes sch !! n); [done|].
    by destruct (forallb _ _).
Qed.

(** A guarded statement never fails on an object that already exists. *)
Lemma guarded_not_duplicate s sch :
  guarded_stmt s = true -> ~ is_duplicate_error (execute s sch).2.
Proof.
  intros Hg (e & He & Hk).
  destruct s as [t'|ine t' c|ine t' cs|u ine n t' cs]; simpl in *; subst.
  - done.
  - destruct (tables sch !! t'); [|by simplify_eq/=].
    by destruct (has_column _ _).
  - by destruct (tables sch !! t').
  - destruct (tables sch !! t'); [|by simplify_eq/=].
    destruct (indexes sch !! n); [done|].
    destruct (forallb _ _); by simplify_eq/=.
Qed.

(** *** Statements that change nothing *)

Lemma inert_pragma t sch : inert (PRAGMA_table_info t) sch.
Proof. done. Qed.

Lemma inert_alter_absent ine t c sch :
  tables sch !! t = None -> inert (ALTER_TABLE_ADD_COLUMN ine t c) sch.
Proof. intros Ht. unfold inert, step. simpl. by rewrite Ht. Qed.

Lemma inert_alter_has ine t c sch cols :
  tables sch !! t = Some cols -> has_column (col_name c) cols = true ->
  inert (ALTER_TABLE_ADD_COLUMN ine t c) sch.
Proof. intros Ht Hc. unfold inert, step. simpl. by rewrite Ht, Hc. Qed.

Lemma inert_create_table ine t cs sch :
  is_Some (tables sch !! t) -> inert (CREATE_TABLE ine t cs) sch.
Proof. intros [cols Ht]. unfold inert, step. simpl. by rewrite Ht. Qed.

(** *** Statement lists *)

Lemma exec_all_app (l l' : list Stmt) sch :
  exec_all driver (l ++ l') sch = exec_all driver l' (exec_all driver l sch).
Proof. apply foldl_app. Qed.

Lemma exec_all_cons s (l : list Stmt) sch :
  exec_all driver (s :: l) sch = exec_all driver l (step s sch).
Proof. done. Qed.

Lemma exec_all_present l sch t :
  is_Some (tables sch !! t) -> is_Some (tables (exec_all driver l sch) !! t).
Proof.
  revert sch. induction l as [|s l IH]; intros sch Ht; [done|].
  rewrite exec_all_cons. by apply IH, step_present.
Qed.

Lemma exec_all_columns l sch t :
  Forall (fun s => creates t s = false) l ->
  match tables sch !! t with
  | None => tables (exec_all driver l sch) !! t = None
  | Some cols => exists more, tables (exec_all driver l sch) !! t = Some (cols ++ more)
  end.
Proof.
  intros Hl. revert sch. induction Hl as [|s l Hs _ IH]; intros sch.
  { change (exec_all driver [] sch) with sch.
    destruct (tables sch !! t) as [cols|]; [|done]. exists []. by rewrite app_nil_r. }
  rewrite exec_all_cons. specialize (IH (step s sch)).
  pose proof (step_columns s sch t Hs) as Hstep.
  destruct (tables sch !! t) as [cols|].
  - destruct Hstep as [more Hstep]. rewrite Hstep in IH.
    destruct IH as [more' IH]. exists (more ++ more'). by rewrite app_assoc.
  - by rewrite Hstep in IH.
Qed.

Lemma exec_all_index l sch n d :
  indexes sch !! n = Some d -> indexes (exec_all driver l sch) !! n = Some d.
Proof.
  revert sch. induction l as [|s l IH]; intros sch Hn; [done|].
  rewrite exec_all_cons. by apply IH, step_index.
Qed.

Lemma exec_all_index_tables l sch :
  Forall is_index_stmt l -> tables (exec_all driver l sch) = tables sch.
Proof.
  intros Hl. revert sch. induction Hl as [|s l Hs _ IH]; intros sch; [done|].
  rewrite exec_all_cons, IH. destruct s; try done. apply step_index_tables.
Qed.

(** *** A statement is inert once it and its successors have run *)

Lemma alter_inert_after l ine ine' t c sch :
  Forall (fun s => creates t s = false) l ->
  inert (ALTER_TABLE_ADD_COLUMN ine' t c)
    (exec_all driver l (step (ALTER_TABLE_ADD_COLUMN ine t c) sch)).
Proof.
  intros Hl. pose proof (exec_all_columns l
    (step (ALTER_TABLE_ADD_COLUMN ine t c) sch) t Hl) as Hend.
  destruct (tables (step (ALTER_TABLE_ADD_COLUMN ine t c) sch) !! t)
    as [cols|] eqn:Ht; [|by apply inert_alter_absent].
  destruct Hend as [more Hend]. eapply inert_alter_has; [done|].
  rewrite has_column_app. apply orb_true_iff. left.
  revert Ht. unfold step. simpl.
  destruct (tables sch !! t) as [cols0|] eqn:E; simpl; [|by rewrite E].
  destruct (has_column (col_name c) cols0) eqn:Hc; simpl.
  - rewrite E. by intros [= <-].
  - rewrite lookup_insert_eq. intros [= <-]. apply has_column_self.
Qed.

Lemma create_table_inert_after l ine ine' t cs cs' sch :
  inert (CREATE_TABLE ine' t cs') (exec_all driver l (step (CREATE_TABLE ine t cs) sch)).
Proof.
  apply inert_create_table, exec_all_present. unfold step. simpl.
  destruct (tables sch !! t) eqn:E; simpl; [by rewrite E|].
  by rewrite lookup_insert_eq.
Qed.

Lemma create_index_inert_after l u ine n t cs sch :
  Forall is_index_stmt l ->
  inert (CREATE_INDEX u ine n t cs)
    (exec_all driver l (step (CREATE_INDEX u ine n t cs) sch)).
Proof.
  intros Hl. unfold inert at 1. unfold step at 1. simpl.
  rewrite exec_all_index_tables, step_index_tables by done.
  destruct (tables sch !! t) as [tcols|] eqn:Ht; [|done].
  destruct (indexes (step (CREATE_INDEX u ine n t cs) sch) !! n) as [d|] eqn:Hn.
  { by rewrite (exec_all_index l _ n d Hn). }
  destruct (indexes (exec_all driver l _) !! n); [done|].
  destruct (forallb _ _) eqn:Hok; [|done]. exfalso.
  revert Hn. unfold step. simpl. rewrite Ht.
  destruct (indexes sch !! n) eqn:E; simpl; [by rewrite E|].
  rewrite Hok. simpl. by rewrite lookup_insert_eq.
Qed.

(** Statements that are all inert: the state and the outcomes. *)
Lemma exec_all_inert l sch :
  Forall (fun s => inert s sch) l ->
  exec_all driver l sch = sch /\
  exec_results driver l sch = (fun s => (execute s sch).2) <$> l.
Proof.
  induction 1 as [|s l Hs _ [IH1 IH2]]; [done|].
  rewrite exec_all_cons. unfold inert, step in Hs. unfold step. rewrite Hs.
  split; [done|]. cbn [exec_results drv_execute_sql driver].
  destruct (execute s sch) as [sch' r] eqn:E. simpl in Hs. subst sch'.
  rewrite IH2. by rewrite fmap_cons, E.
Qed.

Lemma inert_after s l sch :
  settled_by s l -> inert s (exec_all driver l (step s sch)).
Proof.
  destruct s as [t|ine t c|ine t cs|u ine n t cs]; simpl; intros Hl.
  - apply inert_pragma.
  - by apply alter_inert_after.
  - apply create_table_inert_after.
  - by apply create_index_inert_after.
Qed.

Lemma ordered_inert_from pre l sch :
  ordered l -> Forall (fun s => inert s (exec_all driver (pre ++ l) sch)) l.
Proof.
  revert pre. induction l as [|s l IH]; intros pre; [by constructor|].
  intros [Hs Hl]. constructor.
  - rewrite exec_all_app, exec_all_cons. by apply inert_after.
  - specialize (IH (pre ++ [s]) Hl). by rewrite <- app_assoc in IH.
Qed.

(** After an ordered statement list has run, each of its statements is
    inert. *)
Lemma ordered_inert l sch :
  ordered l -> Forall (fun s => inert s (exec_all driver l sch)) l.
Proof. apply (ordered_inert_from []). Qed.

Lemma settled_by_prefix s l l' :
  l `prefix_of` l' -> settled_by s l' -> settled_by s l.
Proof.
  intros [k ->]. destruct s; simpl; try done; by intros [? _]%Forall_app.
Qed.

(** *** Running up to the first failure *)

Lemma strict_exec_prefix (l : list Stmt) sch :
  (strict_exec driver l sch).1.*1 `prefix_of` l.
Proof.
  revert sch. induction l as [|s l IH]; intros sch; [done|].
  cbn [strict_exec drv_execute_sql driver].
  destruct (execute s sch) as [sch1 [e|c]]; simpl.
  - by apply prefix_cons, prefix_nil.
  - specialize (IH sch1). destruct (strict_exec driver l sch1) as [tr sch'].
    simpl in *. by apply prefix_cons.
Qed.

Lemma strict_exec_db (l : list Stmt) sch :
  (strict_exec driver l sch).2 = exec_all driver (strict_exec driver l sch).1.*1 sch.
Proof.
  revert sch. induction l as [|s l IH]; intros sch; [done|].
  cbn [strict_exec drv_execute_sql driver].
  destruct (execute s sch) as [sch1 [e|c]] eqn:E.
  - cbn [fst snd fmap list_fmap]. rewrite exec_all_cons. unfold step.
    by rewrite E.
  - specialize (IH sch1). destruct (strict_exec driver l sch1) as [tr sch'].
    cbn [fst snd fmap list_fmap] in *. rewrite exec_all_cons. unfold step.
    by rewrite E.
Qed.

(** Running an ordered statement list again, from the state the first
    run left, executes only statements that are inert there. *)
Lemma strict_exec_again (l : list Stmt) sch :
  ordered l ->
  let sch' := (strict_exec driver l sch).2 in
  (strict_exec driver l sch').2 = sch' /\
  forall s r, (s, r) ∈ (strict_exec driver l sch').1 ->
    execute s sch' = (sch', r) /\ s ∈ l.
Proof.
  revert sch. induction l as [|s l IH]; intros sch Hord; cbv zeta.
  { split; [done|]. by intros s r ?%elem_of_nil. }
  destruct Hord as [Hs Hord].
  cbn [strict_exec drv_execute_sql driver].
  destruct (execute s sch) as [sch1 [e|c]] eqn:E.
  - assert (sch1 = sch) as ->.
    { pose proof (execute_failed s sch e) as H. unfold step in H.
      rewrite E in H. by apply H. }
    cbn [snd strict_exec drv_execute_sql driver]. rewrite E. cbn [fst snd].
    split; [done|]. intros s' r' [= -> ->]%list_elem_of_singleton.
    split; [done | by left].
  - pose proof (strict_exec_db l sch1) as Hdb.
    pose proof (strict_exec_prefix l sch1) as Hpre.
    specialize (IH sch1 Hord). cbv zeta in IH.
    destruct (strict_exec driver l sch1) as [tr sch'] eqn:E1. cbn [fst snd] in *.
    assert (inert s sch') as Hinert.
    { rewrite Hdb. replace sch1 with (step s sch) by (unfold step; by rewrite E).
      apply inert_after. by eapply settled_by_prefix. }
    cbn [strict_exec drv_execute_sql driver].
    unfold inert, step in Hinert.
    destruct (execute s sch') as [sch2 [e'|c']] eqn:E2; simpl in Hinert; subst sch2.
    + cbn [fst snd]. split; [done|].
      intros s' r' [= -> ->]%list_elem_of_singleton. split; [done | by left].
    + destruct IH as [IH1 IH2].
      destruct (strict_exec driver l sch') as [tr' sch''] eqn:E3. cbn [fst snd] in *.
      split; [done|]. intros s' r' [[= -> ->]|Hin]%elem_of_cons.
      * split; [done | by left].
      * destruct (IH2 _ _ Hin). split; [done | by right].
Qed.

(** *** The column sections on the reference catalog *)

Lemma row_names_table_info cols :
  row_names (table_info cols) = Some (col_name <$> cols).
Proof.
  unfold row_names, table_info. induction cols as [|c cols IH]; [done|].
  cbn [fmap list_fmap mapM]. cbn [fmap list_fmap] in IH. rewrite IH. done.
Qed.

Lemma has_column_false_iff n cols :
  has_column n cols = false <-> n ∉ col_name <$> cols.
Proof. unfold has_column. apply bool_decide_eq_false. Qed.

Lemma schema_insert_same sch t cols :
  tables sch !! t = Some cols ->
  Sch (<[t := cols ++ []]> (tables sch)) (indexes sch) = sch.
Proof.
  intros Ht. rewrite app_nil_r, insert_id by done. by destruct sch.
Qed.

(** The blocks of a column section, on a table that exists: every
    column the check found absent is added, and nothing is raised. *)
Lemma refdb_add_all adds E t sch cols :
  tables sch !! t = Some cols ->
  NoDup (col_name <$> specs_of adds) ->
  (forall c, c ∈ specs_of adds -> col_name c ∉ E ->
             has_column (col_name c) cols = false) ->
  let added := filter (fun c => col_name c ∉ E) (specs_of adds) in
  let o := add_all driver E t adds sch in
  out_result o = inr tt /\
  out_db o = Sch (<[t := cols ++ added]> (tables sch)) (indexes sch) /\
  sql_events (out_events o)
    = (fun c => (ALTER_TABLE_ADD_COLUMN false t c, inr [])) <$> added.
Proof.
  revert sch cols. induction adds as [|[[c adding] added] adds IH];
    intros sch cols Ht Hnd Hinv; cbv zeta.
  { cbn. by rewrite schema_insert_same. }
  cbn [add_all specs_of fmap list_fmap fst] in *.
  apply NoDup_cons in Hnd as [Hc Hnd].
  rewrite bind_unfold, add_if_missing_eq, filter_cons.
  destruct (decide (col_name c ∉ E)) as [Hin|Hin].
  - cbn [drv_execute_sql driver execute].
    rewrite Ht, (Hinv c) by (done || by left).
    cbn [out_result out_events out_db].
    set (sch1 := Sch (<[t := cols ++ [c]]> (tables sch)) (indexes sch)).
    destruct (IH sch1 (cols ++ [c])) as (H1 & H2 & H3); [| done | |].
    + apply lookup_insert_eq.
    + intros c' Hc' HE. rewrite has_column_app, (Hinv c') by (done || by right).
      apply has_column_false_iff. cbn. rewrite list_elem_of_singleton.
      intros Heq. apply Hc. rewrite <- Heq. by apply list_elem_of_fmap_2.
    + split; [done|]. split.
      * rewrite H2. unfold sch1. cbn [tables indexes].
        by rewrite insert_insert_eq, <- app_assoc.
      * rewrite sql_events_app, H3. done.
  - cbn [out_result out_events out_db app].
    apply IH; [done..|]. intros c' Hc'. apply Hinv. by right.
Qed.

(** One column section on the reference catalog. *)
Lemma refdb_section checking t adds sch :
  NoDup (col_name <$> specs_of adds) -> adds <> [] ->
  let o := check_and_add driver checking t adds sch in
  match tables sch !! t with
  | None =>
      (exists e, out_result o = inl e) /\ out_db o = sch /\ quiet sch (out_events o)
  | Some cols =>
      out_result o = inr tt /\
      out_db o = Sch (<[t := cols ++ missing_columns (specs_of adds) cols]> (tables sch))
                   (indexes sch) /\
      (missing_columns (specs_of adds) cols = [] -> quiet sch (out_events o))
  end.
Proof.
  intros Hnd Hne. cbv zeta. rewrite check_and_add_eq.
  cbn [drv_execute_sql driver execute].
  destruct (tables sch !! t) as [cols|] eqn:Ht; cbn [default from_option id].
  - rewrite row_names_table_info.
    destruct (refdb_add_all adds (list_to_set (col_name <$> cols)) t sch cols)
      as (H1 & H2 & H3); [done | done | |].
    { intros c _ Hc. apply has_column_false_iff. by rewrite elem_of_list_to_set in Hc. }
    assert (filter (fun c => col_name c ∉ (list_to_set (col_name <$> cols) : gset string))
              (specs_of adds) = missing_columns (specs_of adds) cols) as Hf.
    { apply list_filter_iff. intros c.
      by rewrite has_column_false_iff, elem_of_list_to_set. }
    rewrite Hf in H2, H3. cbn [out_result out_db out_events].
    split; [done|]. split; [done|]. intros Hnone s r.
    rewrite sql_events_log, sql_events_sql, H3, Hnone. intros [= -> ->]%list_elem_of_singleton.
    split; [|by intros (e & ? & _)]. simpl. by rewrite Ht.
  - change (row_names (table_info [])) with (Some (@nil string)).
    destruct adds as [|[[c adding] added] adds]; [done|].
    cbn [add_all]. rewrite bind_unfold, add_if_missing_eq.
    rewrite decide_True by set_solver.
    cbn [drv_execute_sql driver execute]. rewrite Ht.
    cbn [out_result out_events out_db].
    split; [by eexists|]. split; [done|]. intros s r Hin.
    apply list_elem_of_In in Hin. simpl in Hin.
    destruct Hin as [[= <- <-]|[[= <- <-]|[]]]; simpl; rewrite Ht.
    + split; [done|]. by intros (e & ? & _).
    + split; [done|]. by intros (e & [= <-] & ?).
Qed.

Lemma missing_columns_nil specs cols :
  Forall (fun c => has_column (col_name c) cols = true) specs ->
  missing_columns specs cols = [].
Proof.
  unfold missing_columns. induction 1 as [|c specs Hc _ IH]; [done|].
  rewrite filter_cons, decide_False; [done|]. by rewrite Hc.
Qed.

(** Once the missing columns are added, none is missing, whatever is
    added after them. *)
Lemma missing_columns_after specs cols more :
  missing_columns specs ((cols ++ missing_columns specs cols) ++ more) = [].
Proof.
  apply missing_columns_nil, Forall_forall. intros c Hc.
  rewrite !has_column_app.
  destruct (has_column (col_name c) cols) eqn:Hhas; [done|]. simpl.
  apply orb_true_iff. left. apply bool_decide_eq_true.
  apply list_elem_of_fmap_2. unfold missing_columns. by apply list_elem_of_filter.
Qed.

Lemma quiet_app sch evs evs' :
  quiet sch evs -> quiet sch evs' -> quiet sch (evs ++ evs').
Proof.
  intros H1 H2 s r. rewrite sql_events_app, elem_of_app. intros [?|?]; auto.
Qed.

Lemma nodup_lite_user_adds : NoDup (col_name <$> specs_of lite_user_adds).
Proof. apply (bool_decide_unpack _). by vm_compute. Qed.

Lemma nodup_lite_organization_adds :
  NoDup (col_name <$> specs_of lite_organization_adds).
Proof. apply (bool_decide_unpack _). by vm_compute. Qed.

Lemma ordered_lite_sshkey_statements : ordered lite_sshkey_statements.
Proof. repeat split; by repeat constructor. Qed.

Lemma ordered_pg_statements : ordered pg_statements.
Proof. repeat split; by repeat constructor. Qed.

(** Section 3 of [migrate_sqlite] runs its four statements up to the
    first failure. *)
Lemma sshkey_strict_exec {DB} (drv : Driver DB) db :
  sql_events (out_events (migrate_sqlite_sshkey drv db))
    = (strict_exec drv lite_sshkey_statements db).1 /\
  out_db (migrate_sqlite_sshkey drv db)
    = (strict_exec drv lite_sshkey_statements db).2.
Proof.
  unfold migrate_sqlite_sshkey, bind, execute_sql, logger, lite_sshkey_statements,
    sshkey_indexes.
  cbn [strict_exec].
  repeat match goal with
         | |- context [drv_execute_sql drv ?s ?d] =>
             destruct (drv_execute_sql drv s d) as [? [?|?]]; cbn; try done
         end.
Qed.

(** The state a run of section 3 leaves keeps the columns of the
    other tables. *)
Lemma sshkey_keeps_columns sch t cols :
  t <> "sshkey" -> tables sch !! t = Some cols ->
  exists more,
    tables (out_db (migrate_sqlite_sshkey driver sch)) !! t = Some (cols ++ more).
Proof.
  intros Hne Ht.
  rewrite (proj2 (sshkey_strict_exec driver sch)), strict_exec_db.
  pose proof (strict_exec_prefix lite_sshkey_statements sch) as [k Hk].
  assert (Forall (fun s => creates t s = false) lite_sshkey_statements) as Hall.
  { repeat constructor. simpl. by apply bool_decide_eq_false. }
  rewrite Hk in Hall. apply Forall_app in Hall as [Hall _].
  pose proof (exec_all_columns _ sch t Hall) as Hcols. by rewrite Ht in Hcols.
Qed.

(** Section 3, run again from the state it left. *)
Lemma sshkey_again sch :
  let once := out_db (migrate_sqlite_sshkey driver sch) in
  out_db (migrate_sqlite_sshkey driver once) = once /\
  quiet once (out_events (migrate_sqlite_sshkey driver once)).
Proof.
  cbv zeta.
  destruct (sshkey_strict_exec driver sch) as [_ Hdb].
  destruct (sshkey_strict_exec driver (out_db (migrate_sqlite_sshkey driver sch)))
    as [Hev' Hdb'].
  destruct (strict_exec_again lite_sshkey_statements sch
              ordered_lite_sshkey_statements) as [Hsame Hquiet].
  rewrite <- Hdb in Hsame, Hquiet. rewrite <- Hdb', <- Hev' in *.
  split; [done|]. intros s r Hin. destruct (Hquiet s r Hin) as [Hex Hs].
  split; [done|]. replace r with (execute s (out_db (migrate_sqlite_sshkey driver sch))).2
    by (by rewrite Hex).
  apply guarded_not_duplicate. apply list_elem_of_In in Hs. simpl in Hs.
  by repeat destruct Hs as [<-|Hs].
Qed.

(** A column section whose table already has its columns. *)
Lemma section_again checking t adds sch cols more :
  NoDup (col_name <$> specs_of adds) -> adds <> [] ->
  tables sch !! t = Some ((cols ++ missing_columns (specs_of adds) cols) ++ more) ->
  let o := check_and_add driver checking t adds sch in
  out_result o = inr tt /\ out_db o = sch /\ quiet sch (out_events o).
Proof.
  intros Hnd Hne Ht. cbv zeta.
  pose proof (refdb_section checking t adds sch Hnd Hne) as H. cbv zeta in H.
  rewrite Ht, missing_columns_after in H. destruct H as (H1 & H2 & H3).
  split; [done|]. split; [|by apply H3].
  rewrite H2. by apply schema_insert_same.
Qed.

Lemma outcome_failed {A} (o : Outcome Schema A) e :
  out_result o = inl e -> Out (out_events o) (out_db o) (inl e) = o.
Proof. destruct o as [evs db r]. simpl. by intros ->. Qed.

(** [migrate_sqlite], run again from the state it left. *)
Lemma migrate_sqlite_again sch :
  let once := out_db (migrate_sqlite driver sch) in
  out_db (migrate_sqlite driver once) = once /\
  quiet once (out_events (migrate_sqlite driver once)).
Proof.
  cbv zeta.
  pose proof (refdb_section "Checking User table schema..." "user" lite_user_adds
    sch nodup_lite_user_adds ltac:(done)) as S1. cbv zeta in S1.
  destruct (tables sch !! "user") as [cu|] eqn:Hu.
  - destruct S1 as (R1 & D1 & _).
    set (s1 := Sch (<["user" := cu ++ missing_columns (specs_of lite_user_adds) cu]>
                      (tables sch)) (indexes sch)) in *.
    assert (tables s1 !! "user"
            = Some (cu ++ missing_columns (specs_of lite_user_adds) cu)) as Hu1
      by apply lookup_insert_eq.
    assert (tables s1 !! "organization" = tables sch !! "organization") as Ho1
      by (by apply lookup_insert_ne).
    pose proof (refdb_section "Checking Organization table schema..." "organization"
      lite_organization_adds s1 nodup_lite_organization_adds ltac:(done)) as S2.
    cbv zeta in S2. rewrite Ho1 in S2.
    destruct (tables sch !! "organization") as [co|] eqn:Ho.
    + destruct S2 as (R2 & D2 & _).
      set (s2 := Sch (<["organization" :=
                          co ++ missing_columns (specs_of lite_organization_adds) co]>
                        (tables s1)) (indexes s1)) in *.
      assert (out_db (migrate_sqlite driver sch)
              = out_db (migrate_sqlite_sshkey driver s2)) as Honce.
      { rewrite migrate_sqlite_unfold. cbv zeta. by rewrite R1, D1, R2, D2. }
      rewrite Honce.
      assert (tables s2 !! "user"
              = Some (cu ++ missing_columns (specs_of lite_user_adds) cu)) as Hu2.
      { unfold s2. cbn [tables]. by rewrite lookup_insert_ne. }
      assert (tables s2 !! "organization"
              = Some (co ++ missing_columns (specs_of lite_organization_adds) co))
        as Ho2 by apply lookup_insert_eq.
      destruct (sshkey_keeps_columns s2 "user" _ ltac:(done) Hu2) as [mu Hu3].
      destruct (sshkey_keeps_columns s2 "organization" _ ltac:(done) Ho2) as [mo Ho3].
      destruct (sshkey_again s2) as [D3 Q3].
      set (once := out_db (migrate_sqlite_sshkey driver s2)) in *.
      destruct (section_again "Checking User table schema..." "user" lite_user_adds
        once cu mu nodup_lite_user_adds ltac:(done) Hu3) as (R1' & D1' & Q1').
      destruct (section_again "Checking Organization table schema..." "organization"
        lite_organization_adds once co mo nodup_lite_organization_adds
        ltac:(done) Ho3) as (R2' & D2' & Q2').
      rewrite migrate_sqlite_unfold. cbv zeta.
      rewrite R1', D1', R2', D2'. cbn [out_db out_events].
      split; [done|]. by repeat apply quiet_app.
    + destruct S2 as ([e He] & D2 & Q2).
      assert (migrate_sqlite driver sch
              = Out (out_events (check_and_add driver "Checking User table schema..."
                                   "user" lite_user_adds sch)
                     ++ out_events (check_and_add driver
                          "Checking Organization table schema..." "organization"
                          lite_organization_adds s1)) s1 (inl e)) as Hrun.
      { rewrite migrate_sqlite_unfold. cbv zeta. by rewrite R1, D1, He, D2. }
      rewrite Hrun. cbn [out_db].
      assert (tables s1 !! "user"
              = Some ((cu ++ missing_columns (specs_of lite_user_adds) cu) ++ []))
        as Hu1' by (by rewrite app_nil_r).
      destruct (section_again "Checking User table schema..." "user" lite_user_adds
        s1 cu [] nodup_lite_user_adds ltac:(done) Hu1') as (R1' & D1' & Q1').
      rewrite migrate_sqlite_unfold. cbv zeta.
      rewrite R1', D1', He, D2. cbn [out_db out_events].
      split; [done|]. by apply quiet_app.
  - destruct S1 as ([e He] & D1 & Q1).
    assert (migrate_sqlite driver sch
            = check_and_add driver "Checking User table schema..." "user"
                lite_user_adds sch) as Hrun.
    { rewrite migrate_sqlite_unfold. cbv zeta. rewrite He. by apply outcome_failed. }
    by rewrite !Hrun, !D1, !Hrun, !D1.
Qed.

Lemma zip_outcomes (l : list Stmt) sch :
  zip l ((fun s => (execute s sch).2) <$> l) = (fun s => (s, (execute s sch).2)) <$> l.
Proof. induction l as [|s l IH]; [done|]. cbn. by rewrite IH. Qed.

(** [migrate_postgres], run again from the state it left. *)
Lemma migrate_postgres_again sch :
  let once := out_db (migrate_postgres driver sch) in
  out_db (migrate_postgres driver once) = once /\
  quiet once (out_events (migrate_postgres driver once)).
Proof.
  cbv zeta. rewrite !migrate_postgres_eq. cbn [out_db out_events].
  pose proof (ordered_inert pg_statements sch ordered_pg_statements) as Hinert.
  generalize dependent (exec_all driver pg_statements sch). intros once Hinert.
  destruct (exec_all_inert pg_statements once Hinert) as [Hdb Hres].
  split; [exact Hdb|]. intros s r. rewrite pg_plan_sql_events.
  change (pg_stmts pg_plan) with pg_statements. rewrite Hres, zip_outcomes.
  intros (s' & [= <- ->] & Hs)%list_elem_of_fmap.
  rewrite Forall_forall in Hinert. specialize (Hinert s Hs).
  unfold inert, step in Hinert. split.
  - clear -Hinert. destruct (execute s once) as [sch' r'].
    cbn [fst snd] in *. by subst.
  - apply guarded_not_duplicate. apply list_elem_of_In in Hs. simpl in Hs.
    by repeat destruct Hs as [<-|Hs].
Qed.

End Catalog.

(** ** Idempotence *)

Lemma quiet_no_sql sch evs : sql_events evs = [] -> quiet sch evs.
Proof. intros H s r. rewrite H. by intros ?%elem_of_nil. Qed.

(** On the reference catalog a second run leaves the schema as the
    first run left it, and every statement of the second run leaves
    that schema unchanged and does not fail on an object that already
    exists. *)
Lemma refdb_idempotent (b : string) (sch : RefDb.Schema) :
  let once := RefDb.run b sch in
  let again := migrate RefDb.driver b once in
  out_db again = once /\ quiet once (out_events again).
Proof.
  cbv zeta. unfold RefDb.run. rewrite !migrate_unfold.
  cbn [drv_connect RefDb.driver]. cbv zeta. cbn [out_db out_events].
  destruct (String.eqb b "postgres").
  - destruct (migrate_postgres_again sch) as [Hdb Hq]. split; [done|].
    apply (quiet_app _ [_; _; _; _]); [by apply quiet_no_sql|].
    apply quiet_app; [done|]. apply quiet_no_sql. by destruct (out_result _).
  - destruct (migrate_sqlite_again sch) as [Hdb Hq]. split; [done|].
    apply (quiet_app _ [_; _; _; _]); [by apply quiet_no_sql|].
    apply quiet_app; [done|]. apply quiet_no_sql. by destruct (out_result _).
Qed.

(** An unguarded run on the catalog of SQLite, from a schema whose
    [user] table has the first quota column in another spelling only. *)
Lemma case_variant_run (b : string) (sch : RefDb.Schema) (cols : list ColumnDef) :
  b <> "postgres" ->
  RefDb.tables sch !! "user" = Some cols ->
  "private_quota_bytes" ∉ col_name <$> cols ->
  LiteDb.has_column "private_quota_bytes" cols = true ->
  migrate LiteDb.driver b sch
  = Out [ EvConnect None; EvLog Info "Starting database migration...";
          EvReadBackend b; EvLog Info "Detected SQLite database";
          EvLog Info "Checking User table schema...";
          EvSql (PRAGMA_table_info "user") (inr (RefDb.table_info cols));
          EvLog Info "Adding private_quota_bytes to User...";
          EvSql (ALTER_TABLE_ADD_COLUMN false "user" lite_private_quota_bytes)
                (inl (RefDb.duplicate "duplicate column name: private_quota_bytes")) ]
        sch (inl (RefDb.duplicate "duplicate column name: private_quota_bytes")).
Proof.
  intros Hb Ht Hex Hci.
  assert (check_and_add LiteDb.driver "Checking User table schema..." "user"
            lite_user_adds sch
          = Out [ EvLog Info "Checking User table schema...";
                  EvSql (PRAGMA_table_info "user") (inr (RefDb.table_info cols));
                  EvLog Info "Adding private_quota_bytes to User...";
                  EvSql (ALTER_TABLE_ADD_COLUMN false "user" lite_private_quota_bytes)
                        (inl (RefDb.duplicate
                                "duplicate column name: private_quota_bytes")) ]
                sch (inl (RefDb.duplicate "duplicate column name: private_quota_bytes")))
    as Hsec.
  { rewrite check_and_add_eq. cbn [drv_execute_sql LiteDb.driver LiteDb.execute].
    change (lower "user") with "user". rewrite Ht. cbn [default from_option id].
    rewrite row_names_table_info. unfold lite_user_adds. cbn [add_all].
    rewrite bind_unfold, add_if_missing_eq.
    rewrite decide_True by (by rewrite elem_of_list_to_set).
    cbn [drv_execute_sql LiteDb.driver LiteDb.execute].
    change (lower "user") with "user". rewrite Ht.
    change (col_name lite_private_quota_bytes) with "private_quota_bytes".
    by rewrite Hci. }
  rewrite migrate_unfold. cbn [drv_connect LiteDb.driver].
  rewrite (eqb_postgres_false b Hb). cbv zeta.
  rewrite migrate_sqlite_unfold. cbv zeta. by rewrite Hsec.
Qed.

(** C1: the claim does not hold of the script on SQLite.  The check of
    the unguarded strategy, ["<column>" not in existing_columns],
    compares column names as they are spelled; SQLite compares them
    without regard to the case of letters.  On the catalog of SQLite,
    when the [user] table has the column [private_quota_bytes] in
    another spelling only, the introspection does not report that name,
    the script issues the addition, SQLite refuses it as a duplicate
    column and, there being no handler, the run ends there and leaves
    the schema as it was.  The second run starts from the same schema
    and does the same: it leaves the schema as the first run left it,
    but it performs a duplicate-erroring operation. *)
Theorem case_variant_defeats_check (b : string) (sch : RefDb.Schema)
  (cols : list ColumnDef) :
  b <> "postgres" ->
  RefDb.tables sch !! "user" = Some cols ->
  "private_quota_bytes" ∉ col_name <$> cols ->
  LiteDb.has_column "private_quota_bytes" cols = true ->
  let once := LiteDb.run b sch in
  let again := migrate LiteDb.driver b once in
  once = sch /\
  out_db again = once /\
  out_result again
    = inl (RefDb.duplicate "duplicate column name: private_quota_bytes") /\
  sql_events (out_events again)
    = [ (PRAGMA_table_info "user", inr (RefDb.table_info cols));
        (ALTER_TABLE_ADD_COLUMN false "user" lite_private_quota_bytes,
         inl (RefDb.duplicate "duplicate column name: private_quota_bytes")) ] /\
  row_names (RefDb.table_info cols) = Some (col_name <$> cols) /\
  ~ quiet_on LiteDb.driver once (out_events again).
Proof.
  intros Hb Ht Hex Hci. cbv zeta. unfold LiteDb.run.
  rewrite (case_variant_run b sch cols) by done. cbn [out_db].
  rewrite (case_variant_run b sch cols) by done. cbn [out_db out_result out_events].
  split; [done|]. split; [done|]. split; [done|]. split; [done|].
  split; [apply row_names_table_info|].
  intros Hq.
  destruct (Hq (ALTER_TABLE_ADD_COLUMN false "user" lite_private_quota_bytes)
              (inl (RefDb.duplicate "duplicate column name: private_quota_bytes")))
    as [_ Hnd].
  - right. by left.
  - apply Hnd. by eexists.
Qed.

(** The [user] table with the column [PRIVATE_QUOTA_BYTES]: both runs
    end in the duplicate-column error of SQLite. *)
Lemma case_variant_defeats_check_witness :
  LiteDb.run "sqlite" LiteDb.upper_case = LiteDb.upper_case /\
  out_result (migrate LiteDb.driver "sqlite" (LiteDb.run "sqlite" LiteDb.upper_case))
    = inl (RefDb.duplicate "duplicate column name: private_quota_bytes") /\
  ~ quiet_on LiteDb.driver (LiteDb.run "sqlite" LiteDb.upper_case)
      (out_events (migrate LiteDb.driver "sqlite"
                     (LiteDb.run "sqlite" LiteDb.upper_case))).
Proof.
  destruct (case_variant_defeats_check "sqlite" LiteDb.upper_case
              [Col "id" INTEGER [PRIMARY_KEY];
               Col "PRIVATE_QUOTA_BYTES" INTEGER [DEFAULT DNull]])
    as (H1 & _ & H3 & _ & _ & H6).
  - done.
  - by vm_compute.
  - apply (bool_decide_unpack _). by vm_compute.
  - by vm_compute.
  - by repeat split.
Defined.

(** The statements of a second run on the end-to-end schema: the
    unguarded strategy introspects and adds nothing. *)
Example second_run_statements :
  sql_trace (out_events (migrate RefDb.driver "sqlite" (RefDb.run "sqlite" RefDb.legacy)))
    = PRAGMA_table_info "user" :: PRAGMA_table_info "organization"
      :: lite_sshkey_statements /\
  sql_trace (out_events (migrate RefDb.driver "postgres" (RefDb.run "postgres" RefDb.legacy)))
    = pg_statements /\
  out_result (migrate RefDb.driver "sqlite" (RefDb.run "sqlite" RefDb.legacy)) = inr tt.
Proof. repeat split; by vm_compute. Qed.

(** The end-to-end scenario of the spec, under either strategy: both
    tables get the four columns, the credential-key table has eight
    columns and three indexes, and the run reports success. *)
Example end_to_end :
  Forall (fun b =>
    let o := migrate RefDb.driver b RefDb.legacy in
    out_result o = inr tt /\
    last (out_events o) = Some completed /\
    name_and_default <$> drop 2 (default [] (RefDb.tables (out_db o) !! "user"))
      = name_and_default <$> pg_quota_columns /\
    name_and_default <$> drop 2 (default [] (RefDb.tables (out_db o) !! "organization"))
      = name_and_default <$> pg_quota_columns /\
    length <$> (RefDb.tables (out_db o) !! "sshkey") = Some 8%nat /\
    size (RefDb.indexes (out_db o)) = 3%nat)
  ["postgres"; "sqlite"].
Proof. repeat constructor; by vm_compute. Qed.

(** * Further properties of the migration script *)

(** ** Failures *)

(** X1: a failure to connect is fatal before anything else happens:
    [migrate] raises the exception of [db.connect], under either
    backend value, without reading the backend, logging or executing a
    statement, and leaves the database as it was. *)
Theorem connection_failure_is_fatal {DB} (drv : Driver DB) (db : DB) (b : string)
  (e : Exn) :
  drv_connect drv db = inl e ->
  let o := migrate drv b db in
  out_result o = inl e /\
  out_events o = [EvConnect (Some e)] /\
  sql_trace (out_events o) = [] /\
  out_db o = db.
Proof. intros Hc. cbv zeta. by rewrite migrate_unfold, Hc. Qed.

Lemma connection_failure_is_fatal_witness :
  let o := migrate unreachable "postgres" tt in
  out_result o = inl unreachable_exn /\
  out_events o = [EvConnect (Some unreachable_exn)] /\
  sql_trace (out_events o) = [] /\
  out_db o = tt.
Proof. apply (connection_failure_is_fatal unreachable tt "postgres"). reflexivity. Defined.

Lemma failed_unguarded_not_completed {DB} (drv : Driver DB) db b e :
  String.eqb b "postgres" = false ->
  out_result (migrate drv b db) = inl e ->
  completed ∉ out_events (migrate drv b db).
Proof.
  intros Hb. rewrite migrate_unfold, Hb.
  destruct (drv_connect drv db) as [e'|db1]; cbn [out_events out_result].
  { intros _ Hin. apply list_elem_of_In in Hin. simpl in Hin. by destruct Hin. }
  intros ->. rewrite app_nil_r, elem_of_app. intros [Hin|Hin].
  - by apply not_completed_prefix in Hin.
  - by apply migrate_sqlite_not_completed in Hin.
Qed.

(** X2: under the unguarded strategy no statement has a handler: a
    failure of any statement -- an introspection, an addition, the
    table creation or an index creation -- is the last event of the
    run, its exception is the result of [migrate], and the success
    event is not emitted. *)
Theorem unguarded_any_failure_is_fatal {DB} (drv : Driver DB) (db : DB) (b : string)
  (pre post : list Event) (s : Stmt) (e : Exn) :
  b <> "postgres" ->
  out_events (migrate drv b db) = pre ++ EvSql s (inl e) :: post ->
  post = [] /\
  out_result (migrate drv b db) = inl e /\
  (completed ∉ out_events (migrate drv b db)).
Proof.
  intros Hb%eqb_postgres_false Heq.
  pose proof (migrate_unguarded_strict drv b Hb db) as Hstrict.
  cbv beta in Hstrict. rewrite Heq in Hstrict.
  apply strict_split in Hstrict as [-> Hres].
  assert (out_result (migrate drv b db) = inl e) as Hr.
  { destruct (out_result (migrate drv b db)); by simplify_eq/=. }
  split; [done|]. split; [done|]. by eapply failed_unguarded_not_completed.
Qed.

(** The reference catalog, refusing the second index: the run stops at
    that statement. *)
Lemma unguarded_any_failure_is_fatal_witness :
  let drv := failing_on (fun s =>
    bool_decide (s = CREATE_INDEX false true "sshkey_fingerprint" "sshkey"
                       ["fingerprint"])) in
  out_result (migrate drv "sqlite" RefDb.legacy) = inl denied /\
  (completed ∉ out_events (migrate drv "sqlite" RefDb.legacy)).
Proof.
  cbv zeta.
  destruct (unguarded_any_failure_is_fatal
    (failing_on (fun s =>
       bool_decide (s = CREATE_INDEX false true "sshkey_fingerprint" "sshkey"
                          ["fingerprint"])))
    RefDb.legacy "sqlite"
    (take 36 (out_events (migrate (failing_on (fun s =>
       bool_decide (s = CREATE_INDEX false true "sshkey_fingerprint" "sshkey"
                          ["fingerprint"]))) "sqlite" RefDb.legacy)))
    []
    (CREATE_INDEX false true "sshkey_fingerprint" "sshkey" ["fingerprint"])
    denied) as (_ & Hres & Hnot); [done | by vm_compute |].
  by split.
Defined.

(** ** Introspection *)

Section Introspection.

Context {DB : Type} (drv : Driver DB).

Lemma short_row_fatal_free evs r : introspection_free evs -> short_row_fatal evs r.
Proof.
  intros Hfree pre t rows post -> _.
  apply Forall_app in Hfree as [_ Hfree]. by inversion Hfree.
Qed.

Lemma short_row_fatal_sequential :
  sequential (fun (_ : DB) evs _ r => short_row_fatal evs r).
Proof.
  intros _ evs1 _ evs2 _ r H1 H2 pre t rows post Heq Hrows.
  apply app_eq_mid in Heq as [(post1 & Heq & _)|(pre2 & -> & Heq)].
  - by destruct (H1 _ _ _ _ Heq Hrows).
  - by eapply H2.
Qed.

Lemma add_all_introspection_free E t adds db :
  introspection_free (out_events (add_all drv E t adds db)).
Proof.
  eapply Forall_impl; [apply add_all_events|]. by intros [| | |[] ?].
Qed.

Lemma check_and_add_short_row checking t adds :
  holds (fun _ evs _ r => short_row_fatal evs r) (check_and_add drv checking t adds).
Proof.
  intros db. rewrite check_and_add_eq.
  destruct (drv_execute_sql drv _ db) as [db1 [e|rows]]; cbn [out_events out_result].
  { intros pre t' rows' post Heq _.
    destruct pre as [|ev1 [|ev2 pre]]; [done|done|].
    injection Heq as _ _ Heq. by destruct pre. }
  destruct (row_names rows) as [names|] eqn:Hnames; cbn [out_events out_result].
  - intros pre t' rows' post Heq Hrows.
    destruct pre as [|ev1 [|ev2 pre]]; [done| |].
    + injection Heq as _ _ <- _. by rewrite Hnames in Hrows.
    + injection Heq as _ _ Heq.
      pose proof (add_all_introspection_free (list_to_set names) t adds db1) as Hfree.
      rewrite Heq in Hfree. apply Forall_app in Hfree as [_ Hfree].
      by inversion Hfree.
  - intros pre t' rows' post Heq Hrows.
    destruct pre as [|ev1 [|ev2 pre]]; [done| |].
    + by injection Heq as _ _ _ <-.
    + injection Heq as _ _ Heq. by destruct pre.
Qed.

Lemma migrate_sqlite_sshkey_introspection_free db :
  introspection_free (out_events (migrate_sqlite_sshkey drv db)).
Proof.
  unfold migrate_sqlite_sshkey, bind, execute_sql, logger. simpl.
  repeat match goal with
         | |- context [drv_execute_sql drv ?s ?d] =>
             destruct (drv_execute_sql drv s d) as [? [?|?]]; simpl;
             try by repeat constructor
         end.
Qed.

Lemma migrate_sqlite_short_row :
  holds (fun _ evs _ r => short_row_fatal evs r) (migrate_sqlite drv).
Proof.
  unfold migrate_sqlite.
  apply (holds_bind _ (migrate_sqlite_user drv));
    [apply short_row_fatal_sequential| |intros _].
  2: apply (holds_bind _ (migrate_sqlite_organization drv));
    [apply short_row_fatal_sequential| |intros _].
  - intros db. rewrite migrate_sqlite_user_eq. apply check_and_add_short_row.
  - intros db. rewrite migrate_sqlite_organization_eq. apply check_and_add_short_row.
  - intros db. apply short_row_fatal_free, migrate_sqlite_sshkey_introspection_free.
Qed.

Lemma introspection_free_filter evs :
  introspection_free evs -> filter is_introspection (sql_trace evs) = [].
Proof.
  induction 1 as [|ev evs Hev _ IH]; [done|].
  by destruct ev as [| | |[] r].
Qed.

(** The introspections of one column section: the one at its start. *)
Lemma check_and_add_introspections checking t adds db :
  filter is_introspection (sql_trace (out_events (check_and_add drv checking t adds db)))
    = [PRAGMA_table_info t].
Proof.
  rewrite check_and_add_eq.
  destruct (drv_execute_sql drv _ db) as [db1 [e|rows]]; [done|].
  destruct (row_names rows) as [names|]; [|done]. cbn [out_events].
  change (sql_trace (EvLog Info checking :: EvSql (PRAGMA_table_info t) (inr rows)
                     :: out_events (add_all drv (list_to_set names) t adds db1)))
    with (PRAGMA_table_info t
          :: sql_trace (out_events (add_all drv (list_to_set names) t adds db1))).
  rewrite filter_cons, decide_True by done.
  by rewrite introspection_free_filter by apply add_all_introspection_free.
Qed.

End Introspection.

(** X3: in [migrate_sqlite] the column names are read as [row[1]] of
    the introspection rows.  When a successful introspection returns a
    row with fewer than two fields, the run ends there with
    [IndexError]: the introspection is the last event and no statement
    follows it. *)
Theorem short_introspection_row_is_fatal {DB} (drv : Driver DB) (db : DB)
  (pre post : list Event) (t : string) (rows : Cursor) :
  out_events (migrate_sqlite drv db)
    = pre ++ EvSql (PRAGMA_table_info t) (inr rows) :: post ->
  row_names rows = None ->
  post = [] /\ out_result (migrate_sqlite drv db) = inl index_error.
Proof.
  intros Heq Hrows.
  destruct (migrate_sqlite_short_row drv db _ _ _ _ Heq Hrows) as [-> Hr].
  split; [done|]. by destruct (out_result (migrate_sqlite drv db)); simplify_eq/=.
Qed.

(** A database whose introspection rows have a single field. *)
Lemma short_introspection_row_is_fatal_witness :
  out_result (migrate_sqlite short_rows tt) = inl index_error /\
  sql_trace (out_events (migrate_sqlite short_rows tt)) = [PRAGMA_table_info "user"].
Proof.
  split; [|reflexivity].
  apply (short_introspection_row_is_fatal short_rows tt
           [EvLog Info "Checking User table schema..."] [] "user" [["0"]]);
    reflexivity.
Defined.

(** X4: [migrate_sqlite] introspects each table once, at the start of
    its section, and never again: the introspections of a run are that
    of [user], followed -- when the section of [user] raised nothing --
    by that of [organization].  The additions to a table all rely on
    the one set of column names read before them. *)
Theorem introspected_once_per_table {DB} (drv : Driver DB) (db : DB) :
  let queries :=
    filter is_introspection (sql_trace (out_events (migrate_sqlite drv db))) in
  (queries = [PRAGMA_table_info "user"] \/
   queries = [PRAGMA_table_info "user"; PRAGMA_table_info "organization"]) /\
  (out_result (migrate_sqlite drv db) = inr tt ->
   queries = [PRAGMA_table_info "user"; PRAGMA_table_info "organization"]).
Proof.
  cbv zeta. rewrite migrate_sqlite_unfold. cbv zeta.
  pose proof (check_and_add_introspections drv "Checking User table schema..." "user"
    lite_user_adds db) as H1.
  destruct (check_and_add drv _ "user" _ db) as [evs1 db1 [e|[]]];
    cbn [out_events out_result out_db] in *.
  { split; [by left | done]. }
  pose proof (check_and_add_introspections drv "Checking Organization table schema..."
    "organization" lite_organization_adds db1) as H2.
  destruct (check_and_add drv _ "organization" _ db1) as [evs2 db2 [e|[]]];
    cbn [out_events out_result out_db] in *.
  { rewrite sql_trace_app, filter_app, H1, H2. split; [by right | done]. }
  rewrite !sql_trace_app, !filter_app, H1, H2.
  rewrite (introspection_free_filter _
             (migrate_sqlite_sshkey_introspection_free drv db2)).
  split; [by right | done].
Qed.

Lemma introspected_once_per_table_witness :
  filter is_introspection
    (sql_trace (out_events (migrate_sqlite RefDb.driver RefDb.legacy)))
  = [PRAGMA_table_info "user"; PRAGMA_table_info "organization"].
Proof.
  apply (proj2 (introspected_once_per_table RefDb.driver RefDb.legacy)).
  by vm_compute.
Defined.

(** ** Runs on the reference catalog *)

Section CatalogRuns.

Import RefDb.

Implicit Types (sch : Schema) (s : Stmt) (cols : list ColumnDef).

(** *** What statements leave alone *)





(** *** The additions to one table *)



End CatalogRuns.

Section CatalogMigration.

Import RefDb.

Implicit Types (sch : Schema) (s : Stmt) (cols : list ColumnDef).


Lemma run_unguarded_eq b sch :
  b <> "postgres" ->
  run b sch = out_db (migrate_sqlite driver sch) /\
  out_result (migrate driver b sch) = out_result (migrate_sqlite driver sch).
Proof.
  intros Hb%eqb_postgres_false. unfold run. rewrite migrate_unfold.
  cbn [drv_connect driver]. by rewrite Hb.
Qed.






End CatalogMigration.

Section CatalogTable.

Import RefDb.

Implicit Types (sch : Schema) (s : Stmt) (cols : list ColumnDef).





End CatalogTable.

(** ** The script on two databases that agree on its statements *)

Section Agreement.

Context {DB : Type} (drv1 drv2 : Driver DB) (Inv : DB -> Prop).

Hypothesis connect_agrees : forall db,
  Inv db ->
  drv_connect drv1 db = drv_connect drv2 db /\
  (forall db', drv_connect drv2 db = inr db' -> Inv db').

Hypothesis execute_agrees : forall s db,
  scripted s = true -> Inv db ->
  drv_execute_sql drv1 s db = drv_execute_sql drv2 s db /\
  Inv (drv_execute_sql drv2 s db).1.

Lemma agree_bind {A B} (m1 m2 : M DB A) (k1 k2 : A -> M DB B) :
  agree Inv m1 m2 -> (forall a, agree Inv (k1 a) (k2 a)) ->
  agree Inv (bind m1 k1) (bind m2 k2).
Proof.
  intros Hm Hk db HI. destruct (Hm db HI) as (E & I1 & S1).
  unfold bind. rewrite E. destruct (m2 db) as [evs db1 [e|a]]; [done|].
  cbn [out_db out_events] in *. destruct (Hk a db1 I1) as (E' & I2 & S2).
  rewrite E'. destruct (k2 a db1) as [evs' db2 r]. cbn [out_db out_events] in *.
  split; [done|]. split; [done|]. by apply Forall_app.
Qed.

Lemma agree_try_except {A} (m1 m2 : M DB A) (h1 h2 : Exn -> M DB A) :
  agree Inv m1 m2 -> (forall e, agree Inv (h1 e) (h2 e)) ->
  agree Inv (try_except m1 h1) (try_except m2 h2).
Proof.
  intros Hm Hh db HI. destruct (Hm db HI) as (E & I1 & S1).
  unfold try_except. rewrite E. destruct (m2 db) as [evs db1 [e|a]]; [|done].
  cbn [out_db out_events] in *. destruct (Hh e db1 I1) as (E' & I2 & S2).
  rewrite E'. destruct (h2 e db1) as [evs' db2 r]. cbn [out_db out_events] in *.
  split; [done|]. split; [done|]. by apply Forall_app.
Qed.

Lemma agree_ret {A} (a : A) : agree Inv (ret a) (ret a).
Proof. by intros db HI. Qed.

Lemma agree_logger l msg : agree Inv (logger l msg) (logger l msg).
Proof. intros db HI. cbn. by repeat constructor. Qed.

Lemma agree_read_db_backend b : agree Inv (read_db_backend b) (read_db_backend b).
Proof. intros db HI. cbn. by repeat constructor. Qed.

Lemma agree_fetch_existing_columns rows :
  agree Inv (fetch_existing_columns rows) (fetch_existing_columns rows).
Proof. intros db HI. unfold fetch_existing_columns. by destruct (row_names rows). Qed.

Lemma agree_connect : agree Inv (connect drv1) (connect drv2).
Proof.
  intros db HI. destruct (connect_agrees db HI) as [E I1]. unfold connect.
  rewrite E. destruct (drv_connect drv2 db) as [e|db']; cbn.
  - by repeat constructor.
  - split; [done|]. split; [by apply I1 | by repeat constructor].
Qed.

Lemma agree_execute_sql s :
  scripted s = true -> agree Inv (execute_sql drv1 s) (execute_sql drv2 s).
Proof.
  intros Hs db HI. destruct (execute_agrees s db Hs HI) as [E I1].
  unfold execute_sql. rewrite E. destruct (drv_execute_sql drv2 s db) as [db' r].
  cbn in *. split; [done|]. split; [done|]. by repeat constructor.
Qed.

Lemma agree_try_execute s ok_msg might :
  scripted s = true ->
  agree Inv (try_execute drv1 s ok_msg might) (try_execute drv2 s ok_msg might).
Proof.
  intros Hs. apply agree_try_except; [|intros e; apply agree_logger].
  apply agree_bind; [by apply agree_execute_sql | intros _; apply agree_logger].
Qed.

Lemma agree_add_if_missing E t c adding added :
  scripted (ALTER_TABLE_ADD_COLUMN false t c) = true ->
  agree Inv (add_if_missing drv1 E t c adding added)
    (add_if_missing drv2 E t c adding added).
Proof.
  intros Hs. unfold add_if_missing. case_decide; [|apply agree_ret].
  apply agree_bind; [apply agree_logger | intros _].
  apply agree_bind; [by apply agree_execute_sql | intros _; apply agree_logger].
Qed.

Ltac agree_step :=
  first [ apply agree_logger
        | apply agree_ret
        | apply agree_read_db_backend
        | apply agree_fetch_existing_columns
        | apply agree_connect
        | apply agree_execute_sql; reflexivity
        | apply agree_try_execute; reflexivity
        | apply agree_add_if_missing; reflexivity
        | apply agree_bind; [|intros ?] ].

Lemma agree_migrate_postgres : agree Inv (migrate_postgres drv1) (migrate_postgres drv2).
Proof. unfold migrate_postgres. repeat agree_step. Qed.

Lemma agree_migrate_sqlite : agree Inv (migrate_sqlite drv1) (migrate_sqlite drv2).
Proof.
  unfold migrate_sqlite, migrate_sqlite_user, migrate_sqlite_organization,
    migrate_sqlite_sshkey.
  repeat agree_step.
Qed.

(** The whole script runs alike on the two databases. *)
Lemma agree_migrate b : agree Inv (migrate drv1 b) (migrate drv2 b).
Proof.
  unfold migrate.
  apply agree_bind; [apply agree_connect | intros _].
  apply agree_bind; [apply agree_logger | intros _].
  apply agree_bind; [apply agree_read_db_backend | intros a].
  apply agree_bind; [|intros _; apply agree_logger].
  destruct (String.eqb a "postgres");
    (apply agree_bind; [apply agree_logger | intros _]).
  - apply agree_migrate_postgres.
  - apply agree_migrate_sqlite.
Qed.

End Agreement.

(** ** SQLite and the reference catalog on plain schemas *)

Section PlainSchemas.

Import RefDb.

Implicit Types (sch : Schema) (s : Stmt) (cols : list ColumnDef).

Lemma lower_script_names n : n ∈ script_names -> lower n = n.
Proof.
  intros Hn. apply list_elem_of_In in Hn. simpl in Hn.
  by repeat destruct Hn as [<-|Hn].
Qed.

Lemma lower_sshkey_index_names n : n ∈ sshkey_index_names -> lower n = n.
Proof.
  intros Hn. apply list_elem_of_In in Hn. simpl in Hn.
  by repeat destruct Hn as [<-|Hn].
Qed.

(** On columns that are spelled as the script spells them, looking a
    script name up with or without regard to case is the same. *)
Lemma has_column_agree n cols :
  n ∈ script_names ->
  (forall c n', c ∈ cols -> n' ∈ script_names ->
                lower (col_name c) = n' -> col_name c = n') ->
  LiteDb.has_column n cols = has_column n cols.
Proof.
  intros Hn Hcols. unfold LiteDb.has_column, has_column.
  apply bool_decide_ext. rewrite (lower_script_names n Hn), !list_elem_of_fmap.
  split; intros (c & Hc & Hin); exists c; (split; [|done]).
  - symmetry. by apply Hcols.
  - rewrite <- Hc. symmetry. by apply lower_script_names.
Qed.

Lemma forallb_has_column_agree cs cols :
  forallb (fun c => bool_decide (c ∈ script_names)) cs = true ->
  (forall c n', c ∈ cols -> n' ∈ script_names ->
                lower (col_name c) = n' -> col_name c = n') ->
  forallb (fun c => LiteDb.has_column c cols) cs
  = forallb (fun c => has_column c cols) cs.
Proof.
  intros Hcs Hcols. induction cs as [|c cs IH]; [done|].
  cbn [forallb] in *. apply andb_true_iff in Hcs as [Hc Hcs].
  apply bool_decide_eq_true in Hc. by rewrite has_column_agree, IH.
Qed.

Lemma spelled_insert sch t cols :
  spelled sch ->
  (forall c n, c ∈ cols -> n ∈ script_names ->
               lower (col_name c) = n -> col_name c = n) ->
  spelled (Sch (<[t := cols]> (tables sch)) (indexes sch)).
Proof.
  intros Hsp Hcols t' cols' c n. cbn [tables].
  destruct (decide (t = t')) as [<-|Hne].
  - rewrite lookup_insert_eq. intros [= <-]. apply Hcols.
  - rewrite lookup_insert_ne by done. apply Hsp.
Qed.

Lemma plain_insert_table sch t cols :
  plain sch -> lower t = t -> t ∉ sshkey_index_names ->
  (forall c n, c ∈ cols -> n ∈ script_names ->
               lower (col_name c) = n -> col_name c = n) ->
  plain (Sch (<[t := cols]> (tables sch)) (indexes sch)).
Proof.
  intros (Hsp & Hk & Hn & Htk & Hik) Hl Hti Hcols.
  split; [by apply spelled_insert|]. split; [exact Hk|].
  split; [|split; [|exact Hik]].
  - intros n' Hn'. cbn [tables]. rewrite lookup_insert_ne; [by apply Hn|].
    by intros ->.
  - intros t'. cbn [tables]. destruct (decide (t = t')) as [<-|Hne]; [done|].
    rewrite lookup_insert_ne by done. apply Htk.
Qed.

Lemma plain_insert_index sch n d :
  plain sch -> lower n = n -> n <> "sshkey" ->
  plain (Sch (tables sch) (<[n := d]> (indexes sch))).
Proof.
  intros (Hsp & Hk & Hn & Htk & Hik) Hl Hne.
  split; [exact Hsp|]. split; [cbn [indexes]; by rewrite lookup_insert_ne|].
  split; [exact Hn|]. split; [exact Htk|].
  intros n'. cbn [indexes]. destruct (decide (n = n')) as [<-|Hne']; [done|].
  rewrite lookup_insert_ne by done. apply Hik.
Qed.

(** On a plain schema SQLite and the reference catalog do the same
    with every statement of the script, and the schema stays plain. *)
Lemma plain_execute_agrees s sch :
  scripted s = true -> plain sch ->
  LiteDb.execute s sch = execute s sch /\ plain (execute s sch).1.
Proof.
  intros Hs Hplain. pose proof Hplain as (Hsp & Hk & Hn & _).
  destruct s as [t|ine t c|ine t cs|u ine n t cs]; cbn [scripted] in Hs.
  - apply bool_decide_eq_true, list_elem_of_In in Hs. simpl in Hs.
    by destruct Hs as [<-|[<-|[]]].
  - apply andb_true_iff in Hs as [Ht Hc].
    apply bool_decide_eq_true in Hc.
    assert (lower t = t /\ t ∉ sshkey_index_names) as [Hl Hti].
    { apply bool_decide_eq_true, list_elem_of_In in Ht. simpl in Ht.
      destruct Ht as [<-|[<-|[]]]; (split; [done|]);
        intros H%list_elem_of_In; simpl in H; by repeat destruct H as [?|H]. }
    cbn [LiteDb.execute execute]. rewrite Hl.
    destruct (tables sch !! t) as [cols|] eqn:Hcols; [|done].
    rewrite has_column_agree by (done || intros c' n' ?; by apply (Hsp t cols)).
    destruct (has_column (col_name c) cols); [done|]. split; [done|].
    cbn [fst]. apply plain_insert_table; [done..|].
    intros c' n' [Hin|Hin]%elem_of_app Hn' Hlow.
    + by apply (Hsp t cols c').
    + apply list_elem_of_singleton in Hin as ->.
      by rewrite <- Hlow, (lower_script_names _ Hc).
  - apply andb_true_iff in Hs as [Ht Hcs]. apply bool_decide_eq_true in Ht as ->.
    cbn [LiteDb.execute execute].
    change (lower "sshkey") with "sshkey". rewrite Hk.
    destruct (tables sch !! "sshkey") as [cols|] eqn:Hcols; [done|].
    split; [done|]. cbn [fst]. apply plain_insert_table; [done | done | |].
    + intros H%list_elem_of_In. simpl in H. by repeat destruct H as [?|H].
    + intros c' n' Hin _ Hlow.
      rewrite forallb_forall in Hcs. rewrite <- Hlow.
      symmetry. apply (bool_decide_eq_true_1 _), Hcs. by apply list_elem_of_In.
  - apply andb_true_iff in Hs as [Hs Hcs]. apply andb_true_iff in Hs as [Hi Ht].
    apply bool_decide_eq_true in Ht as ->. apply bool_decide_eq_true in Hi.
    cbn [LiteDb.execute execute].
    change (lower "sshkey") with "sshkey".
    rewrite (lower_sshkey_index_names n Hi), (Hn n Hi).
    destruct (tables sch !! "sshkey") as [tcols|] eqn:Htcols; [|done].
    destruct (indexes sch !! n) eqn:Hidx; [done|].
    rewrite forallb_has_column_agree
      by (done || intros c' n' ?; by apply (Hsp "sshkey" tcols)).
    split; [done|].
    destruct (forallb (fun c => has_column c tcols) cs); [|done]. cbn [fst].
    apply plain_insert_index; [done | by apply lower_sshkey_index_names |].
    intros ->. apply list_elem_of_In in Hi. simpl in Hi.
    by repeat destruct Hi as [?|Hi].
Qed.

Lemma plain_check_sound sch : plain_check sch = true -> plain sch.
Proof.
  unfold plain_check. rewrite !andb_true_iff, !forallb_forall.
  intros [[[[Hsp Hk] Hn] Htk] Hik]. split; [|split; [|split; [|split]]].
  - intros t cols c n Ht Hc Hin Hlow.
    apply elem_of_map_to_list, list_elem_of_In, Hsp in Ht. cbn [snd] in Ht.
    unfold spelled_cols in Ht. rewrite forallb_forall in Ht.
    apply list_elem_of_In, Ht in Hc. rewrite forallb_forall in Hc.
    apply list_elem_of_In, Hc in Hin.
    rewrite bool_decide_eq_true_2 in Hin by done.
    by apply bool_decide_eq_true in Hin.
  - by apply bool_decide_eq_true in Hk.
  - intros n Hin. apply list_elem_of_In, Hn in Hin.
    by apply bool_decide_eq_true in Hin.
  - intros t [cols Ht].
    apply elem_of_map_to_list, list_elem_of_In, Htk in Ht.
    by apply bool_decide_eq_true in Ht.
  - intros n [d Hd].
    apply elem_of_map_to_list, list_elem_of_In, Hik in Hd.
    by apply bool_decide_eq_true in Hd.
Qed.

Lemma scripted_sql_event evs s r :
  Forall scripted_event evs -> (s, r) ∈ sql_events evs -> scripted s = true.
Proof.
  intros Hall. unfold sql_events. rewrite list_elem_of_omap.
  intros (ev & Hev & Hs). rewrite Forall_forall in Hall. specialize (Hall ev Hev).
  destruct ev as [| | |s' r']; try done. by simplify_eq/=.
Qed.

(** A run of the script on SQLite, from a plain schema, is the run on
    the reference catalog; the schema it leaves is plain, and its
    statements are statements of the script. *)
Lemma plain_run_agrees b sch :
  plain sch ->
  migrate LiteDb.driver b sch = migrate driver b sch /\
  plain (run b sch) /\
  Forall scripted_event (out_events (migrate driver b sch)).
Proof.
  apply (agree_migrate LiteDb.driver driver plain).
  - intros sch' H. split; [done|]. by intros ? [= <-].
  - intros s sch'. apply plain_execute_agrees.
Qed.

(** The same for the catalog behind the backend value. *)
Lemma plain_engine_agrees b sch :
  plain sch ->
  migrate (engine b) b sch = migrate driver b sch /\ plain (run b sch).
Proof.
  intros Hplain. unfold engine. destruct (String.eqb b "postgres").
  - split; [done|]. by apply plain_run_agrees.
  - destruct (plain_run_agrees b sch Hplain) as (E & I & _). by split.
Qed.

End PlainSchemas.

(** ** Failures on the reference catalog *)

Section CatalogFailures.

Import RefDb.

Implicit Types (sch : Schema) (s : Stmt) (cols : list ColumnDef).













(** ** Missing tables under the unguarded strategy *)

(** A column section on a catalog without its table: the introspection
    reports no column, and the first addition fails. *)
Lemma refdb_section_missing checking t c adding added adds sch :
  tables sch !! t = None ->
  check_and_add driver checking t ((c, adding, added) :: adds) sch
  = Out [ EvLog Info checking; EvSql (PRAGMA_table_info t) (inr []);
          EvLog Info adding;
          EvSql (ALTER_TABLE_ADD_COLUMN false t c)
                (inl (undefined ("no such table: " +:+ t))) ]
        sch (inl (undefined ("no such table: " +:+ t))).
Proof.
  intros Ht. rewrite check_and_add_eq. cbn [drv_execute_sql driver execute].
  rewrite Ht. cbn [default from_option id].
  change (table_info []) with (@nil Row).
  change (row_names []) with (Some (@nil string)). cbv iota.
  cbn [add_all]. rewrite bind_unfold, add_if_missing_eq.
  rewrite decide_True by set_solver.
  cbn [drv_execute_sql driver execute]. by rewrite Ht.
Qed.

Lemma sshkey_result_ok {DB} (drv : Driver DB) db :
  Forall (fun sr => exists c, sr.2 = inr c) (strict_exec drv lite_sshkey_statements db).1 ->
  out_result (migrate_sqlite_sshkey drv db) = inr tt.
Proof.
  unfold migrate_sqlite_sshkey, bind, execute_sql, logger, lite_sshkey_statements,
    sshkey_indexes.
  cbn [strict_exec].
  repeat match goal with
         | |- context [drv_execute_sql drv ?s ?d] =>
             destruct (drv_execute_sql drv s d) as [? [?|?]]; cbn; try done
         end;
    intros H;
    repeat match goal with
           | H : Forall _ (_ :: _) |- _ => apply Forall_cons_1 in H as [[? ?] ?]
           end; simplify_eq/=.
Qed.

Lemma strict_exec_cons_ok {DB} (drv : Driver DB) s l db db' c :
  drv_execute_sql drv s db = (db', inr c) ->
  (strict_exec drv (s :: l) db).1 = (s, inr c) :: (strict_exec drv l db').1.
Proof.
  intros H. cbn [strict_exec]. rewrite H. by destruct (strict_exec drv l db').
Qed.

(** A guarded index on a table that has its member columns. *)
Lemma create_index_guarded u n t cs sch tcols :
  tables sch !! t = Some tcols ->
  forallb (fun c => has_column c tcols) cs = true ->
  exists sch', execute (CREATE_INDEX u true n t cs) sch = (sch', inr []) /\
               tables sch' = tables sch.
Proof.
  intros Ht Hcs. cbn [execute]. rewrite Ht, Hcs.
  destruct (indexes sch !! n); by eexists.
Qed.

Lemma sshkey_section_ok sch :
  tables sch !! "sshkey" = None ->
  out_result (migrate_sqlite_sshkey driver sch) = inr tt.
Proof.
  intros Ht. apply sshkey_result_ok.
  unfold lite_sshkey_statements, sshkey_indexes.
  set (s1 := Sch (<["sshkey" := lite_sshkey_columns]> (tables sch)) (indexes sch)).
  assert (tables s1 !! "sshkey" = Some lite_sshkey_columns) as H1
    by apply lookup_insert_eq.
  rewrite (strict_exec_cons_ok driver _ _ sch s1 [])
    by (cbn [drv_execute_sql driver execute]; by rewrite Ht).
  destruct (create_index_guarded false "sshkey_user_id" "sshkey" ["user_id"]
              s1 _ H1 eq_refl) as (s2 & X2 & E2).
  rewrite <- E2 in H1. rewrite (strict_exec_cons_ok driver _ _ s1 s2 [] X2).
  destruct (create_index_guarded false "sshkey_fingerprint" "sshkey" ["fingerprint"]
              s2 _ H1 eq_refl) as (s3 & X3 & E3).
  rewrite <- E3 in H1. rewrite (strict_exec_cons_ok driver _ _ s2 s3 [] X3).
  destruct (create_index_guarded true "sshkey_user_fingerprint" "sshkey"
              ["user_id"; "fingerprint"] s3 _ H1 eq_refl) as (s4 & X4 & E4).
  rewrite (strict_exec_cons_ok driver _ _ s3 s4 [] X4).
  repeat constructor; by eexists.
Qed.

(** With both quota-bearing tables and no credential-key table,
    [migrate_sqlite] raises nothing. *)
Lemma migrate_sqlite_ok sch :
  is_Some (tables sch !! "user") -> is_Some (tables sch !! "organization") ->
  tables sch !! "sshkey" = None ->
  out_result (migrate_sqlite driver sch) = inr tt.
Proof.
  intros [cu Hu] [co Ho] Hk. rewrite migrate_sqlite_unfold. cbv zeta.
  pose proof (refdb_section "Checking User table schema..." "user" lite_user_adds
    sch nodup_lite_user_adds ltac:(done)) as S1. cbv zeta in S1.
  rewrite Hu in S1. destruct S1 as (R1 & D1 & _). rewrite R1, D1.
  set (s1 := Sch (<["user" := cu ++ missing_columns (specs_of lite_user_adds) cu]>
                    (tables sch)) (indexes sch)).
  pose proof (refdb_section "Checking Organization table schema..." "organization"
    lite_organization_adds s1 nodup_lite_organization_adds ltac:(done)) as S2.
  cbv zeta in S2.
  assert (tables s1 !! "organization" = Some co) as Ho1
    by (unfold s1; cbn [tables]; by rewrite lookup_insert_ne).
  rewrite Ho1 in S2. destruct S2 as (R2 & D2 & _). rewrite R2, D2.
  cbn [out_result]. apply sshkey_section_ok. cbn [tables].
  rewrite lookup_insert_ne by done. unfold s1. cbn [tables].
  by rewrite lookup_insert_ne.
Qed.

(** The unguarded strategy and missing tables, on the reference
    catalog. *)
Lemma refdb_unguarded_missing_table (b : string) (sch : Schema) :
  b <> "postgres" ->
  (tables sch !! "user" = None ->
     out_result (migrate driver b sch) = inl (undefined "no such table: user") /\
     run b sch = sch) /\
  (forall cu,
     tables sch !! "user" = Some cu -> tables sch !! "organization" = None ->
     out_result (migrate driver b sch)
       = inl (undefined "no such table: organization") /\
     run b sch
       = Sch (<["user" := cu ++ missing_columns lite_quota_columns cu]> (tables sch))
             (indexes sch)) /\
  (is_Some (tables sch !! "user") -> is_Some (tables sch !! "organization") ->
   tables sch !! "sshkey" = None ->
   out_result (migrate driver b sch) = inr tt).
Proof.
  intros Hb. destruct (run_unguarded_eq b sch Hb) as [-> ->].
  rewrite migrate_sqlite_unfold. cbv zeta.
  split; [|split].
  - intros Hu. unfold lite_user_adds. by rewrite refdb_section_missing.
  - intros cu Hu Ho.
    pose proof (refdb_section "Checking User table schema..." "user" lite_user_adds
      sch nodup_lite_user_adds ltac:(done)) as S1. cbv zeta in S1.
    rewrite Hu in S1. destruct S1 as (R1 & D1 & _). rewrite R1, D1.
    unfold lite_organization_adds. rewrite refdb_section_missing; [done|].
    cbn [tables]. by rewrite lookup_insert_ne.
  - intros Hu Ho Hk. rewrite <- migrate_sqlite_unfold. by apply migrate_sqlite_ok.
Qed.

(** X9: the unguarded strategy has no handler and no transaction.  On
    the catalog of SQLite, from a plain starting schema, a run on a
    schema without the [user] table raises on the first addition and
    leaves the schema as it was; a run on a schema with [user] but
    without [organization] raises on the first addition to
    [organization] and leaves [user] with its quota columns added; with
    both tables, and no credential-key table yet, the run raises
    nothing. *)
Theorem unguarded_missing_table (b : string) (sch : Schema) :
  b <> "postgres" -> plain sch ->
  (tables sch !! "user" = None ->
     out_result (migrate LiteDb.driver b sch)
       = inl (undefined "no such table: user") /\
     LiteDb.run b sch = sch) /\
  (forall cu,
     tables sch !! "user" = Some cu -> tables sch !! "organization" = None ->
     out_result (migrate LiteDb.driver b sch)
       = inl (undefined "no such table: organization") /\
     LiteDb.run b sch
       = Sch (<["user" := cu ++ missing_columns lite_quota_columns cu]> (tables sch))
             (indexes sch)) /\
  (is_Some (tables sch !! "user") -> is_Some (tables sch !! "organization") ->
   tables sch !! "sshkey" = None ->
   out_result (migrate LiteDb.driver b sch) = inr tt).
Proof.
  intros Hb Hplain. unfold LiteDb.run.
  rewrite (proj1 (plain_run_agrees b sch Hplain)).
  by apply refdb_unguarded_missing_table.
Qed.

(** The end-to-end schema of the spec without its [organization]
    table. *)
Lemma unguarded_missing_table_witness :
  out_result (migrate LiteDb.driver "sqlite" (drop_table "organization" legacy))
    = inl (undefined "no such table: organization") /\
  tables (LiteDb.run "sqlite" (drop_table "organization" legacy)) !! "user"
    = Some ([Col "id" INTEGER [PRIMARY_KEY]; Col "username" TEXT [NOT_NULL]]
            ++ lite_quota_columns).
Proof.
  destruct (unguarded_missing_table "sqlite" (drop_table "organization" legacy))
    as (_ & H & _); [done | apply plain_check_sound; by vm_compute |].
  destruct (H [Col "id" INTEGER [PRIMARY_KEY]; Col "username" TEXT [NOT_NULL]])
    as [Hres Hrun]; [by vm_compute | by vm_compute |].
  split; [exact Hres|]. rewrite Hrun. cbn [tables]. by rewrite lookup_insert_eq.
Defined.

(** ** The two strategies side by side *)









(** ** Idempotence on plain schemas *)

(** X12: from a plain starting schema the migration is idempotent, on
    the catalog of PostgreSQL under the guarded strategy and on the
    catalog of SQLite under the unguarded one: a second run leaves the
    schema as the first run left it, whether or not the first run
    raised, and every statement of the second run leaves that schema
    unchanged and does not fail on an object that already exists. *)
Theorem plain_migration_idempotent (b : string) (sch : Schema) :
  plain sch ->
  let once := out_db (migrate (engine b) b sch) in
  let again := migrate (engine b) b once in
  out_db again = once /\ quiet_on (engine b) once (out_events again).
Proof.
  intros Hplain. cbv zeta.
  destruct (plain_engine_agrees b sch Hplain) as [-> Hplain1].
  change (out_db (migrate driver b sch)) with (run b sch).
  rewrite (proj1 (plain_engine_agrees b (run b sch) Hplain1)).
  destruct (refdb_idempotent b sch) as [Hdb Hq]. split; [exact Hdb|].
  intros s r Hin. destruct (Hq s r Hin) as [Hex Hnd]. split; [|exact Hnd].
  unfold engine. destruct (String.eqb b "postgres"); [exact Hex|].
  cbn [drv_execute_sql LiteDb.driver]. rewrite <- Hex.
  apply plain_execute_agrees; [|done].
  destruct (plain_run_agrees b (run b sch) Hplain1) as (_ & _ & Hall).
  by apply (scripted_sql_event _ s r Hall).
Qed.

(** The end-to-end schema of the spec, migrated twice on SQLite. *)
Lemma plain_migration_idempotent_witness :
  out_db (migrate (engine "sqlite") "sqlite"
            (out_db (migrate (engine "sqlite") "sqlite" legacy)))
  = out_db (migrate (engine "sqlite") "sqlite" legacy) /\
  quiet_on (engine "sqlite") (out_db (migrate (engine "sqlite") "sqlite" legacy))
    (out_events (migrate (engine "sqlite") "sqlite"
                   (out_db (migrate (engine "sqlite") "sqlite" legacy)))).
Proof.
  apply (plain_migration_idempotent "sqlite" legacy).
  apply plain_check_sound. by vm_compute.
Defined.

End CatalogFailures.

(** * Further properties of the JSON-schema export script *)

Section MoveDefsOrder.

Import JsonSchema.

Context {V : Type}.

Implicit Types (d : dict V) (k : string) (v : V).

Lemma others_app k d1 d2 : others k (d1 ++ d2) = others k d1 ++ others k d2.
Proof. apply filter_app. Qed.

Lemma others_fresh k d : k ∉ d.*1 -> others k d = d.
Proof.
  induction d as [|[k' v'] d IH]; [done|]. cbn [fmap list_fmap fst].
  rewrite not_elem_of_cons. intros [Hne Hnin]. unfold others in *.
  rewrite filter_cons, decide_True by (cbn; congruence). by rewrite IH.
Qed.

Lemma others_self k v d : others k ((k, v) :: d) = others k d.
Proof. unfold others. rewrite filter_cons, decide_False; [done|]. cbn. by intros []. Qed.

Lemma getitem_elem k v d : getitem k d = Some v -> k ∈ d.*1.
Proof.
  induction d as [|[k' v'] d IH]; [done|]. cbn [getitem fmap list_fmap fst].
  case_decide; [subst; by left | right; auto].
Qed.

End MoveDefsOrder.

(** X10: [move_defs_to_end] keeps the order of the other items.  The
    items of the resulting dictionary whose key is not ["$defs"] are
    those of the argument, in the same order; when the argument has the
    key, the result is these items followed by the ["$defs"] item with
    its value. *)
Theorem move_defs_to_end_keeps_order {V} (schema : JsonSchema.dict V) :
  JsonSchema.dict_wf schema ->
  exists schema',
    JsonSchema.move_defs_to_end schema = Some schema' /\
    others "$defs" schema' = others "$defs" schema /\
    (forall defs, JsonSchema.getitem "$defs" schema = Some defs ->
                  schema' = others "$defs" schema ++ [("$defs", defs)]).
Proof.
  intros Hwf.
  destruct (move_defs_to_end_eq schema Hwf)
    as [[Hnin Heq]|(d1 & defs & d2 & -> & Hnin & Heq)].
  - exists schema. split; [done|]. split; [done|].
    intros defs Hget. by apply getitem_elem in Hget.
  - exists ((d1 ++ d2) ++ [("$defs", defs)]). split; [done|].
    assert ("$defs" ∉ d1.*1) as H1.
    { rewrite fmap_app, elem_of_app in Hnin. intros ?. apply Hnin. by left. }
    assert (others "$defs" (d1 ++ ("$defs", defs) :: d2) = d1 ++ d2) as Ho.
    { rewrite others_app, others_self, <- others_app. by apply others_fresh. }
    rewrite Ho. split.
    + rewrite others_app, (others_self _ _ []), app_nil_r. by apply others_fresh.
    + intros defs'. rewrite getitem_first by done. by intros [= <-].
Qed.

(** A schema with ["$defs"] between two other keys. *)
Lemma move_defs_to_end_keeps_order_witness :
  exists schema',
    JsonSchema.move_defs_to_end
      [("title", 1%nat); ("$defs", 2%nat); ("properties", 3%nat); ("type", 4%nat)]
      = Some schema' /\
    others "$defs" schema'
      = others "$defs"
          [("title", 1%nat); ("$defs", 2%nat); ("properties", 3%nat); ("type", 4%nat)] /\
    (forall defs,
       JsonSchema.getitem "$defs"
         [("title", 1%nat); ("$defs", 2%nat); ("properties", 3%nat); ("type", 4%nat)]
         = Some defs ->
       schema'
       = others "$defs"
           [("title", 1%nat); ("$defs", 2%nat); ("properties", 3%nat); ("type", 4%nat)]
         ++ [("$defs", defs)]).
Proof.
  apply (move_defs_to_end_keeps_order
           [("title", 1%nat); ("$defs", 2%nat); ("properties", 3%nat); ("type", 4%nat)]).
  unfold JsonSchema.dict_wf. apply (bool_decide_unpack _). by vm_compute.
Defined.
